(** * SafeSQL: a shallow embedding of [safesql.go]

    The development follows the source file top-down: Go's [int], the
    outcome of a fallible run, the string helpers of package [strings] the
    tool calls, the suppression resolver ([CheckIssues]), the sink resolver
    ([FindQueryMethods], [FuncHasQuery]) and the unsafe-call detector
    ([FindNonConstCalls]).  Theorems come after all definitions. *)

From Stdlib Require Import ZArith Ascii String.
From stdpp Require Import gmap strings list fin_maps sorting.

Local Open Scope Z_scope.

(** ** Go's [int] (64 bit, two's complement) *)

Module GoInt.
Definition min_int : Z := - 2 ^ 63.
Definition max_int : Z := 2 ^ 63 - 1.

(** Wrap-around of an arithmetic result into the range of [int]. *)
Definition wrap (z : Z) : Z := (z + 2 ^ 63) mod 2 ^ 64 - 2 ^ 63.

Definition add (a b : Z) : Z := wrap (a + b).
Definition sub (a b : Z) : Z := wrap (a - b).

Definition in_range (z : Z) : Prop := min_int ≤ z ≤ max_int.
End GoInt.

(** ** Outcome of a run

    [Ok] is a normal return, [Err] a returned [error] value, [Panic] a
    run-time panic (an explicit [panic], an index out of range, a failed
    type assertion, a nil dereference). *)

Inductive result (A : Type) : Type :=
  | Ok (a : A)
  | Err (e : string)
  | Panic (msg : string).
Arguments Ok {A} a.
Arguments Err {A} e.
Arguments Panic {A} msg.

Global Instance result_ret : MRet result := λ A a, Ok a.
Global Instance result_bind : MBind result := λ A B f m,
  match m with
  | Ok a => f a
  | Err e => Err e
  | Panic msg => Panic msg
  end.

Global Instance result_fmap : FMap result := λ A B f m,
  match m with
  | Ok a => Ok (f a)
  | Err e => Err e
  | Panic msg => Panic msg
  end.

Definition is_Ok {A} (r : result A) : Prop := ∃ a, r = Ok a.
Definition is_Panic {A} (r : result A) : Prop := ∃ msg, r = Panic msg.

(** [s[i]] on a slice: panics unless [0 <= i < len(s)]. *)
Definition elemAt {A} (s : list A) (i : Z) : result A :=
  if i <? 0 then Panic "index out of range"
  else match s !! Z.to_nat i with
       | Some x => Ok x
       | None => Panic "index out of range"
       end.

(** [len(s)] *)
Definition len {A} (s : list A) : Z := Z.of_nat (length s).

(** ** Package [strings]

    Go strings are byte sequences; [string] is used as such. *)

Definition byte_is (c : ascii) (n : N) : bool := (N_of_ascii c =? n)%N.

(** The ASCII white space of [unicode.IsSpace]: tab, line feed, vertical
    tab, form feed, carriage return, space. *)
Definition asciiSpace (c : ascii) : bool :=
  byte_is c 9 || byte_is c 10 || byte_is c 11 || byte_is c 12
  || byte_is c 13 || byte_is c 32.

(** UTF-8 encodings of the two-byte white space runes U+0085 and U+00A0. *)
Definition space2 (b1 b2 : ascii) : bool :=
  byte_is b1 194 && (byte_is b2 133 || byte_is b2 160).

(** UTF-8 encodings of the three-byte white space runes U+1680,
    U+2000..U+200A, U+2028, U+2029, U+202F, U+205F and U+3000. *)
Definition space3 (b1 b2 b3 : ascii) : bool :=
  (byte_is b1 225 && byte_is b2 154 && byte_is b3 128)
  || (byte_is b1 226 && byte_is b2 128
      && (((128 <=? N_of_ascii b3) && (N_of_ascii b3 <=? 138))%N
          || byte_is b3 168 || byte_is b3 169 || byte_is b3 175))
  || (byte_is b1 226 && byte_is b2 129 && byte_is b3 159)
  || (byte_is b1 227 && byte_is b2 128 && byte_is b3 128).

(** Strips the white space runes at the head of [s].  With [back] the
    string is read from its end ([s] is then the reversed string), so the
    bytes of a rune arrive last byte first. *)
Fixpoint trimRunes (back : bool) (s : string) : string :=
  match s with
  | String c1 r1 =>
    if asciiSpace c1 then trimRunes back r1
    else match r1 with
         | String c2 r2 =>
           if (if back then space2 c2 c1 else space2 c1 c2)
           then trimRunes back r2
           else match r2 with
                | String c3 r3 =>
                  if (if back then space3 c3 c2 c1 else space3 c1 c2 c3)
                  then trimRunes back r3
                  else s
                | EmptyString => s
                end
         | EmptyString => s
         end
  | EmptyString => s
  end.

(** [strings.TrimSpace]: leading and trailing Unicode white space removed. *)
Definition TrimSpace (s : string) : string :=
  String.rev (trimRunes true (String.rev (trimRunes false s))).

(** [strings.HasPrefix] *)
Definition HasPrefix (s prefix : string) : bool :=
  (String.length prefix <=? String.length s)%nat
  && String.eqb (substring 0 (String.length prefix) s) prefix.

(** [strings.HasSuffix] *)
Definition HasSuffix (s suffix : string) : bool :=
  (String.length suffix <=? String.length s)%nat
  && String.eqb (substring (String.length s - String.length suffix)
                           (String.length suffix) s) suffix.

(** [strings.Split(s, sep)] for a one-byte separator: the pieces between
    the separators, one more than there are separators. *)
Fixpoint Split_go (sep : ascii) (cur : string) (s : string) : list string :=
  match s with
  | EmptyString => [String.rev cur]
  | String c r =>
    if Ascii.eqb c sep then String.rev cur :: Split_go sep EmptyString r
    else Split_go sep (String c cur) r
  end.
Definition Split (s : string) (sep : ascii) : list string :=
  Split_go sep EmptyString s.

Definition newline : ascii := "010"%char.

(** ** Configuration *)

Definition IgnoreComment : string := "//nolint:safesql".

Record sqlPackage : Type := {
  packageName : string;
  paramNames : list string;
  enable : bool
}.

(** The catalog as declared; [main] later sets [enable] on the entries
    the analysed program imports.  The functions below read only
    [packageName] and [paramNames]. *)
Definition sqlPackages : list sqlPackage := [
  {| packageName := "database/sql"; paramNames := ["query"]; enable := false |};
  {| packageName := "github.com/jinzhu/gorm"; paramNames := ["sql"; "query"];
     enable := false |};
  {| packageName := "github.com/jmoiron/sqlx"; paramNames := ["query"];
     enable := false |};
  {| packageName := "github.com/jackc/pgx/v4"; paramNames := ["sql"; "query"];
     enable := false |}
].

Definition ignoredFiles : list string :=
  ["github.com/jackc/pgx/v4/pgxpool/conn.go"].

(** ** Suppression resolver *)

(** [token.Position] *)
Record Position : Type := {
  Filename : string;
  Offset : Z;
  Line : Z;
  Column : Z
}.

Global Instance Position_eq_dec : EqDecision Position.
Proof. solve_decision. Defined.

Record Issue : Type := {
  statement : Position;
  ignored : bool
}.

Global Instance Issue_eq_dec : EqDecision Issue.
Proof. solve_decision. Defined.

Definition BeginsWithComment (line : string) : bool :=
  HasPrefix (TrimSpace line) IgnoreComment.

Definition HasIgnoreComment (line : string) : bool :=
  HasSuffix (TrimSpace line) IgnoreComment.

(** The files on disk at report time: [ioutil.ReadFile] returns the
    content of a readable file and an error otherwise. *)
Definition FileSystem : Type := string → option string.

Definition ReadFile (fs : FileSystem) (file : string) : result string :=
  match fs file with
  | Some data => Ok data
  | None => Err ("open " +:+ file)
  end.

(** First loop of [CheckIssues]: positions grouped by file name, each
    group in the order of the input. *)
Definition groupByFile (lines : list Position) : gmap string (list Position) :=
  foldl (λ files line,
           <[Filename line := default [] (files !! Filename line) ++ [line]]> files)
        ∅ lines.

(** Whether [file] ends with an entry of [ignoredFiles]. *)
Fixpoint fileIsIgnored_go (file : string) (ignored : list string) : bool :=
  match ignored with
  | [] => false
  | ignoredFile :: rest =>
    if HasSuffix file ignoredFile then true else fileIsIgnored_go file rest
  end.
Definition fileIsIgnored (file : string) : bool :=
  fileIsIgnored_go file ignoredFiles.

(** Body of the loop over the positions of one file. *)
Definition checkLine (fileIgnored : bool) (fileLines : list string)
    (line : Position) : result Issue :=
  let potentialCommentLine := GoInt.sub (Line line) 2 in
  previous ←
    (if 0 <=? potentialCommentLine
     then BeginsWithComment <$> elemAt fileLines potentialCommentLine
     else Ok false);
  if (previous : bool) then Ok {| statement := line; ignored := true |}
  else
    current ← elemAt fileLines (GoInt.sub (Line line) 1);
    let isIgnored := HasIgnoreComment current || fileIgnored in
    Ok {| statement := line; ignored := isIgnored |}.

(** Loop over the positions of one file, appending to [issues]. *)
Fixpoint checkLines (fileIgnored : bool) (fileLines : list string)
    (linesInFile : list Position) (issues : list Issue) : result (list Issue) :=
  match linesInFile with
  | [] => Ok issues
  | line :: rest =>
    issue ← checkLine fileIgnored fileLines line;
    checkLines fileIgnored fileLines rest (issues ++ [issue])
  end.

(** Body of the loop over the files; [linesInFile] arrives sorted. *)
Definition checkFile (fs : FileSystem) (file : string)
    (linesInFile : list Position) (issues : list Issue) : result (list Issue) :=
  let fileIgnored := fileIsIgnored file in
  data ← ReadFile fs file;
  let fileLines := Split data newline in
  checkLines fileIgnored fileLines linesInFile issues.

Fixpoint checkFiles (fs : FileSystem) (files : list (string * list Position))
    (issues : list Issue) : result (list Issue) :=
  match files with
  | [] => Ok issues
  | (file, linesInFile) :: rest =>
    issues' ← checkFile fs file linesInFile issues;
    checkFiles fs rest issues'
  end.

(** The order [sort.Slice] establishes with the comparison
    [linesInFile[i].Line < linesInFile[j].Line]: ascending lines.  The
    sort is not stable, so positions on one line come in any order. *)
Definition lineOrder (a b : Position) : Prop := Line a ≤ Line b.

Global Instance lineOrder_dec : RelDecision lineOrder.
Proof. intros a b. unfold lineOrder. apply _. Defined.

Definition sortedByLine (l l' : list Position) : Prop :=
  l' ≡ₚ l ∧ StronglySorted lineOrder l'.

(** What the loop [for file, linesInFile := range files] may visit: the
    entries of the map in some order (Go leaves the order of a map range
    unspecified), each group sorted by line. *)
Definition iteration (files : gmap string (list Position))
    (visited : list (string * list Position)) : Prop :=
  ∃ order, order ≡ₚ map_to_list files
    ∧ Forall2 (λ g v, v.1 = g.1 ∧ sortedByLine g.2 v.2) order visited.

(** [CheckIssues fs lines r]: a run of [CheckIssues(lines)] on the file
    system [fs] may end in [r]. *)
Inductive CheckIssues (fs : FileSystem) (lines : list Position)
    : result (list Issue) → Prop :=
  | CheckIssues_run visited :
      iteration (groupByFile lines) visited →
      CheckIssues fs lines (checkFiles fs visited []).

(** One such run, computed: map order of [gmap], merge sort. *)
Definition CheckIssues_exec (fs : FileSystem) (lines : list Position)
    : result (list Issue) :=
  checkFiles fs
    ((λ g, (g.1, merge_sort lineOrder g.2)) <$> map_to_list (groupByFile lines))
    [].

(** ** Package [go/types], as far as the tool observes it *)

Module types.

Inductive BasicKind : Type :=
  | KBool | KInt | KFloat64 | KString | KUnsafePointer
  | KUntypedString | KUntypedNil.

(** A type.  [Basic k] stands for the canonical [types.Typ[k]]. *)
Inductive GoType : Type :=
  | Basic (kind : BasicKind)
  | Interface
  | Pointer (elem : GoType)
  | Slice (elem : GoType)
  | Defined (name : string) (underlying : GoType).

Definition Typ (kind : BasicKind) : GoType := Basic kind.

Global Instance BasicKind_eq_dec : EqDecision BasicKind.
Proof. solve_decision. Defined.
Global Instance GoType_eq_dec : EqDecision GoType.
Proof. solve_decision. Defined.

(** [types.IsInterface]: the underlying type is an interface. *)
Fixpoint IsInterface (t : GoType) : bool :=
  match t with
  | Interface => true
  | Defined _ underlying => IsInterface underlying
  | _ => false
  end.

(** [*types.Var] *)
Record Var : Type := {
  Name : string;
  VarType : GoType
}.

(** [*types.Signature]; [Params] does not hold the receiver. *)
Record Signature : Type := {
  Recv : option Var;
  Params : list Var
}.

(** [*types.Func], here a method: [Func_Type] is its signature. *)
Record Func : Type := {
  Func_Name : string;
  Func_Exported : bool;
  Func_Type : Signature
}.

(** [*types.Named]: [Methods] are the explicitly declared methods. *)
Record Named : Type := {
  Named_Name : string;
  Methods : list Func
}.

(** What [Object.Type()] yields: a [*types.Named] or another type. *)
Inductive ObjectType : Type :=
  | NamedType (n : Named)
  | OtherType (t : GoType).

Inductive ObjectKind : Type :=
  | TypeName | ConstObj | VarObj | FuncObj.

(** [types.Object] *)
Record Object : Type := {
  Exported : bool;
  Kind : ObjectKind;
  TypeOf : ObjectType
}.

(** [*types.Scope]: the declared names, in the order of [Names()],
    each with the object it is bound to. *)
Definition Scope : Type := list (string * Object).

Definition Names (s : Scope) : list string := s.*1.

Fixpoint Lookup (s : Scope) (name : string) : option Object :=
  match s with
  | [] => None
  | (n, o) :: rest => if String.eqb n name then Some o else Lookup rest name
  end.

(** [*types.Package] *)
Record Package : Type := {
  Path : string;
  PkgScope : Scope
}.

End types.

(** ** Package [ssa] *)

Module ssa.

(** [*ssa.Function], a pointer: [Fn_addr] is its identity.  [Pkg] is
    the path of the enclosing package, [None] where [Pkg] is nil
    (wrappers and other shared functions). *)
Record Function : Type := {
  Fn_addr : positive;
  Pkg : option string
}.

Global Instance Function_eq_dec : EqDecision Function.
Proof. solve_decision. Defined.
Global Instance Function_countable : Countable Function :=
  inj_countable' (λ f, (Fn_addr f, Pkg f))
                 (λ p, {| Fn_addr := p.1; Pkg := p.2 |})
                 (λ f, match f with Build_Function _ _ => eq_refl end).

(** Identity of an instruction. *)
Definition Instruction : Type := positive.
Bind Scope positive_scope with Instruction.

(** [ssa.Value].  [Const] is [*ssa.Const]; [GlobalVal] stands for the
    values that do not record their referrers besides constants
    ([*ssa.Global], named [*ssa.Function], [*ssa.Builtin]); [FuncParam]
    is [*ssa.Parameter]; [InstrVal] is any value-defining instruction
    other than [MakeInterface] (a call, a binary operation, a phi ...). *)
Inductive Value : Type :=
  | Const (T : types.GoType) (val : string)
  | GlobalVal (name : string) (T : types.GoType)
  | FuncParam (name : string) (T : types.GoType)
              (referrers : list Instruction)
  | MakeInterface (self : Instruction) (T : types.GoType) (X : Value)
                  (referrers : list Instruction)
  | InstrVal (self : Instruction) (T : types.GoType)
             (referrers : list Instruction).

Global Instance Value_eq_dec : EqDecision Value.
Proof. solve_decision. Defined.

(** [v.Type()] *)
Definition TypeOf (v : Value) : types.GoType :=
  match v with
  | Const T _ | GlobalVal _ T | FuncParam _ T _
  | MakeInterface _ T _ _ | InstrVal _ T _ => T
  end.

(** [v.Referrers()]: nil ([None]) for the values that do not record
    them, else the instructions that use [v]. *)
Definition Referrers (v : Value) : option (list Instruction) :=
  match v with
  | Const _ _ | GlobalVal _ _ => None
  | FuncParam _ _ referrers | MakeInterface _ _ _ referrers
  | InstrVal _ _ referrers => Some referrers
  end.

(** [ssa.CallInstruction] (never nil here): the function holding the
    instruction, the arguments of its [Common()] and its position as
    [Fset.Position(Pos())] resolves it. *)
Record CallInstruction : Type := {
  Parent : Function;
  Args : list Value;
  Pos : Position
}.

Global Instance CallInstruction_eq_dec : EqDecision CallInstruction.
Proof. solve_decision. Defined.

(** [*ssa.Program]: [FuncValue] is nil for a method without a body. *)
Record Program : Type := {
  FuncValue : types.Func → option Function
}.

End ssa.

(** ** Package [callgraph] *)

Module callgraph.

(** [*callgraph.Edge]: [Caller] is [edge.Caller.Func]. *)
Record Edge : Type := {
  Caller : ssa.Function;
  Site : ssa.CallInstruction
}.

(** [*callgraph.Node], with its incoming edges. *)
Record Node : Type := {
  Func : option ssa.Function;
  In : list Edge
}.

(** [*callgraph.Graph]: [Nodes] is keyed by function pointer. *)
Record Graph : Type := {
  Nodes : gmap (option ssa.Function) Node
}.

(** [g.CreateNode(fn)]: the node of [fn], added to the graph, without
    edges, when [fn] has none yet. *)
Definition CreateNode (g : Graph) (fn : option ssa.Function) : Graph * Node :=
  match Nodes g !! fn with
  | Some n => (g, n)
  | None =>
    let n := {| Func := fn; In := [] |} in
    ({| Nodes := <[fn := n]> (Nodes g) |}, n)
  end.

End callgraph.

(** ** Sink resolver *)

Record QueryMethod : Type := {
  Func : types.Func;
  SSA : option ssa.Function;
  ArgCount : Z;
  Param : Z
}.

(** Inner loop of [FuncHasQuery]: does [name] equal a sensitive name? *)
Fixpoint matchesParamName (name : string) (names : list string) : bool :=
  match names with
  | [] => false
  | paramName :: rest =>
    if String.eqb name paramName then true else matchesParamName name rest
  end.

(** Outer loop of [FuncHasQuery] from index [i] on, [params] being the
    parameters at [i], [i+1], ... ([i] stays below [params.Len()], so the
    increment does not overflow). *)
Fixpoint FuncHasQuery_from (names : list string) (params : list types.Var)
    (i : Z) : Z * bool :=
  match params with
  | [] => (0, false)
  | v :: rest =>
    if matchesParamName (types.Name v) names then (i, true)
    else FuncHasQuery_from names rest (i + 1)
  end.

Definition FuncHasQuery (sqlPackages : sqlPackage) (s : types.Signature)
    : Z * bool :=
  FuncHasQuery_from (paramNames sqlPackages) (types.Params s) 0.

(** Loop over the methods of one named type. *)
Fixpoint scanMethods (sqlPackages : sqlPackage) (ssa : ssa.Program)
    (ms : list types.Func) (methods : list QueryMethod) : list QueryMethod :=
  match ms with
  | [] => methods
  | m :: rest =>
    if negb (types.Func_Exported m) then scanMethods sqlPackages ssa rest methods
    else
      let s := types.Func_Type m in
      match FuncHasQuery sqlPackages s with
      | (num, true) =>
        scanMethods sqlPackages ssa rest
          (methods ++ [{| Func := m;
                          SSA := ssa.FuncValue ssa m;
                          ArgCount := len (types.Params s);
                          Param := num |}])
      | (_, false) => scanMethods sqlPackages ssa rest methods
      end
  end.

(** Loop over the names of the scope. *)
Fixpoint scanNames (sqlPackages : sqlPackage) (scope : types.Scope)
    (ssa : ssa.Program) (names : list string) (methods : list QueryMethod)
    : result (list QueryMethod) :=
  match names with
  | [] => Ok methods
  | name :: rest =>
    match types.Lookup scope name with
    | None => Panic "nil pointer dereference"
    | Some o =>
      if negb (types.Exported o) then scanNames sqlPackages scope ssa rest methods
      else match types.Kind o with
           | types.TypeName =>
             match types.TypeOf o with
             | types.NamedType n =>
               scanNames sqlPackages scope ssa rest
                 (scanMethods sqlPackages ssa (types.Methods n) methods)
             | types.OtherType _ => Panic "interface conversion"
             end
           | _ => scanNames sqlPackages scope ssa rest methods
           end
    end
  end.

Definition FindQueryMethods (sqlPackages : sqlPackage) (sql : types.Package)
    (ssa : ssa.Program) : result (list QueryMethod) :=
  let scope := types.PkgScope sql in
  scanNames sqlPackages scope ssa (types.Names scope) [].

(** ** Unsafe-call detector *)

(** The set [okFuncs]: the SSA functions of the tracked methods. *)
Definition okFuncsOf (qms : list QueryMethod) : gset (option ssa.Function) :=
  foldl (λ okFuncs m, {[ SSA m ]} ∪ okFuncs) ∅ qms.

(** The loop over [sqlPackages] that sets [isInternalSQLPkg]. *)
Fixpoint isInternalSQLPkg_go (path : string) (pkgs : list sqlPackage) : bool :=
  match pkgs with
  | [] => false
  | pkg :: rest =>
    if String.eqb (packageName pkg) path then true
    else isInternalSQLPkg_go path rest
  end.
Definition isInternalSQLPkg (path : string) : bool :=
  isInternalSQLPkg_go path sqlPackages.

(** [edge.Caller.Func.Pkg.Pkg.Path()] *)
Definition callerPkgPath (edge : callgraph.Edge) : result string :=
  match ssa.Pkg (callgraph.Caller edge) with
  | Some path => Ok path
  | None => Panic "nil pointer dereference"
  end.

(** [args[1:]] *)
Definition dropFirst {A} (args : list A) : result (list A) :=
  match args with
  | [] => Panic "slice bounds out of range"
  | _ :: rest => Ok rest
  end.

(** The argument list the sink's parameters are matched against: the
    first argument is occasionally the receiver. *)
Definition resolveArgs (m : QueryMethod) (args : list ssa.Value)
    : result (list ssa.Value) :=
  if len args =? GoInt.add (ArgCount m) 1 then dropFirst args
  else if negb (len args =? ArgCount m) then Panic "arg count mismatch"
  else Ok args.

(** The type assertion of [v] to [*ssa.Const] succeeds. *)
Definition isConst (v : ssa.Value) : bool :=
  match v with
  | ssa.Const _ _ => true
  | _ => false
  end.

(** The inner conditions under which a non-constant [v] is passed over:
    [v] is a [MakeInterface] of interface type whose operand [X] has nil
    referrers or a type other than [types.Typ[types.String]]. *)
Definition boxedOperandPassed (v : ssa.Value) : bool :=
  match v with
  | ssa.MakeInterface _ T X _ =>
    types.IsInterface T
    && (bool_decide (ssa.Referrers X = None)
        || negb (bool_decide (ssa.TypeOf X = types.Typ types.KString)))
  | _ => false
  end.

(** Body of the loop over the incoming edges of the node of [m]. *)
Definition visitEdge (okFuncs : gset (option ssa.Function)) (m : QueryMethod)
    (bad : list ssa.CallInstruction) (edge : callgraph.Edge)
    : result (list ssa.CallInstruction) :=
  if bool_decide (Some (ssa.Parent (callgraph.Site edge)) ∈ okFuncs) then Ok bad
  else
    path ← callerPkgPath edge;
    if isInternalSQLPkg path then Ok bad
    else
      args ← resolveArgs m (ssa.Args (callgraph.Site edge));
      v ← elemAt args (Param m);
      if isConst v then Ok bad
      else if boxedOperandPassed v then Ok bad
      else Ok (bad ++ [callgraph.Site edge]).

Fixpoint visitEdges (okFuncs : gset (option ssa.Function)) (m : QueryMethod)
    (edges : list callgraph.Edge) (bad : list ssa.CallInstruction)
    : result (list ssa.CallInstruction) :=
  match edges with
  | [] => Ok bad
  | edge :: rest =>
    bad' ← visitEdge okFuncs m bad edge;
    visitEdges okFuncs m rest bad'
  end.

(** Loop over the tracked methods; [CreateNode] may add nodes to [cg]. *)
Fixpoint visitMethods (okFuncs : gset (option ssa.Function))
    (cg : callgraph.Graph) (qms : list QueryMethod)
    (bad : list ssa.CallInstruction) : result (list ssa.CallInstruction) :=
  match qms with
  | [] => Ok bad
  | m :: rest =>
    let '(cg', node) := callgraph.CreateNode cg (SSA m) in
    bad' ← visitEdges okFuncs m (callgraph.In node) bad;
    visitMethods okFuncs cg' rest bad'
  end.

Section Detector.

(** [DeleteSyntheticNodes] of [*callgraph.Graph] (golang.org/x/tools),
    taken as given: it yields the graph the loops walk. *)
Variable DeleteSyntheticNodes : callgraph.Graph → callgraph.Graph.

Definition FindNonConstCalls (cg : callgraph.Graph) (qms : list QueryMethod)
    : result (list ssa.CallInstruction) :=
  let cg := DeleteSyntheticNodes cg in
  let okFuncs := okFuncsOf qms in
  visitMethods okFuncs cg qms [].

(** The incoming edges [FindNonConstCalls] walks for the function [fn]:
    those of its node once the synthetic nodes are gone. *)
Definition incoming (cg : callgraph.Graph) (fn : option ssa.Function)
    : list callgraph.Edge :=
  callgraph.In (callgraph.CreateNode (DeleteSyntheticNodes cg) fn).2.

End Detector.

(** The part of [main] between detection and report: positions of the
    flagged call sites. *)
Definition positionsOf (bad : list ssa.CallInstruction) : list Position :=
  ssa.Pos <$> bad.

(** ** Notions the statements use *)

(** A position as [token.Position] documents it: lines count from 1, 0
    marks an unknown line; the value is an [int]. *)
Definition validLine (p : Position) : Prop := 0 ≤ Line p ≤ GoInt.max_int.

(** The [n]-th line of a file, lines counted from 1. *)
Definition sourceLine (fileLines : list string) (n : Z) : option string :=
  if n <? 1 then None else fileLines !! Z.to_nat (n - 1).

(** Rule (i): the line before the finding begins, once trimmed, with the
    ignore marker. *)
Definition previousMarked (fileLines : list string) (p : Position) : bool :=
  match sourceLine fileLines (Line p - 1) with
  | Some s => BeginsWithComment s
  | None => false
  end.

(** Rule (ii): the line of the finding ends, once trimmed, with the
    ignore marker. *)
Definition ownMarked (fileLines : list string) (p : Position) : bool :=
  match sourceLine fileLines (Line p) with
  | Some s => HasIgnoreComment s
  | None => false
  end.

(** Following the spec's words for rule (i): the line before the finding
    "consists, after trimming whitespace, exactly of the ignore marker". *)
Definition previousIsExactlyMarker (fileLines : list string) (p : Position)
    : bool :=
  match sourceLine fileLines (Line p - 1) with
  | Some s => String.eqb (TrimSpace s) IgnoreComment
  | None => false
  end.

(** What [CheckIssues] computes for one position, taken alone. *)
Definition verdictOf (fs : FileSystem) (p : Position) : result Issue :=
  data ← ReadFile fs (Filename p);
  checkLine (fileIsIgnored (Filename p)) (Split data newline) p.

(** The issues one file contributes. *)
Definition fileIssues (fs : FileSystem) (v : string * list Position)
    (res : list Issue) : Prop :=
  ∃ data, fs v.1 = Some data
    ∧ Forall2 (λ p iss, checkLine (fileIsIgnored v.1) (Split data newline) p
                        = Ok iss) v.2 res.

(** The record [scanMethods] appends for the method [m], if any. *)
Definition sinkOf (sqlPackages : sqlPackage) (ssa : ssa.Program)
    (m : types.Func) : option QueryMethod :=
  if types.Func_Exported m then
    match FuncHasQuery sqlPackages (types.Func_Type m) with
    | (num, true) =>
      Some {| Func := m;
              SSA := ssa.FuncValue ssa m;
              ArgCount := len (types.Params (types.Func_Type m));
              Param := num |}
    | (_, false) => None
    end
  else None.

(** [k] is the position of the first parameter of [s] whose name is one
    of [names]. *)
Definition firstMatch (names : list string) (s : types.Signature) (k : nat)
    : Prop :=
  (∃ v, types.Params s !! k = Some v ∧ types.Name v ∈ names)
  ∧ ∀ j w, (j < k)%nat → types.Params s !! j = Some w → types.Name w ∉ names.

(** The type whose methods the loop over the names scans for [name]. *)
Definition scannedType (scope : types.Scope) (name : string) (n : types.Named)
    : Prop :=
  ∃ o, types.Lookup scope name = Some o ∧ types.Exported o = true
       ∧ types.Kind o = types.TypeName ∧ types.TypeOf o = types.NamedType n.

(** The value [visitEdge] judges at an edge it evaluates:
    [args[m.Param]] after the receiver adjustment. *)
Definition sinkArg (m : QueryMethod) (edge : callgraph.Edge)
    : result ssa.Value :=
  args ← resolveArgs m (ssa.Args (callgraph.Site edge));
  elemAt args (Param m).

(** An edge the loop does not pass over: the function holding the call
    is not in [okFuncs] and the caller's package is not a tracked one. *)
Definition evaluated (okFuncs : gset (option ssa.Function))
    (edge : callgraph.Edge) : Prop :=
  (Some (ssa.Parent (callgraph.Site edge)) ∉ okFuncs)
  ∧ (∃ path, ssa.Pkg (callgraph.Caller edge) = Some path
             ∧ isInternalSQLPkg path = false).

(** The package paths of the catalog. *)
Definition trackedPackages : list string := packageName <$> sqlPackages.

(** Following the spec's words: the wrapped value "has no remaining uses
    beyond being wrapped", that is, no instruction other than the wrapping
    one refers to it. *)
Definition noUsesBeyondWrapping (wrapper : ssa.Instruction) (X : ssa.Value)
    : bool :=
  match ssa.Referrers X with
  | None => true
  | Some referrers => forallb (Pos.eqb wrapper) referrers
  end.

(** Following the spec's words: an interface-wrapped value is passed over
    "when the wrapped value has no remaining uses beyond being wrapped, or
    its static type is not exactly the string type". *)
Definition specBoxingException (v : ssa.Value) : bool :=
  match v with
  | ssa.MakeInterface self _ X _ =>
    noUsesBeyondWrapping self X
    || negb (bool_decide (ssa.TypeOf X = types.Typ types.KString))
  | _ => false
  end.

(** ** Sample inputs *)

Definition NL : string := String newline "".

Definition posAt (file : string) (line : Z) : Position :=
  {| Filename := file; Offset := 0; Line := line; Column := 1 |}.

(** A source file of five lines: a marker alone on line 2, a marker at
    the end of line 4. *)
Definition sampleFile : string :=
  "package main" +:+ NL +:+ "  //nolint:safesql" +:+ NL +:+ "db.Query(q)"
  +:+ NL +:+ "db.Query(r) //nolint:safesql" +:+ NL +:+ "db.Query(s)".

(** The same file with its first and last lines rewritten. *)
Definition sampleFileEdited : string :=
  "package other" +:+ NL +:+ "  //nolint:safesql" +:+ NL +:+ "db.Query(q)"
  +:+ NL +:+ "db.Query(r) //nolint:safesql" +:+ NL +:+ "db.Exec(s)"
  +:+ NL +:+ "// end".

(** A file whose first line holds the marker followed by a remark. *)
Definition remarkFile : string :=
  "//nolint:safesql reviewed by the team" +:+ NL +:+ "db.Query(q)".

(** A file whose only line is the marker. *)
Definition markerFile : string := "//nolint:safesql".

Definition sampleFS : FileSystem := λ file,
  if String.eqb file "main.go" then Some sampleFile
  else if String.eqb file "marker.go" then Some markerFile
  else if String.eqb file "remark.go" then Some remarkFile
  else None.

Definition sampleFSEdited : FileSystem := λ file,
  if String.eqb file "main.go" then Some sampleFileEdited else None.

Definition sampleLines : list Position :=
  [posAt "main.go" 5; posAt "main.go" 3; posAt "main.go" 4; posAt "main.go" 1].

Definition sampleIssues : list Issue :=
  [{| statement := posAt "main.go" 1; ignored := false |};
   {| statement := posAt "main.go" 3; ignored := true |};
   {| statement := posAt "main.go" 4; ignored := true |};
   {| statement := posAt "main.go" 5; ignored := false |}].

(** A package in the manner of [database/sql]: the exported type [DB]
    with the methods [Close], [Exec], [QueryContext], [Rebind] and the
    unexported [exec]; the unexported type [driverConn]; a constant. *)
Definition stringVar (name : string) : types.Var :=
  {| types.Name := name; types.VarType := types.Typ types.KString |}.

Definition otherVar (name : string) : types.Var :=
  {| types.Name := name; types.VarType := types.Interface |}.

Definition method (name : string) (exported : bool) (params : list types.Var)
    : types.Func :=
  {| types.Func_Name := name; types.Func_Exported := exported;
     types.Func_Type := {| types.Recv := Some (otherVar "db");
                           types.Params := params |} |}.

Definition mClose : types.Func := method "Close" true [].
Definition mExec : types.Func :=
  method "Exec" true [stringVar "query"; otherVar "args"].
Definition mQueryContext : types.Func :=
  method "QueryContext" true [otherVar "ctx"; otherVar "query"; otherVar "args"].
Definition mRebind : types.Func :=
  method "Rebind" true [otherVar "bindType"; stringVar "sql"; stringVar "query"].
Definition mexec : types.Func := method "exec" false [stringVar "query"].

Definition samplePackage : types.Package :=
  {| types.Path := "github.com/jinzhu/gorm";
     types.PkgScope :=
       [("DB", {| types.Exported := true; types.Kind := types.TypeName;
                  types.TypeOf := types.NamedType
                    {| types.Named_Name := "DB";
                       types.Methods :=
                         [mClose; mExec; mQueryContext; mRebind; mexec] |} |});
        ("ErrNoRows", {| types.Exported := true; types.Kind := types.VarObj;
                         types.TypeOf := types.OtherType types.Interface |});
        ("driverConn", {| types.Exported := false; types.Kind := types.TypeName;
                          types.TypeOf := types.NamedType
                            {| types.Named_Name := "driverConn";
                               types.Methods := [mExec] |} |})] |}.

Definition gormCatalog : sqlPackage :=
  {| packageName := "github.com/jinzhu/gorm"; paramNames := ["sql"; "query"];
     enable := true |}.

(** An SSA program in which no method has a body on record. *)
Definition noBodies : ssa.Program := {| ssa.FuncValue := λ _, None |}.

Definition sampleSinks : list QueryMethod :=
  [{| Func := mExec; SSA := None; ArgCount := 2; Param := 0 |};
   {| Func := mQueryContext; SSA := None; ArgCount := 3; Param := 1 |};
   {| Func := mRebind; SSA := None; ArgCount := 3; Param := 1 |}].

(** Functions of a program that uses [database/sql]: two tracked
    methods, a helper of the driver package, a handler of the program. *)
Definition fnQuery : ssa.Function :=
  {| ssa.Fn_addr := 1; ssa.Pkg := Some "database/sql" |}.
Definition fnQueryRow : ssa.Function :=
  {| ssa.Fn_addr := 2; ssa.Pkg := Some "database/sql" |}.
Definition fnPrepare : ssa.Function :=
  {| ssa.Fn_addr := 3; ssa.Pkg := Some "database/sql" |}.
Definition fnHandler : ssa.Function :=
  {| ssa.Fn_addr := 10; ssa.Pkg := Some "example.com/app" |}.

Definition sinkQuery : QueryMethod :=
  {| Func := mExec; SSA := Some fnQuery; ArgCount := 2; Param := 0 |}.
Definition sinkQueryRow : QueryMethod :=
  {| Func := mExec; SSA := Some fnQueryRow; ArgCount := 2; Param := 0 |}.

Definition tString : types.GoType := types.Typ types.KString.

Definition vReceiver : ssa.Value :=
  ssa.InstrVal 1 (types.Pointer (types.Defined "DB" types.Interface)) [2]%positive.
Definition vRest : ssa.Value := ssa.Const (types.Slice types.Interface) "nil".
Definition vLiteral : ssa.Value := ssa.Const tString "SELECT 1".
Definition vConcat : ssa.Value := ssa.InstrVal 7 tString [8]%positive.
Definition vBoxedLiteral : ssa.Value :=
  ssa.MakeInterface 9 types.Interface (ssa.Const tString "name = ?") [10]%positive.
Definition vBoxedParam : ssa.Value :=
  ssa.MakeInterface 11 types.Interface
    (ssa.FuncParam "q" tString [11]%positive) [12]%positive.
Definition vBoxedPointer : ssa.Value :=
  ssa.MakeInterface 13 types.Interface
    (ssa.InstrVal 14 (types.Pointer types.Interface) [13]%positive) [15]%positive.

Definition callAt (parent : ssa.Function) (line : Z) (args : list ssa.Value)
    : ssa.CallInstruction :=
  {| ssa.Parent := parent; ssa.Args := args; ssa.Pos := posAt "main.go" line |}.

Definition edgeFrom (caller : ssa.Function) (line : Z) (args : list ssa.Value)
    : callgraph.Edge :=
  {| callgraph.Caller := caller; callgraph.Site := callAt caller line args |}.

Definition edgeLiteral : callgraph.Edge :=
  edgeFrom fnHandler 1 [vReceiver; vLiteral; vRest].
Definition edgeConcat : callgraph.Edge :=
  edgeFrom fnHandler 3 [vReceiver; vConcat; vRest].
Definition edgeFromSink : callgraph.Edge :=
  edgeFrom fnQueryRow 4
    [vReceiver; ssa.FuncParam "query" tString [3]%positive; vRest].
Definition edgeFromDriver : callgraph.Edge :=
  edgeFrom fnPrepare 5
    [vReceiver; ssa.FuncParam "query" tString [4]%positive; vRest].
Definition edgeBoxedLiteral : callgraph.Edge :=
  edgeFrom fnHandler 6 [vBoxedLiteral; vRest].
Definition edgeBoxedParam : callgraph.Edge :=
  edgeFrom fnHandler 7 [vBoxedParam; vRest].
Definition edgeBoxedPointer : callgraph.Edge :=
  edgeFrom fnHandler 8 [vBoxedPointer; vRest].
Definition edgeShort : callgraph.Edge := edgeFrom fnHandler 9 [vConcat].

Definition graphOf (nodes : list (ssa.Function * list callgraph.Edge))
    : callgraph.Graph :=
  {| callgraph.Nodes :=
       list_to_map
         ((λ n, (Some n.1, {| callgraph.Func := Some n.1;
                              callgraph.In := n.2 |})) <$> nodes) |}.

(** [Where] of gorm takes its [query] as an empty interface. *)
Definition fnWhere : ssa.Function :=
  {| ssa.Fn_addr := 5; ssa.Pkg := Some "github.com/jinzhu/gorm" |}.
Definition sinkWhere : QueryMethod :=
  {| Func := method "Where" true [otherVar "query"; otherVar "args"];
     SSA := Some fnWhere; ArgCount := 2; Param := 0 |}.

Definition sampleMethods : list QueryMethod :=
  [sinkQuery; sinkQueryRow; sinkWhere].

Definition sampleGraph : callgraph.Graph :=
  graphOf [(fnQuery, [edgeLiteral; edgeConcat; edgeFromSink; edgeFromDriver]);
           (fnWhere, [edgeBoxedLiteral; edgeBoxedParam; edgeBoxedPointer])].

Definition brokenGraph : callgraph.Graph :=
  graphOf [(fnQuery, [edgeLiteral; edgeShort])].

(** A graph without synthetic nodes: nothing to delete. *)
Definition noSynthetic (cg : callgraph.Graph) : callgraph.Graph := cg.

(** Two tracked methods with the same parameter types, the sensitive one
    first in [fnA] and second in [fnB], reached from one call through an
    interface. *)
Definition fnA : ssa.Function :=
  {| ssa.Fn_addr := 31; ssa.Pkg := Some "github.com/jinzhu/gorm" |}.
Definition fnB : ssa.Function :=
  {| ssa.Fn_addr := 32; ssa.Pkg := Some "github.com/jinzhu/gorm" |}.
Definition sinkA : QueryMethod :=
  {| Func := method "Run" true [stringVar "query"; stringVar "name"];
     SSA := Some fnA; ArgCount := 2; Param := 0 |}.
Definition sinkB : QueryMethod :=
  {| Func := method "Run" true [stringVar "name"; stringVar "query"];
     SSA := Some fnB; ArgCount := 2; Param := 1 |}.
Definition edgeShared : callgraph.Edge :=
  edgeFrom fnHandler 12 [vConcat; vLiteral].
Definition sharedGraph : callgraph.Graph :=
  graphOf [(fnA, [edgeShared]); (fnB, [edgeShared])].

(** The connection-pool wrapper of pgx, in package [pgxpool], passing its
    parameter [sql] on to the tracked [Query] of package [pgx]. *)
Definition fnPgxQuery : ssa.Function :=
  {| ssa.Fn_addr := 41; ssa.Pkg := Some "github.com/jackc/pgx/v4" |}.
Definition fnPoolQuery : ssa.Function :=
  {| ssa.Fn_addr := 42; ssa.Pkg := Some "github.com/jackc/pgx/v4/pgxpool" |}.
Definition sinkPgxQuery : QueryMethod :=
  {| Func := method "Query" true [otherVar "ctx"; stringVar "sql"; otherVar "args"];
     SSA := Some fnPgxQuery; ArgCount := 3; Param := 1 |}.
Definition poolFile : string :=
  "/go/pkg/mod/github.com/jackc/pgx/v4/pgxpool/conn.go".
Definition sitePool : ssa.CallInstruction :=
  {| ssa.Parent := fnPoolQuery;
     ssa.Args := [vReceiver; ssa.FuncParam "ctx" types.Interface [20]%positive;
                  ssa.FuncParam "sql" tString [20]%positive; vRest];
     ssa.Pos := posAt poolFile 2 |}.
Definition edgePool : callgraph.Edge :=
  {| callgraph.Caller := fnPoolQuery; callgraph.Site := sitePool |}.
Definition poolGraph : callgraph.Graph := graphOf [(fnPgxQuery, [edgePool])].
Definition poolFS : FileSystem := λ file,
  if String.eqb file poolFile
  then Some ("func (c *Conn) Query(ctx, sql, args) {" +:+ NL
             +:+ "  return c.Conn().Query(ctx, sql, args...)" +:+ NL +:+ "}")
  else None.

(** ** The detector, edge by edge *)

(** Whether the loop body appends the site of [edge] for the method [m]. *)
Definition flagsEdge (okFuncs : gset (option ssa.Function)) (m : QueryMethod)
    (edge : callgraph.Edge) : bool :=
  match visitEdge okFuncs m [] edge with
  | Ok (_ :: _) => true
  | _ => false
  end.

(** The sites flagged at the edges [edges] into the node of [m], in the
    order of the edges. *)
Definition flaggedSites (okFuncs : gset (option ssa.Function)) (m : QueryMethod)
    (edges : list callgraph.Edge) : list ssa.CallInstruction :=
  callgraph.Site <$> filter (λ edge, flagsEdge okFuncs m edge = true) edges.

(** ** The order of the issues *)

(** [a] may come before [b] in the report: in one file, lines ascend. *)
Definition ascendingInFile (a b : Position) : Prop :=
  Filename a = Filename b → Line a ≤ Line b.

(** ** Package [loader] and the built SSA program *)

Module loader.

(** [*loader.PackageInfo] *)
Record PackageInfo : Type := {
  Pkg : types.Package;
  Importable : bool
}.

(** [*loader.Program]: the values of the map [AllPackages] (keyed by
    [info.Pkg]; a range over it visits them in an order Go leaves open),
    the result of [InitialPackages()] and the method [Package(path)], nil
    for a path that was not loaded. *)
Record Program : Type := {
  AllPackages : list PackageInfo;
  InitialPackages : list PackageInfo;
  Package : string → option PackageInfo
}.

End loader.

Module ssautil.

(** [*ssa.Package]: [Func(name)] is nil when the package has no such
    function. *)
Record Package : Type := {
  Pkg : types.Package;
  Func : string → option ssa.Function
}.

(** The [*ssa.Program] of [ssautil.CreateProgram], built: the part
    [FindQueryMethods] uses and the method [Package], nil for a package
    without SSA form. *)
Record Program : Type := {
  Prog : ssa.Program;
  PackageOf : types.Package → option Package
}.

End ssautil.

(** ** The helpers of [main] *)

(** Loop of [FindMains] over the initial packages. *)
Fixpoint FindMains_go (s : ssautil.Program) (ips : list loader.PackageInfo)
    (mains : list ssautil.Package) : result (list ssautil.Package) :=
  match ips with
  | [] => Ok mains
  | info :: rest =>
    match ssautil.PackageOf s (loader.Pkg info) with
    | None => Panic "nil pointer dereference"
    | Some ssaPkg =>
      match ssautil.Func ssaPkg "main" with
      | Some _ => FindMains_go s rest (mains ++ [ssaPkg])
      | None => FindMains_go s rest mains
      end
    end
  end.

Definition FindMains (p : loader.Program) (s : ssautil.Program)
    : result (list ssautil.Package) :=
  let ips := loader.InitialPackages p in
  FindMains_go s ips [].

(** [getImports]: the map used as a set of package paths. *)
Definition getImports (p : loader.Program) : gset string :=
  foldl (λ pkgs pkg,
           if loader.Importable pkg
           then {[ types.Path (loader.Pkg pkg) ]} ∪ pkgs
           else pkgs)
        ∅ (loader.AllPackages p).

(** ** [main] *)

(** What [main] prints: a constructor for each message (the three lines
    of advice are one), with the values it formats. *)
Inductive Message : Type :=
  | Usage
  | LoadError (pkgs : list string) (err : string)
  | EnablingSupport (name : string)
  | NoSupportedDriver (pkgs : list string)
  | DriverFunctionsHeader
  | DriverFunction (m : QueryMethod)
  | BlankLine
  | NoCommands
  | AnalysisError (err : string)
  | Safe
  | FoundCount (n : Z)
  | CheckError (err : string)
  | Advice
  | IgnoredStatement (p : Position)
  | UnsafeStatement (p : Position).

(** How the process ends: [os.Exit(code)] (a return from [main] is exit
    code 0) or a panic. *)
Inductive Outcome : Type :=
  | Exited (code : Z)
  | Panicked (msg : string).

(** What [main] works with and does not define itself. *)
Record Collaborators : Type := {
  (** [c.Load()] after [c.Import] of every argument. *)
  Load : list string → result loader.Program;
  (** [ssautil.CreateProgram(p, 0)] followed by [s.Build()]. *)
  CreateProgram : loader.Program → ssautil.Program;
  (** [pointer.Analyze]: [res.CallGraph], or the error. *)
  Analyze : list ssautil.Package → result callgraph.Graph;
  DeleteSynthetic : callgraph.Graph → callgraph.Graph;
  Files : FileSystem
}.

(** The loop that sets [enable] on the catalog entries the program
    imports; [existOne] and the verbose lines with it. *)
Fixpoint enableDrivers (verbose : bool) (imports : gset string)
    (catalog : list sqlPackage) (existOne : bool) (out : list Message)
    : list sqlPackage * bool * list Message :=
  match catalog with
  | [] => ([], existOne, out)
  | pkg :: rest =>
    if bool_decide (packageName pkg ∈ imports) then
      let out' := if verbose then out ++ [EnablingSupport (packageName pkg)]
                  else out in
      let '(rest', existOne', out'') :=
        enableDrivers verbose imports rest true out' in
      ({| packageName := packageName pkg; paramNames := paramNames pkg;
          enable := true |} :: rest', existOne', out'')
    else
      let '(rest', existOne', out') :=
        enableDrivers verbose imports rest existOne out in
      (pkg :: rest', existOne', out')
  end.

(** The loop that gathers the tracked methods of the enabled entries. *)
Fixpoint collectQueryMethods (p : loader.Program) (s : ssautil.Program)
    (catalog : list sqlPackage) (qms : list QueryMethod)
    : result (list QueryMethod) :=
  match catalog with
  | [] => Ok qms
  | pkg :: rest =>
    if enable pkg then
      match loader.Package p (packageName pkg) with
      | None => Panic "nil pointer dereference"
      | Some info =>
        found ← FindQueryMethods pkg (loader.Pkg info) (ssautil.Prog s);
        collectQueryMethods p s rest (qms ++ found)
      end
    else collectQueryMethods p s rest qms
  end.

(** The loop over the issues at the end of [main]. *)
Fixpoint reportIssues (issues : list Issue) (out : list Message)
    (hasNonIgnoredUnsafeStatement : bool) : list Message * bool :=
  match issues with
  | [] => (out, hasNonIgnoredUnsafeStatement)
  | issue :: rest =>
    if ignored issue
    then reportIssues rest (out ++ [IgnoredStatement (statement issue)])
           hasNonIgnoredUnsafeStatement
    else reportIssues rest (out ++ [UnsafeStatement (statement issue)]) true
  end.

(** Where the first part of [main] leaves off: at an exit or a panic, or
    with the call sites to check. *)
Inductive Stage : Type :=
  | Stop (o : Outcome)
  | Check (bad : list ssa.CallInstruction).

(** [main] up to the call of [CheckIssues]. *)
Definition mainDetect (env : Collaborators) (verbose quiet : bool)
    (pkgs : list string) : list Message * Stage :=
  if len pkgs =? 0 then ([Usage], Stop (Exited 2))
  else
    match Load env pkgs with
    | Panic msg => ([], Stop (Panicked msg))
    | Err err => ([LoadError pkgs err], Stop (Exited 2))
    | Ok p =>
      let imports := getImports p in
      let '(catalog, existOne, out) :=
        enableDrivers verbose imports sqlPackages false [] in
      if negb existOne then (out ++ [NoSupportedDriver pkgs], Stop (Exited 2))
      else
        let s := CreateProgram env p in
        match collectQueryMethods p s catalog [] with
        | Panic msg | Err msg => (out, Stop (Panicked msg))
        | Ok qms =>
          let out :=
            if verbose
            then out ++ [DriverFunctionsHeader] ++ (DriverFunction <$> qms)
                     ++ [BlankLine]
            else out in
          match FindMains p s with
          | Panic msg | Err msg => (out, Stop (Panicked msg))
          | Ok mains =>
            if len mains =? 0 then (out ++ [NoCommands], Stop (Exited 2))
            else
              match Analyze env mains with
              | Panic msg => (out, Stop (Panicked msg))
              | Err err => (out ++ [AnalysisError err], Stop (Exited 2))
              | Ok cg =>
                match FindNonConstCalls (DeleteSynthetic env) cg qms with
                | Panic msg | Err msg => (out, Stop (Panicked msg))
                | Ok bad =>
                  if len bad =? 0
                  then (if quiet then out else out ++ [Safe], Stop (Exited 0))
                  else ((if verbose then out ++ [FoundCount (len bad)]
                         else out), Check bad)
                end
              end
          end
        end
    end.

(** [main] from the result of [CheckIssues] on. *)
Definition mainReport (verbose : bool) (out : list Message)
    (checked : result (list Issue)) : list Message * Outcome :=
  match checked with
  | Panic msg => (out, Panicked msg)
  | Err err => (out ++ [CheckError err], Exited 2)
  | Ok issues =>
    let out := if verbose then out ++ [Advice] else out in
    let '(out, hasNonIgnoredUnsafeStatement) := reportIssues issues out false in
    if hasNonIgnoredUnsafeStatement then (out, Exited 1) else (out, Exited 0)
  end.

(** [main env verbose quiet pkgs (out, o)]: a run of the command with
    the flags [-v], [-q] and the arguments [pkgs] may print [out] and end
    in [o]. *)
Inductive main (env : Collaborators) (verbose quiet : bool)
    (pkgs : list string) : list Message * Outcome → Prop :=
  | main_stops out o :
      mainDetect env verbose quiet pkgs = (out, Stop o) →
      main env verbose quiet pkgs (out, o)
  | main_checks out bad checked :
      mainDetect env verbose quiet pkgs = (out, Check bad) →
      CheckIssues (Files env) (positionsOf bad) checked →
      main env verbose quiet pkgs (mainReport verbose out checked).

(** The line [main] prints for an issue. *)
Definition statementLine (issue : Issue) : Message :=
  if ignored issue then IgnoredStatement (statement issue)
  else UnsafeStatement (statement issue).

(** The SSA package [FindMains] keeps for an initial package, if any. *)
Definition mainOf (s : ssautil.Program) (info : loader.PackageInfo)
    : option ssautil.Package :=
  match ssautil.PackageOf s (loader.Pkg info) with
  | Some ssaPkg =>
    match ssautil.Func ssaPkg "main" with
    | Some _ => Some ssaPkg
    | None => None
    end
  | None => None
  end.

(** The catalog entry after the enabling loop of [main]. *)
Definition enabledEntry (imports : gset string) (pkg : sqlPackage) : sqlPackage :=
  if bool_decide (packageName pkg ∈ imports)
  then {| packageName := packageName pkg; paramNames := paramNames pkg;
          enable := true |}
  else pkg.

(** The position a printed line reports, for the lines about statements. *)
Definition linePosition (msg : Message) : option Position :=
  match msg with
  | IgnoredStatement p | UnsafeStatement p => Some p
  | _ => None
  end.

(** A string of ASCII white space only (indentation, a carriage return
    before the line feed, ...). *)
Fixpoint whiteOnly (s : string) : bool :=
  match s with
  | EmptyString => true
  | String c r => asciiSpace c && whiteOnly r
  end.

(** One run of [main], computed: the computed run of [CheckIssues]. *)
Definition mainExec (env : Collaborators) (verbose quiet : bool)
    (pkgs : list string) : list Message * Outcome :=
  match mainDetect env verbose quiet pkgs with
  | (out, Stop o) => (out, o)
  | (out, Check bad) =>
    mainReport verbose out (CheckIssues_exec (Files env) (positionsOf bad))
  end.

(** A program that imports the sample driver package: its command
    [example.com/app], whose handler calls [Exec] three times. *)
Definition appPackage : types.Package :=
  {| types.Path := "example.com/app"; types.PkgScope := [] |}.
Definition infoApp : loader.PackageInfo :=
  {| loader.Pkg := appPackage; loader.Importable := false |}.
Definition infoDriver : loader.PackageInfo :=
  {| loader.Pkg := samplePackage; loader.Importable := true |}.

Definition sampleProgram : loader.Program :=
  {| loader.AllPackages := [infoApp; infoDriver];
     loader.InitialPackages := [infoApp];
     loader.Package := λ path,
       if String.eqb path "github.com/jinzhu/gorm" then Some infoDriver
       else if String.eqb path "example.com/app" then Some infoApp
       else None |}.

Definition sampleBuilt : ssautil.Program :=
  {| ssautil.Prog :=
       {| ssa.FuncValue := λ m,
            if String.eqb (types.Func_Name m) "Exec" then Some fnWhere
            else None |};
     ssautil.PackageOf := λ pkg,
       Some {| ssautil.Pkg := pkg;
               ssautil.Func := λ name,
                 if String.eqb (types.Path pkg) "example.com/app"
                    && String.eqb name "main"
                 then Some fnHandler else None |} |}.

Definition edgePlain : callgraph.Edge := edgeFrom fnHandler 3 [vConcat; vRest].

Definition appGraph : callgraph.Graph :=
  graphOf [(fnWhere, [edgeBoxedLiteral; edgeBoxedParam; edgePlain])].

(** [main.go] of the command: the call on line 7 follows a marker line. *)
Definition appFile : string :=
  "package main" +:+ NL +:+ "func handler(q string) {" +:+ NL
  +:+ "  db.Exec(prefix + q)" +:+ NL +:+ "" +:+ NL +:+ "" +:+ NL
  +:+ "  //nolint:safesql" +:+ NL +:+ "  db.Exec(q)" +:+ NL +:+ "}".

Definition appEnv : Collaborators :=
  {| Load := λ _, Ok sampleProgram;
     CreateProgram := λ _, sampleBuilt;
     Analyze := λ _, Ok appGraph;
     DeleteSynthetic := noSynthetic;
     Files := λ file, if String.eqb file "main.go" then Some appFile else None |}.

(** The same command loaded without any catalog package among its
    imports. *)
Definition bareEnv : Collaborators :=
  {| Load := λ _, Ok {| loader.AllPackages := [infoApp];
                        loader.InitialPackages := [infoApp];
                        loader.Package := λ _, None |};
     CreateProgram := λ _, sampleBuilt;
     Analyze := λ _, Ok appGraph;
     DeleteSynthetic := noSynthetic;
     Files := λ _, None |}.

(** * Properties *)

(** ** Integers, slices, outcomes *)

Lemma wrap_in_range z : GoInt.in_range z → GoInt.wrap z = z.
Proof.
  unfold GoInt.in_range, GoInt.wrap, GoInt.min_int, GoInt.max_int.
  intros Hz. rewrite Z.mod_small; lia.
Qed.

Lemma elemAt_Ok {A} (s : list A) i x :
  elemAt s i = Ok x ↔ 0 ≤ i ∧ s !! Z.to_nat i = Some x.
Proof.
  unfold elemAt. destruct (Z.ltb_spec i 0).
  - split; [done | lia].
  - destruct (s !! Z.to_nat i) as [y|]; split.
    + intros [= ->]. split; [lia | done].
    + by intros [_ [= ->]].
    + done.
    + by intros [_ [=]].
Qed.

Lemma elemAt_Panic {A} (s : list A) i :
  is_Panic (elemAt s i) ↔ i < 0 ∨ len s ≤ i.
Proof.
  unfold elemAt, is_Panic, len. destruct (Z.ltb_spec i 0).
  - split; [lia | eauto].
  - destruct (s !! Z.to_nat i) eqn:E.
    + apply lookup_lt_Some in E. split; [intros [? [=]] | lia].
    + apply lookup_ge_None in E. split; [lia | eauto].
Qed.

Lemma elemAt_not_Err {A} (s : list A) i e : elemAt s i ≠ Err e.
Proof. unfold elemAt. repeat case_match; done. Qed.

Lemma is_Ok_not_Panic {A} (r : result A) : is_Ok r → ¬ is_Panic r.
Proof. intros [a ->] [msg ?]. done. Qed.

(** ** One position *)

Lemma sourceLine_elemAt fileLines n s :
  sourceLine fileLines n = Some s ↔ elemAt fileLines (n - 1) = Ok s.
Proof.
  rewrite elemAt_Ok. unfold sourceLine.
  destruct (Z.ltb_spec n 1); split; [done | lia | |].
  - intros Hs. split; [lia | done].
  - by intros [_ Hs].
Qed.

Lemma sourceLine_is_Some fileLines n :
  is_Some (sourceLine fileLines n) ↔ 1 ≤ n ≤ len fileLines.
Proof.
  unfold sourceLine, len. destruct (Z.ltb_spec n 1).
  - split; [intros [? ?]; done | lia].
  - rewrite lookup_lt_is_Some. lia.
Qed.

Lemma checkLine_statement fileIgnored fileLines p iss :
  checkLine fileIgnored fileLines p = Ok iss → statement iss = p.
Proof.
  unfold checkLine. intros H.
  repeat (case_match; simplify_eq/=); try done;
    repeat match goal with
           | H : context [elemAt ?l ?i] |- _ => destruct (elemAt l i); simplify_eq/=
           end; try done; repeat (case_match; simplify_eq/=); done.
Qed.

(** The outcome of the loop body, by the two rules. *)
Lemma checkLine_Ok fileIgnored fileLines p iss :
  validLine p →
  checkLine fileIgnored fileLines p = Ok iss ↔
    (previousMarked fileLines p = true
     ∧ iss = {| statement := p; ignored := true |})
    ∨ (previousMarked fileLines p = false
       ∧ is_Some (sourceLine fileLines (Line p))
       ∧ iss = {| statement := p;
                  ignored := ownMarked fileLines p || fileIgnored |}).
Proof.
  intros [Hlo Hhi]. unfold checkLine, GoInt.sub.
  rewrite !wrap_in_range
    by (unfold GoInt.in_range, GoInt.min_int, GoInt.max_int in *; lia).
  unfold previousMarked, ownMarked.
  destruct (Z.leb_spec 0 (Line p - 2)) as [H2|H2].
  - destruct (sourceLine fileLines (Line p - 1)) as [s|] eqn:Eprev.
    + apply sourceLine_elemAt in Eprev.
      replace (Line p - 1 - 1) with (Line p - 2) in Eprev by lia.
      rewrite Eprev. simpl. destruct (BeginsWithComment s) eqn:Eb.
      * split; [intros [= <-]; by left|].
        intros [[_ ->]|(? & _)]; [done | congruence].
      * destruct (sourceLine fileLines (Line p)) as [s'|] eqn:Eown.
        -- apply sourceLine_elemAt in Eown. rewrite Eown. simpl.
           split; [intros [= <-]; right; eauto|].
           intros [[? _]|(_ & _ & ->)]; [congruence | done].
        -- destruct (elemAt fileLines (Line p - 1)) as [s'| |] eqn:E; simpl.
           ++ apply sourceLine_elemAt in E. congruence.
           ++ split; [done | intros [[? ?]|(_ & [? ?] & _)]; done].
           ++ split; [done | intros [[? ?]|(_ & [? ?] & _)]; done].
    + assert (is_Panic (elemAt fileLines (Line p - 2))) as [msg ->].
      { apply elemAt_Panic. right.
        destruct (decide (len fileLines ≤ Line p - 2)) as [|Hn]; [done|].
        assert (is_Some (sourceLine fileLines (Line p - 1))) as [? ?]
          by (apply sourceLine_is_Some; lia).
        congruence. }
      simpl. split; [done|]. intros [[? ?]|(_ & Hs & _)]; [done|].
      apply sourceLine_is_Some in Hs.
      assert (is_Some (sourceLine fileLines (Line p - 1))) as [? ?]
        by (apply sourceLine_is_Some; lia).
      congruence.
  - assert (sourceLine fileLines (Line p - 1) = None) as ->.
    { destruct (sourceLine fileLines (Line p - 1)) eqn:E; [|done].
      assert (is_Some (sourceLine fileLines (Line p - 1))) as Hs by eauto.
      apply sourceLine_is_Some in Hs.
      assert (Line p = 1) as Hl by lia. rewrite Hl in E. done. }
    simpl. destruct (sourceLine fileLines (Line p)) as [s'|] eqn:Eown.
    + apply sourceLine_elemAt in Eown. rewrite Eown. simpl.
      split; [intros [= <-]; right; eauto|].
      intros [[? _]|(_ & _ & ->)]; [congruence | done].
    + destruct (elemAt fileLines (Line p - 1)) as [s'| |] eqn:E; simpl.
      * apply sourceLine_elemAt in E. congruence.
      * split; [done | intros [[? ?]|(_ & [? ?] & _)]; done].
      * split; [done | intros [[? ?]|(_ & [? ?] & _)]; done].
Qed.

Lemma checkLine_not_Err fileIgnored fileLines p e :
  checkLine fileIgnored fileLines p ≠ Err e.
Proof.
  unfold checkLine. intros H.
  destruct (0 <=? GoInt.sub (Line p) 2).
  - destruct (elemAt fileLines (GoInt.sub (Line p) 2)) as [s| |] eqn:E1;
      simpl in H; [|by apply elemAt_not_Err in E1|done].
    destruct (BeginsWithComment s); [done|].
    destruct (elemAt fileLines (GoInt.sub (Line p) 1)) eqn:E2;
      simpl in H; [done|by apply elemAt_not_Err in E2|done].
  - simpl in H.
    destruct (elemAt fileLines (GoInt.sub (Line p) 1)) eqn:E2;
      simpl in H; [done|by apply elemAt_not_Err in E2|done].
Qed.

(** ** The loops of [CheckIssues] *)

Lemma checkLines_Ok fileIgnored fileLines ls acc out :
  checkLines fileIgnored fileLines ls acc = Ok out ↔
  ∃ res, Forall2 (λ p iss, checkLine fileIgnored fileLines p = Ok iss) ls res
         ∧ out = acc ++ res.
Proof.
  revert acc out. induction ls as [|p ls IH]; intros acc out; simpl.
  - split.
    + intros [= <-]. exists []. split; [constructor | by rewrite app_nil_r].
    + intros (res & H & ->). apply Forall2_nil_inv_l in H as ->.
      by rewrite app_nil_r.
  - destruct (checkLine fileIgnored fileLines p) as [iss| |] eqn:E; simpl.
    + rewrite IH. split.
      * intros (res & H & ->). exists (iss :: res).
        split; [by constructor | by rewrite <- app_assoc].
      * intros (res & H & ->).
        apply Forall2_cons_inv_l in H as (iss' & res' & ? & ? & ->).
        assert (iss' = iss) as -> by congruence.
        exists res'. split; [done|]. by rewrite <- app_assoc.
    + split; [done|]. intros (res & H & _).
      apply Forall2_cons_inv_l in H as (? & ? & ? & _). congruence.
    + split; [done|]. intros (res & H & _).
      apply Forall2_cons_inv_l in H as (? & ? & ? & _). congruence.
Qed.

Lemma checkLines_not_Err fileIgnored fileLines ls acc e :
  checkLines fileIgnored fileLines ls acc ≠ Err e.
Proof.
  revert acc. induction ls as [|p ls IH]; intros acc; simpl; [done|].
  destruct (checkLine fileIgnored fileLines p) eqn:E; simpl;
    [apply IH | by apply checkLine_not_Err in E | done].
Qed.

Lemma checkFiles_Ok fs vs acc out :
  checkFiles fs vs acc = Ok out ↔
  ∃ ress, Forall2 (fileIssues fs) vs ress ∧ out = acc ++ concat ress.
Proof.
  revert acc out. induction vs as [|[file ls] vs IH]; intros acc out; simpl.
  - split.
    + intros [= <-]. exists []. split; [constructor | by rewrite app_nil_r].
    + intros (ress & H & ->). apply Forall2_nil_inv_l in H as ->.
      by rewrite app_nil_r.
  - unfold checkFile, ReadFile. destruct (fs file) as [data|] eqn:Efs; simpl.
    + destruct (checkLines (fileIsIgnored file) (Split data newline) ls acc)
        as [out'| |] eqn:E; simpl.
      * rewrite IH. split.
        -- intros (ress & H & ->).
           apply checkLines_Ok in E as (res & Hres & ->).
           exists (res :: ress). split.
           ++ constructor; [|done]. by exists data.
           ++ simpl. by rewrite <- app_assoc.
        -- intros (ress & H & ->).
           apply Forall2_cons_inv_l in H as (res' & ress' & Hf & ? & ->).
           destruct Hf as (data' & Hd & Hf). simpl in Hd, Hf.
           assert (data' = data) as -> by congruence.
           assert (checkLines (fileIsIgnored file) (Split data newline) ls acc
                   = Ok (acc ++ res')) as E' by (apply checkLines_Ok; eauto).
           assert (out' = acc ++ res') as -> by congruence.
           exists ress'. split; [done|]. simpl. by rewrite <- app_assoc.
      * split; [done|]. intros (ress & H & _).
        apply Forall2_cons_inv_l in H as (res' & ? & (d' & Hd & Hf) & _).
        simpl in Hd, Hf. assert (d' = data) as -> by congruence.
        assert (checkLines (fileIsIgnored file) (Split data newline) ls acc
                = Ok (acc ++ res')) by (apply checkLines_Ok; eauto).
        congruence.
      * split; [done|]. intros (ress & H & _).
        apply Forall2_cons_inv_l in H as (res' & ? & (d' & Hd & Hf) & _).
        simpl in Hd, Hf. assert (d' = data) as -> by congruence.
        assert (checkLines (fileIsIgnored file) (Split data newline) ls acc
                = Ok (acc ++ res')) by (apply checkLines_Ok; eauto).
        congruence.
    + split; [done|]. intros (ress & H & _).
      apply Forall2_cons_inv_l in H as (? & ? & (d' & Hd & _) & _).
      simpl in *. congruence.
Qed.

Lemma checkFiles_Err fs vs acc e :
  checkFiles fs vs acc = Err e → ∃ v, v ∈ vs ∧ fs v.1 = None.
Proof.
  revert acc. induction vs as [|[file ls] vs IH]; intros acc; simpl; [done|].
  unfold checkFile, ReadFile. destruct (fs file) as [data|] eqn:Efs; simpl.
  - destruct (checkLines (fileIsIgnored file) (Split data newline) ls acc)
      eqn:E; simpl.
    + intros (v & ? & ?)%IH. exists v. split; [by right | done].
    + by apply checkLines_not_Err in E.
    + done.
  - intros _. exists (file, ls). split; [by left | done].
Qed.

(** ** Grouping by file *)

Lemma groupByFile_snoc lines p :
  groupByFile (lines ++ [p]) =
  <[Filename p := default [] (groupByFile lines !! Filename p) ++ [p]]>
    (groupByFile lines).
Proof. unfold groupByFile. by rewrite foldl_app. Qed.

Lemma groupByFile_lookup lines f :
  groupByFile lines !! f =
  match filter (λ p, Filename p = f) lines with
  | [] => None
  | ls => Some ls
  end.
Proof.
  induction lines as [|p lines IH] using rev_ind; [done|].
  rewrite groupByFile_snoc, filter_app, lookup_insert.
  destruct (decide (Filename p = f)) as [Heq|Hne].
  - rewrite Heq, IH, filter_cons_True by done. simpl.
    destruct (filter (λ p, Filename p = f) lines); reflexivity.
  - rewrite filter_cons_False by done. simpl. by rewrite app_nil_r.
Qed.

Lemma groupByFile_Some lines f ls :
  groupByFile lines !! f = Some ls →
  ls = filter (λ p, Filename p = f) lines ∧ ls ≠ [].
Proof.
  rewrite groupByFile_lookup.
  destruct (filter (λ p, Filename p = f) lines); intros [= <-]; done.
Qed.

Lemma groupByFile_elem lines p :
  p ∈ lines → ∃ ls, groupByFile lines !! Filename p = Some ls ∧ p ∈ ls.
Proof.
  intros Hp. rewrite groupByFile_lookup.
  assert (p ∈ filter (λ q, Filename q = Filename p) lines) as Hin
    by (by apply list_elem_of_filter).
  destruct (filter (λ q, Filename q = Filename p) lines) as [|q ls];
    [by apply elem_of_nil in Hin | eauto].
Qed.

Lemma groupByFile_concat lines :
  concat (map_to_list (groupByFile lines)).*2 ≡ₚ lines.
Proof.
  induction lines as [|p lines IH] using rev_ind.
  - unfold groupByFile. simpl. by rewrite map_to_list_empty.
  - rewrite groupByFile_snoc. revert IH.
    generalize (groupByFile lines). intros m IH.
    destruct (m !! Filename p) as [old|] eqn:E; simpl.
    + assert (concat (map_to_list (<[Filename p := old ++ [p]]> m)).*2
              ≡ₚ (old ++ [p]) ++ concat (map_to_list (delete (Filename p) m)).*2)
        as ->.
      { rewrite <- insert_delete_eq.
        by rewrite map_to_list_insert by apply lookup_delete_eq. }
      rewrite <- IH, <- (map_to_list_delete m _ _ E). simpl.
      rewrite <- !app_assoc.
      apply Permutation_app_head, Permutation_app_comm.
    + rewrite map_to_list_insert by done. simpl.
      rewrite IH. apply Permutation_cons_append.
Qed.

(** ** What a run visits *)

Global Instance lineOrder_trans : Transitive lineOrder.
Proof. unfold lineOrder. intros a b c. lia. Qed.
Global Instance lineOrder_total : Total lineOrder.
Proof. unfold lineOrder. intros a b. lia. Qed.

Lemma iteration_visited lines visited v :
  iteration (groupByFile lines) visited → v ∈ visited →
  v.2 ≠ [] ∧ ∀ p, p ∈ v.2 ↔ p ∈ lines ∧ Filename p = v.1.
Proof.
  intros (order & Hperm & Hall) Hv.
  apply list_elem_of_lookup in Hv as [i Hi].
  destruct (Forall2_lookup_r _ _ _ _ _ Hall Hi) as ([f ls] & Hg & Hf & Hp & _).
  simpl in Hf, Hp.
  assert ((f, ls) ∈ map_to_list (groupByFile lines)) as Hin.
  { rewrite <- Hperm. by eapply list_elem_of_lookup_2. }
  apply elem_of_map_to_list, groupByFile_Some in Hin as [-> Hne].
  split.
  - intros Hnil. rewrite Hnil in Hp. by apply Permutation_nil_l in Hp.
  - intros p. rewrite Hp, list_elem_of_filter, Hf.
    split; intros [? ?]; split; congruence.
Qed.

Lemma iteration_covers lines visited p :
  iteration (groupByFile lines) visited → p ∈ lines →
  ∃ v, v ∈ visited ∧ v.1 = Filename p ∧ p ∈ v.2.
Proof.
  intros (order & Hperm & Hall) Hp.
  destruct (groupByFile_elem _ _ Hp) as (ls & Hls & Hin).
  apply elem_of_map_to_list in Hls. rewrite <- Hperm in Hls.
  apply list_elem_of_lookup in Hls as [i Hi].
  destruct (Forall2_lookup_l _ _ _ _ _ Hall Hi) as (v & Hv & Hf & Hs & _).
  exists v. split; [by eapply list_elem_of_lookup_2|]. simpl in *.
  split; [done | by rewrite Hs].
Qed.

Lemma iteration_concat lines visited :
  iteration (groupByFile lines) visited → concat visited.*2 ≡ₚ lines.
Proof.
  intros (order & Hperm & Hall).
  rewrite <- (groupByFile_concat lines), <- Hperm.
  clear Hperm. induction Hall as [|g v order visited [_ [Hp _]] _ IH]; [done|].
  simpl. by rewrite Hp, IH.
Qed.

(** The computed run is one of the runs. *)
Lemma CheckIssues_exec_sound fs lines :
  CheckIssues fs lines (CheckIssues_exec fs lines).
Proof.
  unfold CheckIssues_exec. constructor.
  exists (map_to_list (groupByFile lines)). split; [done|].
  apply Forall2_fmap_r, Forall_Forall2_diag, Forall_forall.
  intros g _. simpl. split; [done|]. split.
  - apply merge_sort_Permutation.
  - apply StronglySorted_merge_sort; apply _.
Qed.

(** ** Runs of [CheckIssues], position by position *)

Lemma verdictOf_in_group fs (v : string * list Position) data p :
  fs v.1 = Some data → Filename p = v.1 →
  verdictOf fs p = checkLine (fileIsIgnored v.1) (Split data newline) p.
Proof.
  intros Hd Hf. unfold verdictOf, ReadFile. rewrite Hf, Hd. done.
Qed.

Lemma fileIssues_elem fs v res iss :
  fileIssues fs v res → (∀ p, p ∈ v.2 → Filename p = v.1) →
  iss ∈ res ↔ ∃ p, p ∈ v.2 ∧ verdictOf fs p = Ok iss.
Proof.
  intros (data & Hd & Hall) Hgroup. split.
  - intros [i Hi]%list_elem_of_lookup.
    destruct (Forall2_lookup_r _ _ _ _ _ Hall Hi) as (p & Hp & Hc).
    apply list_elem_of_lookup_2 in Hp. exists p. split; [done|].
    by rewrite (verdictOf_in_group fs v data) by auto.
  - intros (p & [i Hi]%list_elem_of_lookup & Hv).
    destruct (Forall2_lookup_l _ _ _ _ _ Hall Hi) as (iss' & Hiss & Hc).
    rewrite (verdictOf_in_group fs v data) in Hv
      by eauto using list_elem_of_lookup_2.
    assert (iss' = iss) as -> by congruence.
    by eapply list_elem_of_lookup_2.
Qed.

Lemma fileIssues_statements fs v res :
  fileIssues fs v res → statement <$> res = v.2.
Proof.
  destruct v as [file ls]. intros (data & _ & Hall). simpl in *.
  induction Hall as [|p iss ls res Hc _ IH]; [done|].
  by rewrite fmap_cons, IH, (checkLine_statement _ _ _ _ Hc).
Qed.

Lemma checkFiles_elem fs vs ress iss :
  Forall2 (fileIssues fs) vs ress →
  (∀ v p, v ∈ vs → p ∈ v.2 → Filename p = v.1) →
  iss ∈ concat ress ↔ ∃ v p, v ∈ vs ∧ p ∈ v.2 ∧ verdictOf fs p = Ok iss.
Proof.
  induction 1 as [|v res vs ress Hf _ IH]; intros Hgroup; simpl.
  - split; [by intros ?%elem_of_nil | by intros (? & ? & ?%elem_of_nil & _)].
  - assert (∀ p, p ∈ v.2 → Filename p = v.1) as Hv
      by (intros p Hp; apply Hgroup; [by left | done]).
    assert (∀ v' p, v' ∈ vs → p ∈ v'.2 → Filename p = v'.1) as Hvs
      by (intros v' p Hv' Hp; apply Hgroup; [by right | done]).
    rewrite elem_of_app, (IH Hvs), (fileIssues_elem fs v res iss Hf Hv).
    split.
    + intros [(p & ? & ?)|(v' & p & ? & ? & ?)].
      * exists v, p. split; [by left | done].
      * exists v', p. split; [by right | done].
    + intros (v' & p & [->|?]%elem_of_cons & ? & ?); [left|right]; eauto.
Qed.

Lemma checkFiles_statements fs vs ress :
  Forall2 (fileIssues fs) vs ress → statement <$> concat ress = concat vs.*2.
Proof.
  induction 1 as [|v res vs ress Hf _ IH]; [done|]. simpl.
  by rewrite fmap_app, IH, (fileIssues_statements _ _ _ Hf).
Qed.

(** The issues of a finished run are the verdicts of the positions. *)
Lemma CheckIssues_elem fs lines issues iss :
  CheckIssues fs lines (Ok issues) →
  iss ∈ issues ↔ ∃ p, p ∈ lines ∧ verdictOf fs p = Ok iss.
Proof.
  inversion 1 as [visited Hit Heq].
  apply checkFiles_Ok in Heq as (ress & Hall & ->). simpl.
  rewrite (checkFiles_elem fs visited ress iss Hall).
  - split.
    + intros (v & p & Hv & Hp & ?). exists p. split; [|done].
      by apply (iteration_visited _ _ _ Hit Hv).
    + intros (p & Hp & ?).
      destruct (iteration_covers _ _ _ Hit Hp) as (v & ? & ? & ?). eauto.
  - intros v p Hv Hp. by apply (iteration_visited _ _ _ Hit Hv).
Qed.

Lemma CheckIssues_covers fs lines issues p :
  CheckIssues fs lines (Ok issues) → p ∈ lines →
  ∃ iss, verdictOf fs p = Ok iss ∧ iss ∈ issues.
Proof.
  intros Hrun Hp. inversion Hrun as [visited Hit Heq].
  apply checkFiles_Ok in Heq as (ress & Hall & _).
  destruct (iteration_covers _ _ _ Hit Hp) as (v & Hv & Hf & Hin).
  apply list_elem_of_lookup in Hv as [i Hi].
  destruct (Forall2_lookup_l _ _ _ _ _ Hall Hi) as (res & _ & data & Hd & Hres).
  apply list_elem_of_lookup in Hin as [j Hj].
  destruct (Forall2_lookup_l _ _ _ _ _ Hres Hj) as (iss & _ & Hc).
  assert (verdictOf fs p = Ok iss) as Hv
    by (by rewrite (verdictOf_in_group fs v data)).
  exists iss. split; [done|]. apply (CheckIssues_elem _ _ _ _ Hrun). eauto.
Qed.

Lemma CheckIssues_statements fs lines issues :
  CheckIssues fs lines (Ok issues) → statement <$> issues ≡ₚ lines.
Proof.
  inversion 1 as [visited Hit Heq].
  apply checkFiles_Ok in Heq as (ress & Hall & ->). simpl.
  rewrite (checkFiles_statements _ _ _ Hall). by apply iteration_concat.
Qed.

Lemma checkLines_is_Ok fileIgnored fileLines ls acc :
  (∀ p, p ∈ ls → is_Ok (checkLine fileIgnored fileLines p)) →
  is_Ok (checkLines fileIgnored fileLines ls acc).
Proof.
  revert acc. induction ls as [|p ls IH]; intros acc Hall; simpl; [by eexists|].
  destruct (Hall p) as [iss ->]; [by left|]. simpl.
  apply IH. intros q Hq. apply Hall. by right.
Qed.

Lemma checkFiles_is_Ok fs vs acc :
  (∀ v p, v ∈ vs → p ∈ v.2 → Filename p = v.1 ∧ is_Ok (verdictOf fs p)) →
  (∀ v, v ∈ vs → v.2 ≠ []) →
  is_Ok (checkFiles fs vs acc).
Proof.
  revert acc. induction vs as [|[file ls] vs IH]; intros acc Hall Hne; simpl;
    [by eexists|].
  assert (∃ data, fs file = Some data) as [data Hd].
  { destruct ls as [|p ls]; [by destruct (Hne (file, []) ltac:(by left))|].
    destruct (Hall (file, p :: ls) p) as [Hf [iss Hv]]; [by left..|].
    unfold verdictOf, ReadFile in Hv. simpl in Hf. rewrite Hf in Hv.
    destruct (fs file); [eauto | done]. }
  unfold checkFile, ReadFile. rewrite Hd. simpl.
  destruct (checkLines_is_Ok (fileIsIgnored file) (Split data newline) ls acc)
    as [out ->].
  { intros p Hp. destruct (Hall (file, ls) p) as [Hf Hv]; [by left | done |].
    by rewrite (verdictOf_in_group fs (file, ls) data) in Hv. }
  simpl. apply IH.
  - intros v p Hv. apply Hall. by right.
  - intros v Hv. apply Hne. by right.
Qed.

(** A run finishes exactly when every position has a verdict. *)
Lemma CheckIssues_is_Ok fs lines r :
  CheckIssues fs lines r →
  is_Ok r ↔ ∀ p, p ∈ lines → is_Ok (verdictOf fs p).
Proof.
  intros Hrun. split.
  - intros [issues ->] p Hp.
    destruct (CheckIssues_covers _ _ _ _ Hrun Hp) as (iss & -> & _).
    by eexists.
  - intros Hall. destruct Hrun as [visited Hit]. apply checkFiles_is_Ok.
    + intros v p Hv Hp.
      destruct (iteration_visited _ _ _ Hit Hv) as [_ Hiff].
      apply Hiff in Hp as [Hp Hf]. auto.
    + intros v Hv. by apply (iteration_visited _ _ _ Hit Hv).
Qed.

(** A run returns an error only for an unreadable file of a position. *)
Lemma CheckIssues_Err fs lines e :
  CheckIssues fs lines (Err e) → ∃ p, p ∈ lines ∧ fs (Filename p) = None.
Proof.
  inversion 1 as [visited Hit Heq].
  apply checkFiles_Err in Heq as (v & Hv & Hnone).
  destruct (iteration_visited _ _ _ Hit Hv) as [Hne Hiff].
  destruct (v.2) as [|p ls] eqn:E; [done|].
  destruct (Hiff p) as [Hp _]. destruct Hp as [Hp Hf]; [by left|].
  exists p. by rewrite Hf.
Qed.

Lemma verdictOf_statement fs p iss :
  verdictOf fs p = Ok iss → statement iss = p.
Proof.
  unfold verdictOf, ReadFile. destruct (fs (Filename p)); [|done].
  apply checkLine_statement.
Qed.

(** The bit a finished run attaches to a position is that of its verdict. *)
Lemma CheckIssues_bit fs lines issues p b :
  CheckIssues fs lines (Ok issues) → p ∈ lines →
  {| statement := p; ignored := b |} ∈ issues ↔
  verdictOf fs p = Ok {| statement := p; ignored := b |}.
Proof.
  intros Hrun Hp. rewrite (CheckIssues_elem _ _ _ _ Hrun). split.
  - intros (q & _ & Hq). by rewrite <- (verdictOf_statement _ _ _ Hq) in Hq.
  - eauto.
Qed.

Lemma verdictOf_Ok fs p data iss :
  validLine p → fs (Filename p) = Some data →
  verdictOf fs p = Ok iss ↔
    (previousMarked (Split data newline) p = true
     ∧ iss = {| statement := p; ignored := true |})
    ∨ (previousMarked (Split data newline) p = false
       ∧ is_Some (sourceLine (Split data newline) (Line p))
       ∧ iss = {| statement := p;
                  ignored := ownMarked (Split data newline) p
                             || fileIsIgnored (Filename p) |}).
Proof.
  intros Hv Hd. unfold verdictOf, ReadFile. rewrite Hd. simpl.
  by apply checkLine_Ok.
Qed.

Lemma verdictOf_outcome fs p :
  is_Some (fs (Filename p)) → is_Ok (verdictOf fs p) ∨ is_Panic (verdictOf fs p).
Proof.
  intros [data Hd]. unfold verdictOf, ReadFile. rewrite Hd. simpl.
  destruct (checkLine (fileIsIgnored (Filename p)) (Split data newline) p)
    as [iss|e|msg] eqn:E.
  - left. by eexists.
  - by apply checkLine_not_Err in E.
  - right. by eexists.
Qed.

Lemma CheckIssues_outcome fs lines r :
  CheckIssues fs lines r →
  (∀ p, p ∈ lines → is_Some (fs (Filename p))) →
  is_Ok r ∨ is_Panic r.
Proof.
  intros Hrun Hfs. destruct r as [issues|e|msg].
  - left. by eexists.
  - destruct (CheckIssues_Err _ _ _ Hrun) as (p & Hp & Hnone).
    destruct (Hfs p Hp) as [? ?]. congruence.
  - right. by eexists.
Qed.

Lemma sampleRun : CheckIssues sampleFS sampleLines (Ok sampleIssues).
Proof.
  assert (CheckIssues_exec sampleFS sampleLines = Ok sampleIssues) as <-
    by (vm_compute; reflexivity).
  apply CheckIssues_exec_sound.
Qed.

(** ** Suppression rules *)

(** C7 (as amended).  For a position [p] of a finished run, on a readable
    file: the issue of [p] is marked ignored if and only if the line before
    [p] begins, once trimmed, with the ignore marker (whatever follows the
    marker on that line), or the line of [p] ends,
    once trimmed, with the marker, or the path of the file ends with an
    entry of [ignoredFiles]; it is marked not ignored if and only if none
    of the three holds.  When the line before carries the marker the
    verdict is fixed by that line alone, whatever the other lines and the
    file list say.  Every position, ignored or not, is in the returned
    list: the statements of the issues are the input positions, up to
    order. *)
Theorem C7_suppression_rules fs lines issues p data :
  CheckIssues fs lines (Ok issues) → p ∈ lines → validLine p →
  fs (Filename p) = Some data →
  ({| statement := p; ignored := true |} ∈ issues ↔
     previousMarked (Split data newline) p = true
     ∨ ownMarked (Split data newline) p = true
     ∨ fileIsIgnored (Filename p) = true)
  ∧ ({| statement := p; ignored := false |} ∈ issues ↔
       previousMarked (Split data newline) p = false
       ∧ ownMarked (Split data newline) p = false
       ∧ fileIsIgnored (Filename p) = false)
  ∧ (previousMarked (Split data newline) p = true →
     ∀ fileIgnored fileLines,
       sourceLine fileLines (Line p - 1)
       = sourceLine (Split data newline) (Line p - 1) →
       checkLine fileIgnored fileLines p
       = Ok {| statement := p; ignored := true |})
  ∧ statement <$> issues ≡ₚ lines.
Proof.
  intros Hrun Hp Hv Hd.
  destruct (CheckIssues_covers _ _ _ _ Hrun Hp) as (iss & Hiss & _).
  rewrite !(CheckIssues_bit _ _ _ _ _ Hrun Hp), !(verdictOf_Ok _ _ data) by done.
  apply (verdictOf_Ok _ _ data) in Hiss; [|done..].
  split; [|split; [|split]].
  - split.
    + intros [[? _]|(_ & _ & [=])]; [by left|].
      right. by apply orb_prop.
    + intros Hrule.
      destruct Hiss as [[Hprev ->]|(Hprev & Hown & ->)]; [by left|].
      right. split; [done|]. split; [done|]. f_equal.
      destruct Hrule as [?|[-> | ->]];
        [congruence | done | by rewrite orb_true_r].
  - split.
    + intros [[_ [=]]|(? & _ & [=])]. split; [done|]. by apply orb_false_elim.
    + intros (Hprev & Hown & Hfile).
      destruct Hiss as [[? _]|(_ & ? & _)]; [congruence|].
      right. split; [done|]. split; [done|]. by rewrite Hown, Hfile.
  - intros Hprev fileIgnored fileLines Hsame.
    apply checkLine_Ok; [done|]. left. split; [|done].
    unfold previousMarked in *. by rewrite Hsame.
  - exact (CheckIssues_statements _ _ _ Hrun).
Qed.

Lemma C7_suppression_rules_witness :
  ({| statement := posAt "main.go" 3; ignored := true |} ∈ sampleIssues ↔
     previousMarked (Split sampleFile newline) (posAt "main.go" 3) = true
     ∨ ownMarked (Split sampleFile newline) (posAt "main.go" 3) = true
     ∨ fileIsIgnored "main.go" = true)
  ∧ ({| statement := posAt "main.go" 3; ignored := false |} ∈ sampleIssues ↔
       previousMarked (Split sampleFile newline) (posAt "main.go" 3) = false
       ∧ ownMarked (Split sampleFile newline) (posAt "main.go" 3) = false
       ∧ fileIsIgnored "main.go" = false)
  ∧ (previousMarked (Split sampleFile newline) (posAt "main.go" 3) = true →
     ∀ fileIgnored fileLines,
       sourceLine fileLines (3 - 1)
       = sourceLine (Split sampleFile newline) (3 - 1) →
       checkLine fileIgnored fileLines (posAt "main.go" 3)
       = Ok {| statement := posAt "main.go" 3; ignored := true |})
  ∧ statement <$> sampleIssues ≡ₚ sampleLines.
Proof.
  apply (C7_suppression_rules sampleFS sampleLines sampleIssues
           (posAt "main.go" 3) sampleFile).
  - exact sampleRun.
  - unfold sampleLines. apply list_elem_of_In. simpl. tauto.
  - unfold validLine, GoInt.max_int. simpl. lia.
  - reflexivity.
Defined.

(** A marker followed by a remark on the line before: the line does not
    consist of the marker alone, the line of the finding carries no marker,
    the file is not on the list, and every finished run marks the finding
    ignored. *)
Lemma C7_counterexample :
  CheckIssues sampleFS [posAt "remark.go" 2]
    (Ok [{| statement := posAt "remark.go" 2; ignored := true |}])
  ∧ (∀ issues, CheckIssues sampleFS [posAt "remark.go" 2] (Ok issues) →
       {| statement := posAt "remark.go" 2; ignored := true |} ∈ issues)
  ∧ sampleFS "remark.go" = Some remarkFile
  ∧ sourceLine (Split remarkFile newline) 1
    = Some "//nolint:safesql reviewed by the team"
  ∧ previousIsExactlyMarker (Split remarkFile newline) (posAt "remark.go" 2)
    = false
  ∧ ownMarked (Split remarkFile newline) (posAt "remark.go" 2) = false
  ∧ fileIsIgnored "remark.go" = false.
Proof.
  split; [|split; [|split; [|split; [|split; [|split]]]]];
    try (vm_compute; reflexivity).
  - assert (CheckIssues_exec sampleFS [posAt "remark.go" 2]
            = Ok [{| statement := posAt "remark.go" 2; ignored := true |}])
      as <- by (vm_compute; reflexivity).
    apply CheckIssues_exec_sound.
  - intros issues Hrun.
    apply (CheckIssues_bit _ _ _ _ _ Hrun); [by left|].
    vm_compute. reflexivity.
Qed.

(** C9.  The ignored bit of a position depends only on the line before
    it, on its own line and on the file path: when two file systems give
    the file of [p] contents that agree on the lines [Line p - 1] and
    [Line p] (counted from 1), two finished runs attach the same ignored
    value to [p]. *)
Theorem C9_two_lines_only fs1 fs2 lines1 lines2 issues1 issues2 p data1 data2 :
  CheckIssues fs1 lines1 (Ok issues1) → CheckIssues fs2 lines2 (Ok issues2) →
  p ∈ lines1 → p ∈ lines2 → validLine p →
  fs1 (Filename p) = Some data1 → fs2 (Filename p) = Some data2 →
  sourceLine (Split data1 newline) (Line p - 1)
  = sourceLine (Split data2 newline) (Line p - 1) →
  sourceLine (Split data1 newline) (Line p)
  = sourceLine (Split data2 newline) (Line p) →
  ∀ b, {| statement := p; ignored := b |} ∈ issues1
       ↔ {| statement := p; ignored := b |} ∈ issues2.
Proof.
  intros Hrun1 Hrun2 Hp1 Hp2 Hv Hd1 Hd2 Hprev Hown b.
  rewrite (CheckIssues_bit _ _ _ _ _ Hrun1 Hp1),
    (CheckIssues_bit _ _ _ _ _ Hrun2 Hp2).
  rewrite (verdictOf_Ok _ _ data1), (verdictOf_Ok _ _ data2) by done.
  unfold previousMarked, ownMarked. by rewrite Hprev, Hown.
Qed.

Lemma sampleRunEdited :
  CheckIssues sampleFSEdited [posAt "main.go" 4; posAt "main.go" 3]
    (Ok [{| statement := posAt "main.go" 3; ignored := true |};
         {| statement := posAt "main.go" 4; ignored := true |}]).
Proof.
  assert (CheckIssues_exec sampleFSEdited [posAt "main.go" 4; posAt "main.go" 3]
          = Ok [{| statement := posAt "main.go" 3; ignored := true |};
                {| statement := posAt "main.go" 4; ignored := true |}]) as <-
    by (vm_compute; reflexivity).
  apply CheckIssues_exec_sound.
Qed.

Lemma C9_two_lines_only_witness :
  ({| statement := posAt "main.go" 4; ignored := true |} ∈ sampleIssues
   ↔ {| statement := posAt "main.go" 4; ignored := true |}
       ∈ [{| statement := posAt "main.go" 3; ignored := true |};
          {| statement := posAt "main.go" 4; ignored := true |}])
  ∧ ({| statement := posAt "main.go" 4; ignored := false |} ∈ sampleIssues
     ↔ {| statement := posAt "main.go" 4; ignored := false |}
         ∈ [{| statement := posAt "main.go" 3; ignored := true |};
            {| statement := posAt "main.go" 4; ignored := true |}]).
Proof.
  assert (sourceLine (Split sampleFile newline) (Line (posAt "main.go" 4) - 1)
          = sourceLine (Split sampleFileEdited newline)
              (Line (posAt "main.go" 4) - 1)) as Hprev
    by (vm_compute; reflexivity).
  assert (sourceLine (Split sampleFile newline) (Line (posAt "main.go" 4))
          = sourceLine (Split sampleFileEdited newline)
              (Line (posAt "main.go" 4))) as Hown
    by (vm_compute; reflexivity).
  assert (posAt "main.go" 4 ∈ sampleLines) as Hin1
    by (unfold sampleLines; apply list_elem_of_In; simpl; tauto).
  assert (posAt "main.go" 4 ∈ [posAt "main.go" 4; posAt "main.go" 3]) as Hin2
    by (apply list_elem_of_In; simpl; tauto).
  assert (validLine (posAt "main.go" 4)) as Hvalid
    by (unfold validLine, GoInt.max_int; simpl; lia).
  split.
  - exact (C9_two_lines_only sampleFS sampleFSEdited sampleLines
             [posAt "main.go" 4; posAt "main.go" 3] sampleIssues _
             (posAt "main.go" 4) sampleFile sampleFileEdited
             sampleRun sampleRunEdited Hin1 Hin2 Hvalid eq_refl eq_refl
             Hprev Hown true).
  - exact (C9_two_lines_only sampleFS sampleFSEdited sampleLines
             [posAt "main.go" 4; posAt "main.go" 3] sampleIssues _
             (posAt "main.go" 4) sampleFile sampleFileEdited
             sampleRun sampleRunEdited Hin1 Hin2 Hvalid eq_refl eq_refl
             Hprev Hown false).
Defined.

(** ** Bounds of the file accesses *)

(** C10 (as amended).  [CheckIssues] reads [fileLines[line.Line-1]]
    without comparing the index with the length.  With readable files and
    line numbers that are non-negative [int]s, a run finishes exactly when
    every position lies within its file (from line 1 to the number of
    lines) or has a line before it that begins with the marker, and
    otherwise panics; a position within its file always has a verdict.
    The read of the line before is guarded against negative indices: a
    position on line 1 is judged by its own line and the file list alone. *)
Theorem C10_access_bounds fs lines r :
  CheckIssues fs lines r →
  (∀ p, p ∈ lines → validLine p ∧ is_Some (fs (Filename p))) →
  (is_Ok r ↔
     ∀ p data, p ∈ lines → fs (Filename p) = Some data →
       1 ≤ Line p ≤ len (Split data newline)
       ∨ previousMarked (Split data newline) p = true)
  ∧ (¬ is_Ok r → is_Panic r)
  ∧ (∀ issues p data first,
       r = Ok issues → p ∈ lines → fs (Filename p) = Some data →
       Line p = 1 → Split data newline !! 0%nat = Some first →
       ∀ b, {| statement := p; ignored := b |} ∈ issues
            ↔ b = HasIgnoreComment first || fileIsIgnored (Filename p)).
Proof.
  intros Hrun Hwf. split; [|split].
  - rewrite (CheckIssues_is_Ok _ _ _ Hrun). split.
    + intros Hall p data Hp Hd. destruct (Hall p Hp) as [iss Hiss].
      destruct (Hwf p Hp) as [Hv _].
      apply (verdictOf_Ok _ _ data) in Hiss; [|done..].
      destruct Hiss as [[? _]|(_ & Hs & _)]; [by right|].
      left. by apply sourceLine_is_Some.
    + intros Hall p Hp. destruct (Hwf p Hp) as [Hv [data Hd]].
      destruct (previousMarked (Split data newline) p) eqn:Hprev.
      * eexists. apply (verdictOf_Ok _ _ data); [done..|]. by left.
      * eexists. apply (verdictOf_Ok _ _ data); [done..|]. right.
        split; [done|]. split; [|done]. apply sourceLine_is_Some.
        destruct (Hall p data Hp Hd); [done | congruence].
  - intros Hnot. destruct (CheckIssues_outcome _ _ _ Hrun); [|done..].
    intros p Hp. by apply Hwf.
  - intros issues p data first -> Hp Hd Hline Hfirst b.
    destruct (Hwf p Hp) as [Hv _].
    rewrite (CheckIssues_bit _ _ _ _ _ Hrun Hp), (verdictOf_Ok _ _ data) by done.
    assert (sourceLine (Split data newline) (Line p - 1) = None) as Hprev
      by (rewrite Hline; reflexivity).
    assert (sourceLine (Split data newline) (Line p) = Some first) as Hown
      by (rewrite Hline; exact Hfirst).
    unfold previousMarked, ownMarked. rewrite Hprev, Hown. split.
    + intros [[[=] _]|(_ & _ & [=])]. done.
    + intros ->. right. eauto.
Qed.

Lemma C10_access_bounds_witness :
  (is_Ok (Ok sampleIssues) ↔
     ∀ p data, p ∈ sampleLines → sampleFS (Filename p) = Some data →
       1 ≤ Line p ≤ len (Split data newline)
       ∨ previousMarked (Split data newline) p = true)
  ∧ (¬ is_Ok (Ok sampleIssues) → is_Panic (Ok sampleIssues))
  ∧ (∀ issues p data first,
       Ok sampleIssues = Ok issues → p ∈ sampleLines →
       sampleFS (Filename p) = Some data →
       Line p = 1 → Split data newline !! 0%nat = Some first →
       ∀ b, {| statement := p; ignored := b |} ∈ issues
            ↔ b = HasIgnoreComment first || fileIsIgnored (Filename p)).
Proof.
  apply (C10_access_bounds sampleFS sampleLines (Ok sampleIssues)).
  - exact sampleRun.
  - intros p Hp. apply list_elem_of_In in Hp. simpl in Hp.
    unfold validLine, GoInt.max_int.
    destruct Hp as [<-|[<-|[<-|[<-|[]]]]]; simpl; (split; [lia | eauto]).
Defined.

(** A position one line past the end of its file, after a last line that
    carries the marker: every run finishes, and marks it ignored, though
    the line number exceeds the number of lines. *)
Lemma C10_counterexample :
  (∀ r, CheckIssues sampleFS [posAt "marker.go" 2] r → is_Ok r)
  ∧ CheckIssues sampleFS [posAt "marker.go" 2]
      (Ok [{| statement := posAt "marker.go" 2; ignored := true |}])
  ∧ sampleFS "marker.go" = Some markerFile
  ∧ ¬ (Line (posAt "marker.go" 2) ≤ len (Split markerFile newline)).
Proof.
  split; [|split; [|split]].
  - intros r Hrun. apply (CheckIssues_is_Ok _ _ _ Hrun).
    intros p ->%list_elem_of_singleton. eexists. vm_compute. reflexivity.
  - assert (CheckIssues_exec sampleFS [posAt "marker.go" 2]
            = Ok [{| statement := posAt "marker.go" 2; ignored := true |}])
      as <- by (vm_compute; reflexivity).
    apply CheckIssues_exec_sound.
  - reflexivity.
  - vm_compute. intros H. apply H. reflexivity.
Qed.

(** ** Sink resolver *)

Lemma matchesParamName_true name names :
  matchesParamName name names = true ↔ name ∈ names.
Proof.
  induction names as [|n names IH]; simpl.
  - split; [done | by intros ?%elem_of_nil].
  - rewrite elem_of_cons. destruct (String.eqb_spec name n) as [->|Hne].
    + split; [by left | done].
    + rewrite IH. split; [by right | intros [?|?]; [congruence | done]].
Qed.

Lemma matchesParamName_false name names :
  matchesParamName name names = false ↔ name ∉ names.
Proof.
  rewrite <- matchesParamName_true. by destruct (matchesParamName name names).
Qed.

Lemma FuncHasQuery_from_true names params i n :
  FuncHasQuery_from names params i = (n, true) ↔
  ∃ k, (∃ v, params !! k = Some v ∧ types.Name v ∈ names)
       ∧ (∀ j w, (j < k)%nat → params !! j = Some w → types.Name w ∉ names)
       ∧ n = i + Z.of_nat k.
Proof.
  revert i. induction params as [|v params IH]; intros i; simpl.
  - split; [done | by intros (k & (? & ? & _) & _)].
  - destruct (matchesParamName (types.Name v) names) eqn:E.
    + apply matchesParamName_true in E. split.
      * intros [= <-]. exists 0%nat. split; [by exists v|].
        split; [lia | lia].
      * intros (k & _ & Hfirst & ->). destruct k as [|k]; [f_equal; lia|].
        destruct (Hfirst 0%nat v); [lia | done | done].
    + apply matchesParamName_false in E. rewrite IH. split.
      * intros (k & Hk & Hfirst & ->). exists (S k).
        split; [done|]. split; [|lia].
        intros [|j] w Hj Hw; simpl in Hw; [by simplify_eq|].
        apply (Hfirst j); [lia | done].
      * intros (k & (w & Hw & Hin) & Hfirst & ->).
        destruct k as [|k]; simpl in Hw; [by simplify_eq|].
        exists k. split; [eauto|]. split; [|lia].
        intros j w' Hj Hw'. apply (Hfirst (S j)); [lia | done].
Qed.

Lemma FuncHasQuery_true pkg s n :
  FuncHasQuery pkg s = (n, true) ↔
  ∃ k, firstMatch (paramNames pkg) s k ∧ n = Z.of_nat k.
Proof.
  unfold FuncHasQuery, firstMatch. rewrite FuncHasQuery_from_true.
  split.
  - intros (k & ? & ? & ->). exists k. by rewrite Z.add_0_l.
  - intros (k & [? ?] & ->). exists k. by rewrite Z.add_0_l.
Qed.

Lemma FuncHasQuery_from_names names params params' i :
  types.Name <$> params = types.Name <$> params' →
  FuncHasQuery_from names params i = FuncHasQuery_from names params' i.
Proof.
  revert params' i. induction params as [|v params IH];
    intros [|v' params'] i Heq; simplify_eq/=; [done|].
  rewrite (IH params' (i + 1)) by done. by rewrite H.
Qed.

Lemma scanMethods_spec pkg ssa ms acc :
  scanMethods pkg ssa ms acc = acc ++ omap (sinkOf pkg ssa) ms.
Proof.
  revert acc. induction ms as [|m ms IH]; intros acc.
  - simpl. by rewrite app_nil_r.
  - assert (omap (sinkOf pkg ssa) (m :: ms) =
            match sinkOf pkg ssa m with
            | Some y => y :: omap (sinkOf pkg ssa) ms
            | None => omap (sinkOf pkg ssa) ms
            end) as -> by reflexivity.
    cbn [scanMethods]. unfold sinkOf at 1.
    destruct (types.Func_Exported m); cbn [negb]; [|apply IH].
    destruct (FuncHasQuery pkg (types.Func_Type m)) as [num [|]]; [|apply IH].
    rewrite IH. by rewrite <- app_assoc.
Qed.

Lemma scanNames_elem pkg scope ssa names acc out qm :
  scanNames pkg scope ssa names acc = Ok out →
  qm ∈ out ↔
    qm ∈ acc
    ∨ ∃ name n m, name ∈ names ∧ scannedType scope name n
        ∧ m ∈ types.Methods n ∧ sinkOf pkg ssa m = Some qm.
Proof.
  revert acc out. induction names as [|name names IH]; intros acc out; simpl.
  - intros [= <-]. split; [by left|].
    intros [?|(? & ? & ? & ?%elem_of_nil & _)]; done.
  - destruct (types.Lookup scope name) as [o|] eqn:Ho; [|done].
    assert (∀ out', scanNames pkg scope ssa names acc = Ok out' →
              (∀ n, ¬ scannedType scope name n) →
              qm ∈ out' ↔ qm ∈ acc
                ∨ ∃ name' n m, name' ∈ name :: names ∧ scannedType scope name' n
                    ∧ m ∈ types.Methods n ∧ sinkOf pkg ssa m = Some qm)
      as Hskip.
    { intros out' Hout Hno. rewrite (IH _ _ Hout). split.
      - intros [?|(name' & n & m & ? & ?)]; [by left|].
        right. exists name', n, m. split; [by right | done].
      - intros [?|(name' & n & m & [->|?]%elem_of_cons & Hs & ?)]; [by left| |].
        + by destruct (Hno n).
        + right. eauto 10. }
    destruct (types.Exported o) eqn:Hexp; simpl.
    2: { intros Hout. apply (Hskip _ Hout).
         intros n (o' & ? & ? & _). congruence. }
    destruct (types.Kind o) eqn:Hkind;
      try (intros Hout; apply (Hskip _ Hout);
           intros n (o' & ? & _ & ? & _); congruence).
    destruct (types.TypeOf o) as [n|t] eqn:Htype; [|done].
    intros Hout. rewrite (IH _ _ Hout), scanMethods_spec, elem_of_app,
      list_elem_of_omap. split.
    + intros [[?|(m & ? & ?)]|(name' & n' & m & ? & ?)].
      * by left.
      * right. exists name, n, m. split; [by left|].
        split; [by exists o | done].
      * right. exists name', n', m. split; [by right | done].
    + intros [?|(name' & n' & m & [->|?]%elem_of_cons & Hs & ? & ?)].
      * by left; left.
      * destruct Hs as (o' & ? & _ & _ & ?).
        assert (n' = n) as -> by congruence. left; right; eauto.
      * right. eauto 10.
Qed.

Lemma Lookup_Names scope name :
  name ∈ types.Names scope → is_Some (types.Lookup scope name).
Proof.
  unfold types.Names. induction scope as [|[n o] scope IH]; simpl.
  - by intros ?%elem_of_nil.
  - intros [->|Hin]%elem_of_cons.
    + rewrite String.eqb_refl. eauto.
    + destruct (String.eqb n name); [eauto | by apply IH].
Qed.

Lemma scanNames_is_Ok pkg scope ssa names acc :
  (∀ name o, name ∈ names → types.Lookup scope name = Some o →
     types.Exported o = true → types.Kind o = types.TypeName →
     ∃ n, types.TypeOf o = types.NamedType n) →
  (∀ name, name ∈ names → is_Some (types.Lookup scope name)) →
  is_Ok (scanNames pkg scope ssa names acc).
Proof.
  revert acc. induction names as [|name names IH]; intros acc Hnamed Hfound;
    simpl; [by eexists|].
  assert (∀ acc', is_Ok (scanNames pkg scope ssa names acc')) as Hrest.
  { intros acc'. apply IH.
    - intros name' o Hin. apply Hnamed. by right.
    - intros name' Hin. apply Hfound. by right. }
  destruct (Hfound name) as [o Ho]; [by left|]. rewrite Ho.
  destruct (types.Exported o) eqn:Hexp; simpl; [|done].
  destruct (types.Kind o) eqn:Hkind; try done.
  destruct (Hnamed name o) as [n ->]; [by left | done..].
Qed.

(** The scan finishes when every exported type name of the scope is bound
    to a named type. *)
Lemma FindQueryMethods_is_Ok pkg sql ssa :
  (∀ name o, types.Lookup (types.PkgScope sql) name = Some o →
     types.Exported o = true → types.Kind o = types.TypeName →
     ∃ n, types.TypeOf o = types.NamedType n) →
  is_Ok (FindQueryMethods pkg sql ssa).
Proof.
  intros Hnamed. apply scanNames_is_Ok.
  - intros name o _. apply Hnamed.
  - apply Lookup_Names.
Qed.

(** The records of a finished scan. *)
Lemma FindQueryMethods_elem pkg sql ssa methods qm :
  FindQueryMethods pkg sql ssa = Ok methods →
  qm ∈ methods ↔
    ∃ name n m k,
      name ∈ types.Names (types.PkgScope sql)
      ∧ scannedType (types.PkgScope sql) name n
      ∧ m ∈ types.Methods n ∧ types.Func_Exported m = true
      ∧ firstMatch (paramNames pkg) (types.Func_Type m) k
      ∧ qm = {| Func := m;
                SSA := ssa.FuncValue ssa m;
                ArgCount := len (types.Params (types.Func_Type m));
                Param := Z.of_nat k |}.
Proof.
  intros Hrun. rewrite (scanNames_elem _ _ _ _ _ _ qm Hrun). split.
  - intros [?%elem_of_nil|(name & n & m & Hname & Hs & Hm & Hsink)]; [done|].
    unfold sinkOf in Hsink.
    destruct (types.Func_Exported m) eqn:Hexp; [|done].
    destruct (FuncHasQuery pkg (types.Func_Type m)) as [num [|]] eqn:Hq;
      [|done].
    apply FuncHasQuery_true in Hq as (k & Hk & ->).
    exists name, n, m, k. by simplify_eq.
  - intros (name & n & m & k & Hname & Hs & Hm & Hexp & Hk & ->).
    right. exists name, n, m. split; [done|]. split; [done|]. split; [done|].
    unfold sinkOf. rewrite Hexp.
    assert (FuncHasQuery pkg (types.Func_Type m) = (Z.of_nat k, true)) as ->
      by (apply FuncHasQuery_true; eauto).
    done.
Qed.

Lemma sampleScan :
  FindQueryMethods gormCatalog samplePackage noBodies = Ok sampleSinks.
Proof. reflexivity. Qed.

(** C5.  A finished [FindQueryMethods] returns a record for exactly the
    exported methods of the exported type names of the scope (bound to a
    named type) that have a parameter whose name is one of [paramNames]:
    the record holds the method, [Param] the position of the first such
    parameter in declaration order and [ArgCount] the number of declared
    parameters, the receiver not being among them.  Only the names of the
    parameters count: signatures whose parameters bear the same names,
    whatever their types, get the same answer from [FuncHasQuery]. *)
Theorem C5_sinks_by_parameter_name pkg sql ssa methods :
  FindQueryMethods pkg sql ssa = Ok methods →
  (∀ qm, qm ∈ methods ↔
     ∃ name n m k,
       name ∈ types.Names (types.PkgScope sql)
       ∧ scannedType (types.PkgScope sql) name n
       ∧ m ∈ types.Methods n ∧ types.Func_Exported m = true
       ∧ firstMatch (paramNames pkg) (types.Func_Type m) k
       ∧ qm = {| Func := m;
                 SSA := ssa.FuncValue ssa m;
                 ArgCount := len (types.Params (types.Func_Type m));
                 Param := Z.of_nat k |})
  ∧ (∀ s s', types.Name <$> types.Params s = types.Name <$> types.Params s' →
       FuncHasQuery pkg s = FuncHasQuery pkg s').
Proof.
  intros Hrun. split.
  - intros qm. by apply FindQueryMethods_elem.
  - intros s s' Hnames. by apply FuncHasQuery_from_names.
Qed.

Lemma C5_sinks_by_parameter_name_witness :
  (∀ qm, qm ∈ sampleSinks ↔
     ∃ name n m k,
       name ∈ types.Names (types.PkgScope samplePackage)
       ∧ scannedType (types.PkgScope samplePackage) name n
       ∧ m ∈ types.Methods n ∧ types.Func_Exported m = true
       ∧ firstMatch (paramNames gormCatalog) (types.Func_Type m) k
       ∧ qm = {| Func := m;
                 SSA := ssa.FuncValue noBodies m;
                 ArgCount := len (types.Params (types.Func_Type m));
                 Param := Z.of_nat k |})
  ∧ (∀ s s', types.Name <$> types.Params s = types.Name <$> types.Params s' →
       FuncHasQuery gormCatalog s = FuncHasQuery gormCatalog s').
Proof.
  apply (C5_sinks_by_parameter_name gormCatalog samplePackage noBodies
           sampleSinks).
  reflexivity.
Defined.

(** C6.  Every record of a finished [FindQueryMethods] has
    [0 <= Param < ArgCount]. *)
Theorem C6_param_within_arg_count pkg sql ssa methods qm :
  FindQueryMethods pkg sql ssa = Ok methods → qm ∈ methods →
  0 ≤ Param qm < ArgCount qm.
Proof.
  intros Hrun Hqm.
  apply (FindQueryMethods_elem _ _ _ _ _ Hrun) in Hqm
    as (name & n & m & k & _ & _ & _ & _ & [(v & Hv & _) _] & ->).
  apply lookup_lt_Some in Hv. simpl. unfold len. lia.
Qed.

Lemma C6_param_within_arg_count_witness :
  0 ≤ Param {| Func := mRebind; SSA := None; ArgCount := 3; Param := 1 |}
    < ArgCount {| Func := mRebind; SSA := None; ArgCount := 3; Param := 1 |}.
Proof.
  apply (C6_param_within_arg_count gormCatalog samplePackage noBodies
           sampleSinks).
  - reflexivity.
  - unfold sampleSinks. apply list_elem_of_In. simpl. tauto.
Defined.

(** ** Unsafe-call detector: one edge *)

Lemma okFuncsOf_elem qms fn :
  fn ∈ okFuncsOf qms ↔ ∃ m, m ∈ qms ∧ SSA m = fn.
Proof.
  unfold okFuncsOf.
  assert (∀ acc : gset (option ssa.Function),
            fn ∈ foldl (λ okFuncs m, {[ SSA m ]} ∪ okFuncs) acc qms
            ↔ fn ∈ acc ∨ ∃ m, m ∈ qms ∧ SSA m = fn) as Hgen.
  { induction qms as [|m qms IH]; intros acc; simpl.
    - split; [by left | intros [?|(? & ?%elem_of_nil & _)]; done].
    - rewrite IH, elem_of_union, elem_of_singleton. split.
      + intros [[->|?]|(m' & ? & ?)].
        * right. exists m. split; [by left | done].
        * by left.
        * right. exists m'. split; [by right | done].
      + intros [?|(m' & [->|?]%elem_of_cons & ?)]; [by left; right| |].
        * by left; left.
        * right. eauto. }
  rewrite Hgen. split; [intros [?%elem_of_empty|?]; done | by right].
Qed.

Lemma isInternalSQLPkg_true path :
  isInternalSQLPkg path = true ↔ path ∈ trackedPackages.
Proof.
  unfold isInternalSQLPkg, trackedPackages.
  induction sqlPackages as [|pkg pkgs IH]; simpl.
  - split; [done | by intros ?%elem_of_nil].
  - rewrite elem_of_cons. destruct (String.eqb_spec (packageName pkg) path).
    + split; [by left | done].
    + rewrite IH. split; [by right | intros [?|?]; [congruence | done]].
Qed.

Lemma visitEdge_acc okFuncs m bad edge :
  visitEdge okFuncs m bad edge
  = (λ found, bad ++ found) <$> visitEdge okFuncs m [] edge.
Proof.
  unfold visitEdge. case_bool_decide; simpl; [by rewrite app_nil_r|].
  destruct (callerPkgPath edge) as [path| |]; simpl; [|done..].
  destruct (isInternalSQLPkg path); simpl; [by rewrite app_nil_r|].
  destruct (resolveArgs m (ssa.Args (callgraph.Site edge))) as [args| |];
    simpl; [|done..].
  destruct (elemAt args (Param m)) as [v| |]; simpl; [|done..].
  destruct (isConst v); simpl; [by rewrite app_nil_r|].
  destruct (boxedOperandPassed v); simpl; [by rewrite app_nil_r|done].
Qed.

Lemma visitEdge_in_okFuncs okFuncs m bad edge :
  Some (ssa.Parent (callgraph.Site edge)) ∈ okFuncs →
  visitEdge okFuncs m bad edge = Ok bad.
Proof. intros Hin. unfold visitEdge. by rewrite bool_decide_eq_true_2. Qed.

Lemma visitEdge_internal okFuncs m bad edge path :
  ssa.Pkg (callgraph.Caller edge) = Some path → path ∈ trackedPackages →
  visitEdge okFuncs m bad edge = Ok bad.
Proof.
  intros Hpkg Hin%isInternalSQLPkg_true. unfold visitEdge, callerPkgPath.
  case_bool_decide; [done|]. rewrite Hpkg. simpl. by rewrite Hin.
Qed.

Lemma visitEdge_evaluated okFuncs m bad edge :
  evaluated okFuncs edge →
  visitEdge okFuncs m bad edge =
  v ← sinkArg m edge;
  if isConst v then Ok bad
  else if boxedOperandPassed v then Ok bad
  else Ok (bad ++ [callgraph.Site edge]).
Proof.
  intros (Hok & path & Hpkg & Hint). unfold visitEdge, callerPkgPath, sinkArg.
  rewrite bool_decide_eq_false_2 by done. rewrite Hpkg. simpl. rewrite Hint.
  by destruct (resolveArgs m (ssa.Args (callgraph.Site edge))).
Qed.

(** What an edge adds to an empty list. *)
Lemma visitEdge_found okFuncs m edge found :
  visitEdge okFuncs m [] edge = Ok found →
  found = []
  ∨ (found = [callgraph.Site edge] ∧ evaluated okFuncs edge
     ∧ ∃ v, sinkArg m edge = Ok v ∧ isConst v = false
            ∧ boxedOperandPassed v = false).
Proof.
  unfold visitEdge, evaluated, sinkArg, callerPkgPath.
  case_bool_decide as Hok; simpl; [intros [= <-]; by left|].
  destruct (ssa.Pkg (callgraph.Caller edge)) as [path|]; simpl; [|done].
  destruct (isInternalSQLPkg path) eqn:Hint; simpl; [intros [= <-]; by left|].
  destruct (resolveArgs m (ssa.Args (callgraph.Site edge))) as [args| |];
    simpl; [|done..].
  destruct (elemAt args (Param m)) as [v| |]; simpl; [|done..].
  destruct (isConst v) eqn:Hc; simpl; [intros [= <-]; by left|].
  destruct (boxedOperandPassed v) eqn:Hb; simpl; intros [= <-]; [by left|].
  right. split; [done|]. split; [eauto|]. eauto.
Qed.

Lemma visitEdge_not_Err okFuncs m bad edge e :
  visitEdge okFuncs m bad edge ≠ Err e.
Proof.
  unfold visitEdge, callerPkgPath, resolveArgs, dropFirst.
  case_bool_decide; simpl; [done|].
  destruct (ssa.Pkg (callgraph.Caller edge)) as [path|]; simpl; [|done].
  destruct (isInternalSQLPkg path); simpl; [done|].
  assert (∀ args : list ssa.Value,
    (elemAt args (Param m) ≫= λ v,
       if isConst v then Ok bad
       else if boxedOperandPassed v then Ok bad
       else Ok (bad ++ [callgraph.Site edge])) ≠ Err e) as Hrest.
  { intros args. destruct (elemAt args (Param m)) as [v| |] eqn:E; simpl;
      [|by apply elemAt_not_Err in E|done].
    by destruct (isConst v), (boxedOperandPassed v). }
  destruct (len (ssa.Args (callgraph.Site edge)) =? GoInt.add (ArgCount m) 1).
  - destruct (ssa.Args (callgraph.Site edge)); simpl; [done | apply Hrest].
  - destruct (negb (len (ssa.Args (callgraph.Site edge)) =? ArgCount m));
      simpl; [done | apply Hrest].
Qed.

(** ** Unsafe-call detector: the loops *)

Lemma visitEdges_elem okFuncs m edges bad out s :
  visitEdges okFuncs m edges bad = Ok out →
  s ∈ out ↔
    s ∈ bad ∨ ∃ edge found, edge ∈ edges
                ∧ visitEdge okFuncs m [] edge = Ok found ∧ s ∈ found.
Proof.
  revert bad out. induction edges as [|edge edges IH]; intros bad out; simpl.
  - intros [= <-]. split; [by left|].
    intros [?|(? & ? & ?%elem_of_nil & _)]; done.
  - rewrite visitEdge_acc.
    destruct (visitEdge okFuncs m [] edge) as [found| |] eqn:E; simpl;
      [|done..].
    intros Hout. rewrite (IH _ _ Hout), elem_of_app. split.
    + intros [[?|?]|(edge' & found' & ? & ? & ?)].
      * by left.
      * right. exists edge, found. split; [by left | done].
      * right. exists edge', found'. split; [by right | done].
    + intros [?|(edge' & found' & [->|?]%elem_of_cons & Hf & ?)].
      * by left; left.
      * left; right. congruence.
      * right. eauto.
Qed.

Lemma visitEdges_is_Ok okFuncs m edges bad :
  is_Ok (visitEdges okFuncs m edges bad) ↔
  ∀ edge, edge ∈ edges → is_Ok (visitEdge okFuncs m [] edge).
Proof.
  revert bad. induction edges as [|edge edges IH]; intros bad; simpl.
  - split; [by intros _ ? ?%elem_of_nil | by eexists].
  - rewrite visitEdge_acc.
    destruct (visitEdge okFuncs m [] edge) as [found| |] eqn:E; simpl.
    + rewrite IH. split.
      * intros Hall edge' [->|?]%elem_of_cons; [by eexists | by apply Hall].
      * intros Hall edge' ?. apply Hall. by right.
    + split; [by intros [? ?]|]. intros Hall.
      destruct (Hall edge) as [? ?]; [by left | congruence].
    + split; [by intros [? ?]|]. intros Hall.
      destruct (Hall edge) as [? ?]; [by left | congruence].
Qed.

Lemma visitEdges_not_Err okFuncs m edges bad e :
  visitEdges okFuncs m edges bad ≠ Err e.
Proof.
  revert bad. induction edges as [|edge edges IH]; intros bad; simpl; [done|].
  destruct (visitEdge okFuncs m bad edge) eqn:E; simpl;
    [apply IH | by apply visitEdge_not_Err in E | done].
Qed.

(** [CreateNode] leaves the incoming edges of every function as they are. *)
Lemma CreateNode_In g fn fn' :
  callgraph.In (callgraph.CreateNode (callgraph.CreateNode g fn).1 fn').2
  = callgraph.In (callgraph.CreateNode g fn').2.
Proof.
  unfold callgraph.CreateNode.
  destruct (callgraph.Nodes g !! fn) as [n|] eqn:E; simpl; [done|].
  destruct (decide (fn = fn')) as [<-|Hne].
  - by rewrite lookup_insert_eq, E.
  - rewrite lookup_insert_ne by done.
    by destruct (callgraph.Nodes g !! fn').
Qed.

Lemma visitMethods_elem okFuncs g qms bad out s :
  visitMethods okFuncs g qms bad = Ok out →
  s ∈ out ↔
    s ∈ bad
    ∨ ∃ m edge found, m ∈ qms
        ∧ edge ∈ callgraph.In (callgraph.CreateNode g (SSA m)).2
        ∧ visitEdge okFuncs m [] edge = Ok found ∧ s ∈ found.
Proof.
  revert g bad out. induction qms as [|m qms IH]; intros g bad out; simpl.
  - intros [= <-]. split; [by left|].
    intros [?|(? & ? & ? & ?%elem_of_nil & _)]; done.
  - destruct (callgraph.CreateNode g (SSA m)) as [g' node] eqn:Hnode.
    destruct (visitEdges okFuncs m (callgraph.In node) bad) as [bad'| |] eqn:E;
      simpl; [|done..].
    intros Hout. rewrite (IH _ _ _ Hout), (visitEdges_elem _ _ _ _ _ s E).
    assert (g' = (callgraph.CreateNode g (SSA m)).1) as -> by by rewrite Hnode.
    assert (node = (callgraph.CreateNode g (SSA m)).2) as -> by by rewrite Hnode.
    split.
    + intros [[?|(edge & found & ? & ? & ?)]|(m' & edge & found & ? & Hin & ?)].
      * by left.
      * right. exists m, edge, found. split; [by left | done].
      * right. exists m', edge, found. rewrite CreateNode_In in Hin.
        split; [by right | done].
    + intros [?|(m' & edge & found & [->|?]%elem_of_cons & Hin & ?)].
      * by left; left.
      * left; right. eauto.
      * right. exists m', edge, found. by rewrite CreateNode_In.
Qed.

Lemma visitMethods_is_Ok okFuncs g qms bad :
  is_Ok (visitMethods okFuncs g qms bad) ↔
  ∀ m edge, m ∈ qms → edge ∈ callgraph.In (callgraph.CreateNode g (SSA m)).2 →
    is_Ok (visitEdge okFuncs m [] edge).
Proof.
  revert g bad. induction qms as [|m qms IH]; intros g bad; simpl.
  - split; [by intros _ ? ? ?%elem_of_nil | by eexists].
  - destruct (callgraph.CreateNode g (SSA m)) as [g' node] eqn:Hnode.
    assert (g' = (callgraph.CreateNode g (SSA m)).1) as Hg by by rewrite Hnode.
    assert (node = (callgraph.CreateNode g (SSA m)).2) as Hn by by rewrite Hnode.
    destruct (visitEdges okFuncs m (callgraph.In node) bad) as [bad'| |] eqn:E;
      simpl.
    + rewrite IH.
      assert (is_Ok (visitEdges okFuncs m (callgraph.In node) bad))
        as Hedges' by (by eexists).
      pose proof (proj1 (visitEdges_is_Ok _ _ _ _) Hedges') as Hedges.
      subst g' node. split.
      * intros Hall m' edge [->|?]%elem_of_cons Hin; [by apply Hedges|].
        apply Hall; [done | by rewrite CreateNode_In].
      * intros Hall m' edge ? Hin. rewrite CreateNode_In in Hin.
        apply Hall; [by right | done].
    + by apply visitEdges_not_Err in E.
    + split; [by intros [? ?]|]. intros Hall.
      assert (is_Ok (visitEdges okFuncs m (callgraph.In node) bad)) as [? ?].
      { apply visitEdges_is_Ok. intros edge Hin. subst node.
        apply Hall; [by left | done]. }
      congruence.
Qed.

Lemma visitMethods_not_Err okFuncs g qms bad e :
  visitMethods okFuncs g qms bad ≠ Err e.
Proof.
  revert g bad. induction qms as [|m qms IH]; intros g bad; simpl; [done|].
  destruct (callgraph.CreateNode g (SSA m)) as [g' node].
  destruct (visitEdges okFuncs m (callgraph.In node) bad) eqn:E; simpl;
    [apply IH | by apply visitEdges_not_Err in E | done].
Qed.

Section DetectorFacts.

Variable DeleteSyntheticNodes : callgraph.Graph → callgraph.Graph.

(** The call sites of a finished run: the sites of the evaluated edges
    whose sink argument is neither constant nor passed over. *)
Lemma FindNonConstCalls_elem cg qms bad s :
  FindNonConstCalls DeleteSyntheticNodes cg qms = Ok bad →
  s ∈ bad ↔
    ∃ m edge v, m ∈ qms ∧ edge ∈ incoming DeleteSyntheticNodes cg (SSA m)
      ∧ callgraph.Site edge = s
      ∧ evaluated (okFuncsOf qms) edge
      ∧ sinkArg m edge = Ok v ∧ isConst v = false
      ∧ boxedOperandPassed v = false.
Proof.
  unfold FindNonConstCalls, incoming. intros Hrun.
  rewrite (visitMethods_elem _ _ _ _ _ s Hrun). split.
  - intros [?%elem_of_nil|(m & edge & found & Hm & Hin & Hf & Hs)]; [done|].
    apply visitEdge_found in Hf as [->|(-> & Hev & v & ?)];
      [by apply elem_of_nil in Hs|].
    apply list_elem_of_singleton in Hs as ->. exists m, edge, v. done.
  - intros (m & edge & v & Hm & Hin & <- & Hev & Hv & Hc & Hb).
    right. exists m, edge, [callgraph.Site edge].
    split; [done|]. split; [done|]. split; [|by left].
    rewrite (visitEdge_evaluated _ _ _ _ Hev), Hv. simpl.
    by rewrite Hc, Hb.
Qed.

Lemma FindNonConstCalls_is_Ok cg qms :
  is_Ok (FindNonConstCalls DeleteSyntheticNodes cg qms) ↔
  ∀ m edge, m ∈ qms → edge ∈ incoming DeleteSyntheticNodes cg (SSA m) →
    is_Ok (visitEdge (okFuncsOf qms) m [] edge).
Proof. apply visitMethods_is_Ok. Qed.

Lemma FindNonConstCalls_outcome cg qms :
  is_Ok (FindNonConstCalls DeleteSyntheticNodes cg qms)
  ∨ is_Panic (FindNonConstCalls DeleteSyntheticNodes cg qms).
Proof.
  unfold FindNonConstCalls.
  destruct (visitMethods (okFuncsOf qms) (DeleteSyntheticNodes cg) qms [])
    eqn:E.
  - left. by eexists.
  - by apply visitMethods_not_Err in E.
  - right. by eexists.
Qed.

End DetectorFacts.

Lemma CheckIssues_ignored_file fs lines issues p :
  CheckIssues fs lines (Ok issues) → p ∈ lines → validLine p →
  fileIsIgnored (Filename p) = true →
  {| statement := p; ignored := true |} ∈ issues.
Proof.
  intros Hrun Hp Hv Hfile.
  destruct (CheckIssues_covers _ _ _ _ Hrun Hp) as (iss & Hiss & Hin).
  assert (∃ data, fs (Filename p) = Some data) as [data Hd].
  { unfold verdictOf, ReadFile in Hiss. destruct (fs (Filename p)); [eauto|done]. }
  apply (verdictOf_Ok _ _ data) in Hiss; [|done..].
  destruct Hiss as [[_ ->]|(_ & _ & ->)]; [done|].
  by rewrite Hfile, orb_true_r in Hin.
Qed.

(** ** Detection *)


Lemma sampleDetection :
  FindNonConstCalls noSynthetic sampleGraph sampleMethods
  = Ok [callgraph.Site edgeConcat; callgraph.Site edgeBoxedParam].
Proof. vm_compute. reflexivity. Qed.


(** C2 (as amended).  In a finished run an edge whose sink argument is a
    constant adds nothing to the list, and a call site is absent from the
    returned list when the sink argument is a constant at every edge that
    carries the site into the node of a tracked method.  (One call site
    may sit on edges into several tracked methods, with different
    parameter positions; each edge is judged on its own.) *)
Theorem C2_constant_argument_adds_nothing DeleteSyntheticNodes cg qms bad :
  FindNonConstCalls DeleteSyntheticNodes cg qms = Ok bad →
  (∀ m edge v acc,
     m ∈ qms → edge ∈ incoming DeleteSyntheticNodes cg (SSA m) →
     sinkArg m edge = Ok v → isConst v = true →
     visitEdge (okFuncsOf qms) m acc edge = Ok acc)
  ∧ (∀ s,
       (∀ m edge v,
          m ∈ qms → edge ∈ incoming DeleteSyntheticNodes cg (SSA m) →
          callgraph.Site edge = s → sinkArg m edge = Ok v →
          isConst v = true) →
       s ∉ bad).
Proof.
  intros Hrun. split.
  - intros m edge v acc Hm Hedge Hv Hc.
    assert (is_Ok (FindNonConstCalls DeleteSyntheticNodes cg qms)) as Hok
      by (by eexists).
    destruct (proj1 (FindNonConstCalls_is_Ok _ _ _) Hok m edge Hm Hedge)
      as [found Hfound].
    rewrite visitEdge_acc, Hfound. simpl.
    apply visitEdge_found in Hfound as [->|(_ & _ & v' & Hv' & Hc' & _)].
    + by rewrite app_nil_r.
    + congruence.
  - intros s Hall Hin.
    apply (FindNonConstCalls_elem _ _ _ _ _ Hrun) in Hin
      as (m & edge & v & Hm & Hedge & Hs & _ & Hv & Hc & _).
    specialize (Hall m edge v Hm Hedge Hs Hv). congruence.
Qed.

Lemma C2_constant_argument_adds_nothing_witness :
  (∀ m edge v acc,
     m ∈ sampleMethods →
     edge ∈ incoming noSynthetic sampleGraph (SSA m) →
     sinkArg m edge = Ok v → isConst v = true →
     visitEdge (okFuncsOf sampleMethods) m acc edge = Ok acc)
  ∧ (∀ s,
       (∀ m edge v,
          m ∈ sampleMethods →
          edge ∈ incoming noSynthetic sampleGraph (SSA m) →
          callgraph.Site edge = s → sinkArg m edge = Ok v →
          isConst v = true) →
       s ∉ [callgraph.Site edgeConcat; callgraph.Site edgeBoxedParam]).
Proof.
  apply (C2_constant_argument_adds_nothing noSynthetic sampleGraph
           sampleMethods).
  exact sampleDetection.
Defined.

(** One call through an interface, resolved to the two tracked methods
    [fnA] and [fnB]: at the edge into [fnB] the argument at the sink's
    position is a literal, and the call site is returned all the same, on
    account of its edge into [fnA]. *)
Lemma C2_counterexample :
  FindNonConstCalls noSynthetic sharedGraph [sinkA; sinkB]
  = Ok [callgraph.Site edgeShared]
  ∧ sinkB ∈ [sinkA; sinkB]
  ∧ edgeShared ∈ incoming noSynthetic sharedGraph (SSA sinkB)
  ∧ sinkArg sinkB edgeShared = Ok vLiteral
  ∧ isConst vLiteral = true
  ∧ callgraph.Site edgeShared ∈ [callgraph.Site edgeShared].
Proof.
  split; [vm_compute; reflexivity|].
  split; [apply list_elem_of_In; simpl; tauto|].
  split; [apply list_elem_of_In; vm_compute; tauto|].
  split; [vm_compute; reflexivity|].
  split; [reflexivity|]. by left.
Qed.

Lemma boxedOperandPassed_true v :
  boxedOperandPassed v = true ↔
  ∃ self T X referrers,
    v = ssa.MakeInterface self T X referrers ∧ types.IsInterface T = true
    ∧ (ssa.Referrers X = None ∨ ssa.TypeOf X ≠ types.Typ types.KString).
Proof.
  split.
  - destruct v as [| | |self T X referrers|]; simpl; try done.
    intros [HT HX]%andb_prop. exists self, T, X, referrers.
    split; [done|]. split; [done|].
    apply orb_prop in HX as [HX|HX].
    + left. by apply bool_decide_eq_true in HX.
    + right. apply negb_true_iff in HX. by apply bool_decide_eq_false in HX.
  - intros (self & T & X & referrers & -> & HT & HX). simpl. rewrite HT. simpl.
    destruct HX as [HX|HX].
    + by rewrite bool_decide_eq_true_2.
    + by rewrite (bool_decide_eq_false_2 _ HX), orb_true_r.
Qed.

(** C3 (as amended).  At an evaluated edge whose sink argument [v] is not
    a constant, the call site is passed over exactly when [v] is a
    [MakeInterface] of interface type whose operand either records no
    referrers at all ([Referrers()] is nil, as for constants, globals and
    named functions) or has a type other than [types.Typ[types.String]];
    in every other case the site is appended and is in the list a
    finished run returns.  A string operand that records referrers (a
    parameter, the result of an instruction) is therefore flagged even
    when the wrapping is its only use. *)
Theorem C3_boxed_operand_rule DeleteSyntheticNodes cg qms bad m edge v acc :
  FindNonConstCalls DeleteSyntheticNodes cg qms = Ok bad →
  m ∈ qms → edge ∈ incoming DeleteSyntheticNodes cg (SSA m) →
  evaluated (okFuncsOf qms) edge →
  sinkArg m edge = Ok v → isConst v = false →
  (visitEdge (okFuncsOf qms) m acc edge = Ok acc ↔
     ∃ self T X referrers,
       v = ssa.MakeInterface self T X referrers ∧ types.IsInterface T = true
       ∧ (ssa.Referrers X = None ∨ ssa.TypeOf X ≠ types.Typ types.KString))
  ∧ (visitEdge (okFuncsOf qms) m acc edge ≠ Ok acc →
     visitEdge (okFuncsOf qms) m acc edge = Ok (acc ++ [callgraph.Site edge])
     ∧ callgraph.Site edge ∈ bad).
Proof.
  intros Hrun Hm Hedge Hev Hv Hc.
  rewrite <- boxedOperandPassed_true, (visitEdge_evaluated _ _ _ _ Hev), Hv.
  simpl. rewrite Hc. destruct (boxedOperandPassed v) eqn:Hb.
  - split; [done|]. by intros [].
  - split.
    + split; [|done]. intros [= Heq].
      apply (f_equal length) in Heq. rewrite length_app in Heq.
      simpl in Heq. lia.
    + intros _. split; [done|].
      apply (FindNonConstCalls_elem _ _ _ _ _ Hrun). exists m, edge, v. done.
Qed.

Lemma sampleEvaluated edge :
  ssa.Parent (callgraph.Site edge) = fnHandler →
  callgraph.Caller edge = fnHandler →
  evaluated (okFuncsOf sampleMethods) edge.
Proof.
  intros Hparent Hcaller. split.
  - rewrite Hparent. intros (m & Hm & Heq)%okFuncsOf_elem.
    apply list_elem_of_In in Hm. simpl in Hm.
    destruct Hm as [<-|[<-|[<-|[]]]]; vm_compute in Heq; congruence.
  - exists "example.com/app". by rewrite Hcaller.
Qed.

Lemma C3_boxed_operand_rule_witness :
  (visitEdge (okFuncsOf sampleMethods) sinkWhere [] edgeBoxedPointer = Ok [] ↔
     ∃ self T X referrers,
       vBoxedPointer = ssa.MakeInterface self T X referrers
       ∧ types.IsInterface T = true
       ∧ (ssa.Referrers X = None ∨ ssa.TypeOf X ≠ types.Typ types.KString))
  ∧ (visitEdge (okFuncsOf sampleMethods) sinkWhere [] edgeBoxedPointer ≠ Ok [] →
     visitEdge (okFuncsOf sampleMethods) sinkWhere [] edgeBoxedPointer
     = Ok ([] ++ [callgraph.Site edgeBoxedPointer])
     ∧ callgraph.Site edgeBoxedPointer
       ∈ [callgraph.Site edgeConcat; callgraph.Site edgeBoxedParam]).
Proof.
  apply (C3_boxed_operand_rule noSynthetic sampleGraph sampleMethods).
  - exact sampleDetection.
  - apply list_elem_of_In. simpl. tauto.
  - apply list_elem_of_In. vm_compute. tauto.
  - apply sampleEvaluated; reflexivity.
  - vm_compute. reflexivity.
  - reflexivity.
Defined.

(** A string parameter passed to [Where] through an empty interface, the
    wrapping being its only use: by the spec's wording the site would be
    passed over, the code appends it. *)
Lemma C3_counterexample :
  vBoxedParam
  = ssa.MakeInterface 11 types.Interface
      (ssa.FuncParam "q" tString [11%positive]) [12%positive]
  ∧ noUsesBeyondWrapping 11%positive (ssa.FuncParam "q" tString [11%positive]) = true
  ∧ specBoxingException vBoxedParam = true
  ∧ sinkWhere ∈ sampleMethods
  ∧ edgeBoxedParam ∈ incoming noSynthetic sampleGraph (SSA sinkWhere)
  ∧ evaluated (okFuncsOf sampleMethods) edgeBoxedParam
  ∧ sinkArg sinkWhere edgeBoxedParam = Ok vBoxedParam
  ∧ isConst vBoxedParam = false
  ∧ visitEdge (okFuncsOf sampleMethods) sinkWhere [] edgeBoxedParam
    = Ok [callgraph.Site edgeBoxedParam]
  ∧ FindNonConstCalls noSynthetic sampleGraph sampleMethods
    = Ok [callgraph.Site edgeConcat; callgraph.Site edgeBoxedParam]
  ∧ callgraph.Site edgeBoxedParam
    ∈ [callgraph.Site edgeConcat; callgraph.Site edgeBoxedParam].
Proof.
  split; [reflexivity|]. split; [reflexivity|]. split; [reflexivity|].
  split; [apply list_elem_of_In; simpl; tauto|].
  split; [apply list_elem_of_In; vm_compute; tauto|].
  split; [apply sampleEvaluated; reflexivity|].
  split; [vm_compute; reflexivity|]. split; [reflexivity|].
  split; [vm_compute; reflexivity|].
  split; [exact sampleDetection|]. apply list_elem_of_In. simpl. tauto.
Qed.

(** ** The argument count *)

Lemma add_one_in_range z :
  0 ≤ z < GoInt.max_int → GoInt.add z 1 = z + 1.
Proof.
  intros Hz. apply wrap_in_range.
  unfold GoInt.in_range, GoInt.min_int, GoInt.max_int in *. lia.
Qed.

Lemma visitEdge_panics DeleteSyntheticNodes cg qms m edge msg :
  m ∈ qms → edge ∈ incoming DeleteSyntheticNodes cg (SSA m) →
  visitEdge (okFuncsOf qms) m [] edge = Panic msg →
  is_Panic (FindNonConstCalls DeleteSyntheticNodes cg qms).
Proof.
  intros Hm Hedge Hpanic.
  destruct (FindNonConstCalls_outcome DeleteSyntheticNodes cg qms)
    as [Hok|?]; [|done].
  destruct (proj1 (FindNonConstCalls_is_Ok _ _ _) Hok m edge Hm Hedge)
    as [? ?]. congruence.
Qed.

(** C4.  At an edge the loop evaluates, into the node of a tracked method
    with recorded count [ArgCount] (a parameter count, so non-negative and
    below the largest [int]): with [ArgCount + 1] arguments at the call
    the loop body judges the argument at [Param] of the list without its
    first element; with exactly [ArgCount] arguments it judges the
    argument at [Param] of the list as it is; in both cases a finished run
    of [FindNonConstCalls] holds the site when that argument is neither a
    constant nor passed over.  With any other number of arguments the loop
    body panics with "arg count mismatch", whatever was found before, and
    the whole run ends in a panic, returning no list.  A run returns a
    list exactly when the loop body finishes at every edge of every
    tracked method. *)
Theorem C4_argument_count DeleteSyntheticNodes cg qms m edge :
  m ∈ qms →
  edge ∈ incoming DeleteSyntheticNodes cg (SSA m) →
  evaluated (okFuncsOf qms) edge →
  0 ≤ ArgCount m < GoInt.max_int →
  (len (ssa.Args (callgraph.Site edge)) = ArgCount m + 1 →
   resolveArgs m (ssa.Args (callgraph.Site edge))
   = Ok (drop 1 (ssa.Args (callgraph.Site edge)))
   ∧ (∀ bad,
        visitEdge (okFuncsOf qms) m bad edge =
        v ← elemAt (drop 1 (ssa.Args (callgraph.Site edge))) (Param m);
        if isConst v then Ok bad
        else if boxedOperandPassed v then Ok bad
        else Ok (bad ++ [callgraph.Site edge]))
   ∧ (∀ out,
        FindNonConstCalls DeleteSyntheticNodes cg qms = Ok out →
        ∃ v, elemAt (drop 1 (ssa.Args (callgraph.Site edge))) (Param m) = Ok v
             ∧ (isConst v = false → boxedOperandPassed v = false →
                callgraph.Site edge ∈ out)))
  ∧ (len (ssa.Args (callgraph.Site edge)) = ArgCount m →
     resolveArgs m (ssa.Args (callgraph.Site edge))
     = Ok (ssa.Args (callgraph.Site edge))
     ∧ (∀ bad,
          visitEdge (okFuncsOf qms) m bad edge =
          v ← elemAt (ssa.Args (callgraph.Site edge)) (Param m);
          if isConst v then Ok bad
          else if boxedOperandPassed v then Ok bad
          else Ok (bad ++ [callgraph.Site edge]))
     ∧ (∀ out,
          FindNonConstCalls DeleteSyntheticNodes cg qms = Ok out →
          ∃ v, elemAt (ssa.Args (callgraph.Site edge)) (Param m) = Ok v
               ∧ (isConst v = false → boxedOperandPassed v = false →
                  callgraph.Site edge ∈ out)))
  ∧ (len (ssa.Args (callgraph.Site edge)) ≠ ArgCount m + 1 →
     len (ssa.Args (callgraph.Site edge)) ≠ ArgCount m →
     resolveArgs m (ssa.Args (callgraph.Site edge))
     = Panic "arg count mismatch"
     ∧ (∀ bad, visitEdge (okFuncsOf qms) m bad edge
               = Panic "arg count mismatch")
     ∧ is_Panic (FindNonConstCalls DeleteSyntheticNodes cg qms))
  ∧ (is_Ok (FindNonConstCalls DeleteSyntheticNodes cg qms) ↔
     ∀ m' edge',
       m' ∈ qms → edge' ∈ incoming DeleteSyntheticNodes cg (SSA m') →
       is_Ok (visitEdge (okFuncsOf qms) m' [] edge')).
Proof.
  intros Hm Hedge Hev Hcount.
  assert (∀ adjusted,
    resolveArgs m (ssa.Args (callgraph.Site edge)) = Ok adjusted →
    (∀ bad,
       visitEdge (okFuncsOf qms) m bad edge =
       v ← elemAt adjusted (Param m);
       if isConst v then Ok bad
       else if boxedOperandPassed v then Ok bad
       else Ok (bad ++ [callgraph.Site edge]))
    ∧ (∀ out,
         FindNonConstCalls DeleteSyntheticNodes cg qms = Ok out →
         ∃ v, elemAt adjusted (Param m) = Ok v
              ∧ (isConst v = false → boxedOperandPassed v = false →
                 callgraph.Site edge ∈ out))) as Hjudged.
  { intros adjusted Hres.
    assert (∀ bad,
      visitEdge (okFuncsOf qms) m bad edge =
      v ← elemAt adjusted (Param m);
      if isConst v then Ok bad
      else if boxedOperandPassed v then Ok bad
      else Ok (bad ++ [callgraph.Site edge])) as Hbody.
    { intros bad. rewrite (visitEdge_evaluated _ _ _ _ Hev). unfold sinkArg.
      by rewrite Hres. }
    split; [exact Hbody|]. intros out Hrun.
    assert (is_Ok (FindNonConstCalls DeleteSyntheticNodes cg qms)) as Hok
      by (by eexists).
    destruct (proj1 (FindNonConstCalls_is_Ok _ _ _) Hok m edge Hm Hedge)
      as [found Hfound].
    rewrite Hbody in Hfound.
    destruct (elemAt adjusted (Param m)) as [v| |] eqn:Hv; [|done..].
    exists v. split; [done|]. intros Hconst Hboxed.
    apply (FindNonConstCalls_elem _ _ _ _ _ Hrun).
    exists m, edge, v. repeat (split; [done|]). split; [|done].
    unfold sinkArg. by rewrite Hres. }
  split; [|split; [|split]].
  - intros Hlen.
    assert (resolveArgs m (ssa.Args (callgraph.Site edge))
            = Ok (drop 1 (ssa.Args (callgraph.Site edge)))) as Hres.
    { unfold resolveArgs. rewrite (add_one_in_range _ Hcount).
      rewrite (proj2 (Z.eqb_eq _ _) Hlen).
      destruct (ssa.Args (callgraph.Site edge)) as [|a args];
        [unfold len in Hlen; simpl in Hlen; lia|].
      done. }
    split; [exact Hres | by apply Hjudged].
  - intros Hlen.
    assert (resolveArgs m (ssa.Args (callgraph.Site edge))
            = Ok (ssa.Args (callgraph.Site edge))) as Hres.
    { unfold resolveArgs. rewrite (add_one_in_range _ Hcount).
      rewrite (proj2 (Z.eqb_neq _ _)) by lia.
      by rewrite (proj2 (Z.eqb_eq _ _) Hlen). }
    split; [exact Hres | by apply Hjudged].
  - intros Hne1 Hne.
    assert (resolveArgs m (ssa.Args (callgraph.Site edge))
            = Panic "arg count mismatch") as Hres.
    { unfold resolveArgs. rewrite (add_one_in_range _ Hcount).
      rewrite (proj2 (Z.eqb_neq _ _) Hne1).
      by rewrite (proj2 (Z.eqb_neq _ _) Hne). }
    assert (∀ bad, visitEdge (okFuncsOf qms) m bad edge
                   = Panic "arg count mismatch") as Hbody.
    { intros bad. rewrite (visitEdge_evaluated _ _ _ _ Hev). unfold sinkArg.
      by rewrite Hres. }
    split; [exact Hres|]. split; [exact Hbody|].
    by apply (visitEdge_panics _ _ _ m edge "arg count mismatch").
  - apply FindNonConstCalls_is_Ok.
Qed.

Lemma C4_argument_count_witness :
  (len (ssa.Args (callgraph.Site edgeConcat)) = ArgCount sinkQuery + 1
   ∧ (∀ bad, visitEdge (okFuncsOf sampleMethods) sinkQuery bad edgeConcat
             = Ok (bad ++ [callgraph.Site edgeConcat]))
   ∧ callgraph.Site edgeConcat
     ∈ [callgraph.Site edgeConcat; callgraph.Site edgeBoxedParam])
  ∧ (len (ssa.Args (callgraph.Site edgeLiteral)) = ArgCount sinkQuery + 1
     ∧ ∀ bad, visitEdge (okFuncsOf sampleMethods) sinkQuery bad edgeLiteral
              = Ok bad)
  ∧ (len (ssa.Args (callgraph.Site edgeBoxedParam)) = ArgCount sinkWhere
     ∧ (∀ bad, visitEdge (okFuncsOf sampleMethods) sinkWhere bad edgeBoxedParam
               = Ok (bad ++ [callgraph.Site edgeBoxedParam]))
     ∧ callgraph.Site edgeBoxedParam
       ∈ [callgraph.Site edgeConcat; callgraph.Site edgeBoxedParam])
  ∧ (len (ssa.Args (callgraph.Site edgeShort)) ≠ ArgCount sinkQuery + 1
     ∧ len (ssa.Args (callgraph.Site edgeShort)) ≠ ArgCount sinkQuery
     ∧ (∀ bad, visitEdge (okFuncsOf sampleMethods) sinkQuery bad edgeShort
               = Panic "arg count mismatch")
     ∧ is_Panic (FindNonConstCalls noSynthetic brokenGraph sampleMethods)).
Proof.
  assert (sinkQuery ∈ sampleMethods) as HQuery
    by (apply list_elem_of_In; simpl; tauto).
  assert (sinkWhere ∈ sampleMethods) as HWhere
    by (apply list_elem_of_In; simpl; tauto).
  assert (0 ≤ 2 < GoInt.max_int) as Hcount
    by (unfold GoInt.max_int; simpl; lia).
  split; [|split; [|split]].
  - destruct (C4_argument_count noSynthetic sampleGraph sampleMethods
                sinkQuery edgeConcat) as (Hdrop & _); [done| | |done|].
    + apply list_elem_of_In. vm_compute. tauto.
    + by apply sampleEvaluated.
    + destruct (Hdrop eq_refl) as (_ & Hbody & Hout).
      split; [reflexivity|]. split; [exact Hbody|].
      destruct (Hout _ sampleDetection) as (v & Hv & Hin).
      injection Hv as <-. by apply Hin.
  - destruct (C4_argument_count noSynthetic sampleGraph sampleMethods
                sinkQuery edgeLiteral) as (Hdrop & _); [done| | |done|].
    + apply list_elem_of_In. vm_compute. tauto.
    + by apply sampleEvaluated.
    + destruct (Hdrop eq_refl) as (_ & Hbody & _).
      split; [reflexivity | exact Hbody].
  - destruct (C4_argument_count noSynthetic sampleGraph sampleMethods
                sinkWhere edgeBoxedParam) as (_ & Hsame & _); [done| | |done|].
    + apply list_elem_of_In. vm_compute. tauto.
    + by apply sampleEvaluated.
    + destruct (Hsame eq_refl) as (_ & Hbody & Hout).
      split; [reflexivity|]. split; [exact Hbody|].
      destruct (Hout _ sampleDetection) as (v & Hv & Hin).
      injection Hv as <-. by apply Hin.
  - destruct (C4_argument_count noSynthetic brokenGraph sampleMethods
                sinkQuery edgeShort) as (_ & _ & Hother & _); [done| | |done|].
    + apply list_elem_of_In. vm_compute. tauto.
    + by apply sampleEvaluated.
    + assert (len (ssa.Args (callgraph.Site edgeShort))
              ≠ ArgCount sinkQuery + 1) as Hne1 by (vm_compute; congruence).
      assert (len (ssa.Args (callgraph.Site edgeShort))
              ≠ ArgCount sinkQuery) as Hne by (vm_compute; congruence).
      destruct (Hother Hne1 Hne) as (_ & Hbody & Hrun). done.
Defined.

(** The run on a graph with a one-argument call of the two-parameter
    [Query] ends in the panic. *)
Lemma brokenDetection :
  FindNonConstCalls noSynthetic brokenGraph sampleMethods
  = Panic "arg count mismatch".
Proof. vm_compute. reflexivity. Qed.

(** ** Callers inside the tracked packages *)

(** C8 (as amended).  In a finished run over a graph whose edges have as
    caller the function holding the call, an edge into the node of a
    tracked method whose caller's package path is in the catalog does not
    have its call site in the returned list.  The list of ignored files
    plays no part in the detection: a call site in such a file is returned
    like any other, and it is [CheckIssues], run on the positions of the
    returned sites, that marks its issue ignored. *)
Theorem C8_internal_callers DeleteSyntheticNodes cg qms bad :
  FindNonConstCalls DeleteSyntheticNodes cg qms = Ok bad →
  (∀ m edge, m ∈ qms → edge ∈ incoming DeleteSyntheticNodes cg (SSA m) →
     callgraph.Caller edge = ssa.Parent (callgraph.Site edge)) →
  (∀ m edge path,
     m ∈ qms → edge ∈ incoming DeleteSyntheticNodes cg (SSA m) →
     ssa.Pkg (callgraph.Caller edge) = Some path → path ∈ trackedPackages →
     callgraph.Site edge ∉ bad)
  ∧ (∀ fs issues s,
       CheckIssues fs (positionsOf bad) (Ok issues) → s ∈ bad →
       validLine (ssa.Pos s) → fileIsIgnored (Filename (ssa.Pos s)) = true →
       {| statement := ssa.Pos s; ignored := true |} ∈ issues).
Proof.
  intros Hrun Hwf. split.
  - intros m edge path Hm Hedge Hpkg Hpath Hin.
    apply (FindNonConstCalls_elem _ _ _ _ _ Hrun) in Hin
      as (m' & edge' & v & Hm' & Hedge' & Hsite & (_ & path' & Hpkg' & Hint) & _).
    rewrite (Hwf _ _ Hm' Hedge'), Hsite, <- (Hwf _ _ Hm Hedge), Hpkg in Hpkg'.
    apply isInternalSQLPkg_true in Hpath. congruence.
  - intros fs issues s Hcheck Hs Hv Hfile.
    apply (CheckIssues_ignored_file fs (positionsOf bad)); [done| |done..].
    unfold positionsOf. apply list_elem_of_fmap. eauto.
Qed.

Lemma C8_internal_callers_witness :
  (∀ m edge path,
     m ∈ sampleMethods → edge ∈ incoming noSynthetic sampleGraph (SSA m) →
     ssa.Pkg (callgraph.Caller edge) = Some path → path ∈ trackedPackages →
     callgraph.Site edge
     ∉ [callgraph.Site edgeConcat; callgraph.Site edgeBoxedParam])
  ∧ (∀ fs issues s,
       CheckIssues fs
         (positionsOf [callgraph.Site edgeConcat; callgraph.Site edgeBoxedParam])
         (Ok issues) →
       s ∈ [callgraph.Site edgeConcat; callgraph.Site edgeBoxedParam] →
       validLine (ssa.Pos s) → fileIsIgnored (Filename (ssa.Pos s)) = true →
       {| statement := ssa.Pos s; ignored := true |} ∈ issues).
Proof.
  apply (C8_internal_callers noSynthetic sampleGraph sampleMethods).
  - exact sampleDetection.
  - intros m edge Hm Hedge. apply list_elem_of_In in Hm. simpl in Hm.
    destruct Hm as [<-|[<-|[<-|[]]]]; apply list_elem_of_In in Hedge;
      vm_compute in Hedge;
      repeat (destruct Hedge as [<-|Hedge]; [reflexivity|]); destruct Hedge.
Defined.

(** The pool wrapper of pgx: its file is on the list of ignored files,
    its package [pgxpool] is not in the catalog, and the detector returns
    its call of the tracked [Query]. *)
Lemma C8_counterexample :
  FindNonConstCalls noSynthetic poolGraph [sinkPgxQuery] = Ok [sitePool]
  ∧ sinkPgxQuery ∈ [sinkPgxQuery]
  ∧ edgePool ∈ incoming noSynthetic poolGraph (SSA sinkPgxQuery)
  ∧ callgraph.Site edgePool = sitePool
  ∧ fileIsIgnored (Filename (ssa.Pos sitePool)) = true
  ∧ ssa.Pkg (callgraph.Caller edgePool) = Some "github.com/jackc/pgx/v4/pgxpool"
  ∧ sitePool ∈ [sitePool]
  ∧ CheckIssues poolFS (positionsOf [sitePool])
      (Ok [{| statement := ssa.Pos sitePool; ignored := true |}]).
Proof.
  split; [vm_compute; reflexivity|].
  split; [by left|].
  split; [apply list_elem_of_In; vm_compute; tauto|].
  split; [reflexivity|]. split; [vm_compute; reflexivity|].
  split; [reflexivity|]. split; [by left|].
  assert (CheckIssues_exec poolFS (positionsOf [sitePool])
          = Ok [{| statement := ssa.Pos sitePool; ignored := true |}]) as <-
    by (vm_compute; reflexivity).
  apply CheckIssues_exec_sound.
Qed.

(** * Further properties *)

(** ** The list the detector returns *)

Lemma visitEdge_flagsEdge okFuncs m bad edge out :
  visitEdge okFuncs m bad edge = Ok out →
  out = bad ++ (if flagsEdge okFuncs m edge then [callgraph.Site edge] else []).
Proof.
  rewrite visitEdge_acc. unfold flagsEdge.
  destruct (visitEdge okFuncs m [] edge) as [found| |] eqn:E; simpl; [|done..].
  intros [= <-]. by apply visitEdge_found in E as [->|(-> & _)].
Qed.

Lemma visitEdges_flaggedSites okFuncs m edges bad out :
  visitEdges okFuncs m edges bad = Ok out →
  out = bad ++ flaggedSites okFuncs m edges.
Proof.
  unfold flaggedSites. revert bad out.
  induction edges as [|edge edges IH]; intros bad out; simpl.
  - intros [= <-]. by rewrite app_nil_r.
  - destruct (visitEdge okFuncs m bad edge) as [bad'| |] eqn:E; simpl;
      [|done..].
    intros Hout. apply IH in Hout as ->.
    apply visitEdge_flagsEdge in E as ->.
    destruct (flagsEdge okFuncs m edge) eqn:Hf.
    + rewrite filter_cons_True by done. by rewrite <- app_assoc.
    + rewrite filter_cons_False by (by rewrite Hf). by rewrite app_nil_r.
Qed.

Lemma visitMethods_flaggedSites okFuncs g qms bad out :
  visitMethods okFuncs g qms bad = Ok out →
  out = bad ++ concat ((λ m, flaggedSites okFuncs m
                               (callgraph.In (callgraph.CreateNode g (SSA m)).2))
                       <$> qms).
Proof.
  revert g bad out. induction qms as [|m qms IH]; intros g bad out; simpl.
  - intros [= <-]. by rewrite app_nil_r.
  - destruct (callgraph.CreateNode g (SSA m)) as [g' node] eqn:Hnode.
    destruct (visitEdges okFuncs m (callgraph.In node) bad) as [bad'| |] eqn:E;
      simpl; [|done..].
    intros Hout. apply IH in Hout as ->.
    apply visitEdges_flaggedSites in E as ->.
    assert (g' = (callgraph.CreateNode g (SSA m)).1) as -> by by rewrite Hnode.
    rewrite <- app_assoc. do 2 f_equal. simpl. f_equal.
    apply list_fmap_ext. intros _ m' _. by rewrite CreateNode_In.
Qed.

(** X1.  A finished run returns, for the tracked methods in the order of
    [qms] and for the incoming edges of each node in their order, the site
    of every edge the loop flags: one entry for each flagged pair of a
    method and an edge, so that a site flagged at several edges, or under a
    method listed twice, is returned as many times. *)
Theorem X1_result_in_loop_order DeleteSyntheticNodes cg qms bad :
  FindNonConstCalls DeleteSyntheticNodes cg qms = Ok bad →
  bad = concat ((λ m, flaggedSites (okFuncsOf qms) m
                        (incoming DeleteSyntheticNodes cg (SSA m))) <$> qms).
Proof. intros Hrun. by apply visitMethods_flaggedSites in Hrun. Qed.

Lemma X1_result_in_loop_order_witness :
  [callgraph.Site edgeConcat; callgraph.Site edgeBoxedParam]
  = concat ((λ m, flaggedSites (okFuncsOf sampleMethods) m
                    (incoming noSynthetic sampleGraph (SSA m)))
            <$> sampleMethods).
Proof.
  apply (X1_result_in_loop_order noSynthetic sampleGraph sampleMethods).
  exact sampleDetection.
Defined.

(** X2.  Every call site a finished run returns lies outside the SSA
    functions of the tracked methods and sits on an edge into the node of a
    tracked method whose caller's package is not in the catalog and whose
    argument at the method's parameter position is neither a constant nor
    passed over as a boxed operand. *)
Theorem X2_returned_sites_are_flagged DeleteSyntheticNodes cg qms bad s :
  FindNonConstCalls DeleteSyntheticNodes cg qms = Ok bad → s ∈ bad →
  (∀ m, m ∈ qms → SSA m ≠ Some (ssa.Parent s))
  ∧ ∃ m edge path v,
      m ∈ qms ∧ edge ∈ incoming DeleteSyntheticNodes cg (SSA m)
      ∧ callgraph.Site edge = s
      ∧ ssa.Pkg (callgraph.Caller edge) = Some path
      ∧ (path ∉ trackedPackages)
      ∧ sinkArg m edge = Ok v ∧ isConst v = false
      ∧ boxedOperandPassed v = false.
Proof.
  intros Hrun Hs.
  apply (FindNonConstCalls_elem _ _ _ _ _ Hrun) in Hs
    as (m & edge & v & Hm & Hedge & <- & (Hok & path & Hpkg & Hint) & Hv & Hc & Hb).
  split.
  - intros m' Hm' Heq. apply Hok, okFuncsOf_elem. eauto.
  - exists m, edge, path, v. repeat (split; [done|]). split; [|done].
    intros Hin%isInternalSQLPkg_true. congruence.
Qed.

Lemma X2_returned_sites_are_flagged_witness :
  (∀ m, m ∈ sampleMethods →
     SSA m ≠ Some (ssa.Parent (callgraph.Site edgeBoxedParam)))
  ∧ ∃ m edge path v,
      m ∈ sampleMethods ∧ edge ∈ incoming noSynthetic sampleGraph (SSA m)
      ∧ callgraph.Site edge = callgraph.Site edgeBoxedParam
      ∧ ssa.Pkg (callgraph.Caller edge) = Some path
      ∧ (path ∉ trackedPackages)
      ∧ sinkArg m edge = Ok v ∧ isConst v = false
      ∧ boxedOperandPassed v = false.
Proof.
  apply (X2_returned_sites_are_flagged noSynthetic sampleGraph sampleMethods
           [callgraph.Site edgeConcat; callgraph.Site edgeBoxedParam]).
  - exact sampleDetection.
  - apply list_elem_of_In. simpl. tauto.
Defined.

(** X3.  When no tracked method has an incoming edge in the graph (no
    method is tracked, no node exists for their functions, or the nodes
    have no callers), the run finishes and returns the empty list. *)
Theorem X3_no_incoming_edges DeleteSyntheticNodes cg qms :
  (∀ m, m ∈ qms → incoming DeleteSyntheticNodes cg (SSA m) = []) →
  FindNonConstCalls DeleteSyntheticNodes cg qms = Ok [].
Proof.
  intros Hnone.
  assert (is_Ok (FindNonConstCalls DeleteSyntheticNodes cg qms)) as [bad Hrun].
  { apply FindNonConstCalls_is_Ok. intros m edge Hm Hedge.
    rewrite (Hnone m Hm) in Hedge. by apply elem_of_nil in Hedge. }
  rewrite Hrun. f_equal. destruct bad as [|s bad]; [done|].
  assert (s ∈ s :: bad) as Hs by by left.
  apply (FindNonConstCalls_elem _ _ _ _ _ Hrun) in Hs
    as (m & edge & _ & Hm & Hedge & _).
  rewrite (Hnone m Hm) in Hedge. by apply elem_of_nil in Hedge.
Qed.

Lemma X3_no_incoming_edges_witness :
  FindNonConstCalls noSynthetic sampleGraph [sinkPgxQuery] = Ok [].
Proof.
  apply (X3_no_incoming_edges noSynthetic sampleGraph [sinkPgxQuery]).
  intros m Hm. apply list_elem_of_singleton in Hm as ->.
  vm_compute. reflexivity.
Defined.

(** ** When the detector finishes *)

Lemma elemAt_is_Ok {A} (s : list A) i :
  0 ≤ i < len s → is_Ok (elemAt s i).
Proof.
  intros Hi. destruct (elemAt s i) as [x|e|msg] eqn:E; [by eexists| |].
  - by apply elemAt_not_Err in E.
  - assert (is_Panic (elemAt s i)) as Hp by (by eexists).
    apply elemAt_Panic in Hp. lia.
Qed.

Lemma sinkArg_is_Ok m edge :
  0 ≤ Param m < ArgCount m → ArgCount m < GoInt.max_int →
  is_Ok (sinkArg m edge) ↔
    len (ssa.Args (callgraph.Site edge)) = ArgCount m
    ∨ len (ssa.Args (callgraph.Site edge)) = ArgCount m + 1.
Proof.
  intros Hparam Hcount. unfold sinkArg, resolveArgs.
  rewrite add_one_in_range by lia.
  destruct (Z.eqb_spec (len (ssa.Args (callgraph.Site edge))) (ArgCount m + 1))
    as [Hlen|Hne1].
  - destruct (ssa.Args (callgraph.Site edge)) as [|a args] eqn:Hargs;
      [unfold len in Hlen; simpl in Hlen; lia|].
    simpl. split; [by right|]. intros _. apply elemAt_is_Ok.
    unfold len in *. simpl in Hlen. lia.
  - destruct (Z.eqb_spec (len (ssa.Args (callgraph.Site edge))) (ArgCount m))
      as [Hlen|Hne]; simpl.
    + split; [by left|]. intros _. apply elemAt_is_Ok. lia.
    + split; [by intros [? ?] | lia].
Qed.

Lemma visitEdge_sinkArg_is_Ok okFuncs m edge :
  evaluated okFuncs edge →
  is_Ok (visitEdge okFuncs m [] edge) ↔ is_Ok (sinkArg m edge).
Proof.
  intros Hev. rewrite (visitEdge_evaluated _ _ _ _ Hev).
  destruct (sinkArg m edge) as [v| |]; simpl.
  - split; [by eexists|]. intros _.
    destruct (isConst v), (boxedOperandPassed v); by eexists.
  - split; by intros [? ?].
  - split; by intros [? ?].
Qed.

(** X4.  With tracked methods whose records satisfy
    [0 <= Param < ArgCount] (as those [FindQueryMethods] builds do), a run
    finishes exactly when every edge it does not pass over on account of
    [okFuncs] has a caller with a package and, unless that package is in
    the catalog, as many arguments as the method has parameters, or one
    more; otherwise it panics.  No index into the arguments goes out of
    range. *)
Theorem X4_detector_finishes DeleteSyntheticNodes cg qms :
  (∀ m, m ∈ qms → 0 ≤ Param m < ArgCount m ∧ ArgCount m < GoInt.max_int) →
  (is_Ok (FindNonConstCalls DeleteSyntheticNodes cg qms) ↔
     ∀ m edge,
       m ∈ qms → edge ∈ incoming DeleteSyntheticNodes cg (SSA m) →
       (∀ m', m' ∈ qms → SSA m' ≠ Some (ssa.Parent (callgraph.Site edge))) →
       ∃ path, ssa.Pkg (callgraph.Caller edge) = Some path
         ∧ (path ∈ trackedPackages
            ∨ len (ssa.Args (callgraph.Site edge)) = ArgCount m
            ∨ len (ssa.Args (callgraph.Site edge)) = ArgCount m + 1))
  ∧ (¬ is_Ok (FindNonConstCalls DeleteSyntheticNodes cg qms) →
     is_Panic (FindNonConstCalls DeleteSyntheticNodes cg qms)).
Proof.
  intros Hwf. split.
  - rewrite FindNonConstCalls_is_Ok. split.
    + intros Hall m edge Hm Hedge Hnot.
      destruct (Hwf m Hm) as [Hparam Hcount].
      assert (Some (ssa.Parent (callgraph.Site edge)) ∉ okFuncsOf qms) as Hok.
      { intros (m' & Hm' & Heq)%okFuncsOf_elem. by eapply Hnot. }
      specialize (Hall m edge Hm Hedge).
      destruct (ssa.Pkg (callgraph.Caller edge)) as [path|] eqn:Hpkg.
      * exists path. split; [done|].
        destruct (isInternalSQLPkg path) eqn:Hint;
          [left; by apply isInternalSQLPkg_true|].
        right. apply (sinkArg_is_Ok m edge Hparam Hcount).
        apply (visitEdge_sinkArg_is_Ok (okFuncsOf qms)); [|done].
        split; [done | eauto].
      * destruct Hall as [found Hfound]. unfold visitEdge, callerPkgPath in Hfound.
        rewrite bool_decide_eq_false_2, Hpkg in Hfound by done. done.
    + intros Hall m edge Hm Hedge.
      destruct (Hwf m Hm) as [Hparam Hcount].
      destruct (decide (Some (ssa.Parent (callgraph.Site edge)) ∈ okFuncsOf qms))
        as [Hin|Hok].
      { rewrite visitEdge_in_okFuncs by done. by eexists. }
      destruct (Hall m edge Hm Hedge) as (path & Hpkg & Hcases).
      { intros m' Hm' Heq. apply Hok, okFuncsOf_elem. eauto. }
      destruct (isInternalSQLPkg path) eqn:Hint.
      { apply isInternalSQLPkg_true in Hint.
        rewrite (visitEdge_internal _ _ _ _ path) by done. by eexists. }
      apply visitEdge_sinkArg_is_Ok; [split; [done | eauto]|].
      apply (sinkArg_is_Ok m edge Hparam Hcount).
      destruct Hcases as [Hin|?]; [|done].
      apply isInternalSQLPkg_true in Hin. congruence.
  - intros Hnot.
    by destruct (FindNonConstCalls_outcome DeleteSyntheticNodes cg qms).
Qed.

Lemma sampleMethods_records m :
  m ∈ sampleMethods → 0 ≤ Param m < ArgCount m ∧ ArgCount m < GoInt.max_int.
Proof.
  intros Hm. apply list_elem_of_In in Hm. simpl in Hm.
  unfold GoInt.max_int.
  destruct Hm as [<-|[<-|[<-|[]]]]; simpl; lia.
Qed.

Lemma X4_detector_finishes_witness :
  (is_Ok (FindNonConstCalls noSynthetic brokenGraph sampleMethods) ↔
     ∀ m edge,
       m ∈ sampleMethods → edge ∈ incoming noSynthetic brokenGraph (SSA m) →
       (∀ m', m' ∈ sampleMethods →
          SSA m' ≠ Some (ssa.Parent (callgraph.Site edge))) →
       ∃ path, ssa.Pkg (callgraph.Caller edge) = Some path
         ∧ (path ∈ trackedPackages
            ∨ len (ssa.Args (callgraph.Site edge)) = ArgCount m
            ∨ len (ssa.Args (callgraph.Site edge)) = ArgCount m + 1))
  ∧ (¬ is_Ok (FindNonConstCalls noSynthetic brokenGraph sampleMethods) →
     is_Panic (FindNonConstCalls noSynthetic brokenGraph sampleMethods)).
Proof.
  apply (X4_detector_finishes noSynthetic brokenGraph sampleMethods).
  exact sampleMethods_records.
Defined.

(** ** Runs of [CheckIssues]: empty input, unreadable files, order *)

Lemma iteration_empty visited :
  iteration (groupByFile []) visited → visited = [].
Proof.
  intros (order & Hperm & Hall). unfold groupByFile in Hperm. simpl in Hperm.
  rewrite map_to_list_empty in Hperm. apply Permutation_nil_r in Hperm as ->.
  by apply Forall2_nil_inv_l in Hall.
Qed.

(** X5.  Without positions [CheckIssues] reads no file and returns the
    empty list of issues, whatever the file system holds. *)
Theorem X5_no_positions fs r :
  CheckIssues fs [] r → r = Ok [].
Proof. intros [visited Hit]. by rewrite (iteration_empty _ Hit). Qed.

Lemma X5_no_positions_witness :
  CheckIssues_exec sampleFS [] = Ok [].
Proof.
  apply (X5_no_positions sampleFS (CheckIssues_exec sampleFS [])).
  apply CheckIssues_exec_sound.
Defined.

Lemma checkLines_Panic fileIgnored fileLines ls acc msg :
  checkLines fileIgnored fileLines ls acc = Panic msg →
  ∃ p, p ∈ ls ∧ checkLine fileIgnored fileLines p = Panic msg.
Proof.
  revert acc. induction ls as [|p ls IH]; intros acc; simpl; [done|].
  destruct (checkLine fileIgnored fileLines p) as [iss| |] eqn:E; simpl.
  - intros (q & ? & ?)%IH. exists q. split; [by right | done].
  - done.
  - intros [= <-]. exists p. split; [by left | done].
Qed.

Lemma checkFiles_Panic fs vs acc msg :
  checkFiles fs vs acc = Panic msg →
  ∃ v p data, v ∈ vs ∧ p ∈ v.2 ∧ fs v.1 = Some data
    ∧ checkLine (fileIsIgnored v.1) (Split data newline) p = Panic msg.
Proof.
  revert acc. induction vs as [|[file ls] vs IH]; intros acc; simpl; [done|].
  unfold checkFile, ReadFile. destruct (fs file) as [data|] eqn:Efs; simpl;
    [|done].
  destruct (checkLines (fileIsIgnored file) (Split data newline) ls acc)
    as [out| |] eqn:E; simpl.
  - intros (v & p & d & ? & ?)%IH. exists v, p, d. split; [by right | done].
  - done.
  - intros [= <-]. apply checkLines_Panic in E as (p & ? & ?).
    exists (file, ls), p, data. split; [by left | done].
Qed.

Lemma CheckIssues_Panic fs lines msg :
  CheckIssues fs lines (Panic msg) →
  ∃ p, p ∈ lines ∧ verdictOf fs p = Panic msg.
Proof.
  inversion 1 as [visited Hit Heq].
  apply checkFiles_Panic in Heq as (v & p & data & Hv & Hp & Hd & Hpanic).
  destruct (iteration_visited _ _ _ Hit Hv) as [_ Hiff].
  apply Hiff in Hp as [Hp Hf]. exists p. split; [done|].
  by rewrite (verdictOf_in_group fs v data).
Qed.

(** X6.  A file that cannot be read spoils the whole run: when the file
    of one position is unreadable no run returns a list of issues, not
    even for the positions in readable files.  The run then returns the
    read error unless a position of a readable file makes it panic
    first; and a run returns an error only if some position's file is
    unreadable. *)
Theorem X6_unreadable_file fs lines r p :
  CheckIssues fs lines r → p ∈ lines → fs (Filename p) = None →
  ¬ is_Ok r
  ∧ ((∀ q, q ∈ lines → ¬ is_Panic (verdictOf fs q)) → ∃ e, r = Err e).
Proof.
  intros Hrun Hp Hnone. split.
  - intros Hok.
    destruct (proj1 (CheckIssues_is_Ok _ _ _ Hrun) Hok p Hp) as [iss Hiss].
    unfold verdictOf, ReadFile in Hiss. by rewrite Hnone in Hiss.
  - intros Hnopanic. destruct r as [issues|e|msg].
    + assert (is_Ok (Ok issues)) as Hok by (by eexists).
      destruct (proj1 (CheckIssues_is_Ok _ _ _ Hrun) Hok p Hp) as [iss Hiss].
      unfold verdictOf, ReadFile in Hiss. by rewrite Hnone in Hiss.
    + eauto.
    + apply CheckIssues_Panic in Hrun as (q & Hq & Hpanic).
      destruct (Hnopanic q Hq). by eexists.
Qed.

Lemma X6_unreadable_file_witness :
  ¬ is_Ok (CheckIssues_exec sampleFS [posAt "main.go" 1; posAt "gone.go" 1])
  ∧ ((∀ q, q ∈ [posAt "main.go" 1; posAt "gone.go" 1] →
        ¬ is_Panic (verdictOf sampleFS q)) →
     ∃ e, CheckIssues_exec sampleFS [posAt "main.go" 1; posAt "gone.go" 1]
          = Err e).
Proof.
  apply (X6_unreadable_file sampleFS [posAt "main.go" 1; posAt "gone.go" 1]
           _ (posAt "gone.go" 1)).
  - apply CheckIssues_exec_sound.
  - apply list_elem_of_In. simpl. tauto.
  - reflexivity.
Defined.

Lemma elem_of_concat {A} (x : A) (ls : list (list A)) :
  x ∈ concat ls ↔ ∃ l, l ∈ ls ∧ x ∈ l.
Proof.
  induction ls as [|l ls IH]; simpl.
  - split; [by intros ?%elem_of_nil | by intros (? & ?%elem_of_nil & _)].
  - rewrite elem_of_app, IH. split.
    + intros [?|(l' & ? & ?)].
      * exists l. split; [by left | done].
      * exists l'. split; [by right | done].
    + intros (l' & [->|?]%elem_of_cons & ?); [by left | right; eauto].
Qed.

Lemma StronglySorted_weaken {A} (R R' : A → A → Prop) l :
  (∀ x y, R x y → R' x y) → StronglySorted R l → StronglySorted R' l.
Proof.
  intros Himpl. induction 1 as [|x l _ IH Hall]; constructor; [done|].
  eapply Forall_impl; [exact Hall | auto].
Qed.

Lemma groups_ascendingInFile (vs : list (string * list Position)) :
  NoDup vs.*1 →
  (∀ v, v ∈ vs → StronglySorted lineOrder v.2
                 ∧ ∀ p, p ∈ v.2 → Filename p = v.1) →
  StronglySorted ascendingInFile (concat vs.*2).
Proof.
  induction vs as [|v vs IH]; intros Hnodup Hall; simpl; [constructor|].
  apply NoDup_cons in Hnodup as [Hfresh Hnodup].
  apply StronglySorted_app. split; [|split].
  - intros a b Ha Hb Hsame. exfalso. apply Hfresh.
    apply elem_of_concat in Hb as (l & Hl & Hb).
    apply list_elem_of_fmap in Hl as (v' & -> & Hv').
    destruct (Hall v) as [_ Hfile]; [by left|].
    destruct (Hall v') as [_ Hfile']; [by right|].
    apply list_elem_of_fmap. exists v'. split; [|done].
    rewrite <- (Hfile a Ha), <- (Hfile' b Hb). done.
  - destruct (Hall v) as [Hsorted _]; [by left|].
    eapply StronglySorted_weaken; [|exact Hsorted].
    intros a b Hab _. exact Hab.
  - apply IH; [done|]. intros v' Hv'. apply Hall. by right.
Qed.

Lemma iteration_keys lines visited :
  iteration (groupByFile lines) visited → NoDup visited.*1.
Proof.
  intros (order & Hperm & Hall).
  assert (visited.*1 = order.*1) as ->.
  { clear Hperm. induction Hall as [|g v order visited [Hf _] _ IH]; [done|].
    by rewrite !fmap_cons, Hf, IH. }
  rewrite Hperm. apply NoDup_fst_map_to_list.
Qed.

Lemma iteration_sorted lines visited v :
  iteration (groupByFile lines) visited → v ∈ visited →
  StronglySorted lineOrder v.2.
Proof.
  intros (order & _ & Hall) [i Hi]%list_elem_of_lookup.
  by destruct (Forall2_lookup_r _ _ _ _ _ Hall Hi) as (g & _ & _ & _ & ?).
Qed.

(** X7.  In the list a finished run returns, the issues of one file come
    in ascending line order: of two issues in the same file, the one
    listed first is on the same or an earlier line, in whatever order the
    positions were given and whatever order the files are visited in. *)
Theorem X7_issues_ascend_within_file fs lines issues :
  CheckIssues fs lines (Ok issues) →
  StronglySorted ascendingInFile (statement <$> issues).
Proof.
  inversion 1 as [visited Hit Heq].
  apply checkFiles_Ok in Heq as (ress & Hall & ->). simpl.
  rewrite (checkFiles_statements _ _ _ Hall).
  apply groups_ascendingInFile; [by eapply iteration_keys|].
  intros v Hv. split; [by eapply iteration_sorted|].
  intros p Hp. by apply (iteration_visited _ _ _ Hit Hv).
Qed.

Lemma X7_issues_ascend_within_file_witness :
  StronglySorted ascendingInFile (statement <$> sampleIssues).
Proof.
  apply (X7_issues_ascend_within_file sampleFS sampleLines sampleIssues).
  exact sampleRun.
Defined.

(** ** The sink resolver: no match, failed type assertion *)

Lemma FuncHasQuery_from_false names params i n :
  FuncHasQuery_from names params i = (n, false) ↔
  n = 0 ∧ ∀ v, v ∈ params → types.Name v ∉ names.
Proof.
  revert i. induction params as [|v params IH]; intros i; simpl.
  - split.
    + intros [= <-]. split; [done|]. by intros v ?%elem_of_nil.
    + by intros [-> _].
  - destruct (matchesParamName (types.Name v) names) eqn:E.
    + apply matchesParamName_true in E. split; [done|].
      intros [_ Hall]. destruct (Hall v); [by left | done].
    + apply matchesParamName_false in E. rewrite IH. split.
      * intros [-> Hall]. split; [done|].
        intros w [->|?]%elem_of_cons; [done | by apply Hall].
      * intros [-> Hall]. split; [done|]. intros w ?. apply Hall. by right.
Qed.

(** X8.  [FuncHasQuery] answers [ok = false] exactly when no parameter of
    the signature bears one of the sensitive names, and the offset it
    returns is then 0; so the offset 0 alone does not tell a match at the
    first parameter from no match at all. *)
Theorem X8_no_sensitive_parameter pkg s n :
  FuncHasQuery pkg s = (n, false) ↔
  n = 0 ∧ ∀ v, v ∈ types.Params s → types.Name v ∉ paramNames pkg.
Proof. apply FuncHasQuery_from_false. Qed.

Lemma scanNames_not_Err pkg scope ssa names acc e :
  scanNames pkg scope ssa names acc ≠ Err e.
Proof.
  revert acc. induction names as [|name names IH]; intros acc; simpl; [done|].
  destruct (types.Lookup scope name) as [o|]; [|done].
  destruct (negb (types.Exported o)); [apply IH|].
  destruct (types.Kind o); try apply IH.
  destruct (types.TypeOf o); [apply IH | done].
Qed.

Lemma scanNames_is_Ok_inv pkg scope ssa names acc name o :
  is_Ok (scanNames pkg scope ssa names acc) →
  name ∈ names → types.Lookup scope name = Some o →
  types.Exported o = true → types.Kind o = types.TypeName →
  ∃ n, types.TypeOf o = types.NamedType n.
Proof.
  revert acc. induction names as [|name' names IH]; intros acc Hok Hin Ho Hexp Hk.
  - by apply elem_of_nil in Hin.
  - simpl in Hok. destruct (types.Lookup scope name') as [o'|] eqn:Ho';
      [|by destruct Hok].
    apply elem_of_cons in Hin as [->|Hin].
    + assert (o' = o) as -> by congruence.
      rewrite Hexp, Hk in Hok. simpl in Hok.
      destruct (types.TypeOf o) as [n|t]; [eauto | by destruct Hok].
    + destruct (negb (types.Exported o')); [by eapply IH|].
      destruct (types.Kind o'); try (by eapply IH).
      destruct (types.TypeOf o'); [by eapply IH | by destruct Hok].
Qed.

Lemma names_named_or_not (scope : types.Scope) (names : list string) :
  (∀ name o, name ∈ names → types.Lookup scope name = Some o →
     types.Exported o = true → types.Kind o = types.TypeName →
     ∃ n, types.TypeOf o = types.NamedType n)
  ∨ (∃ name o t, name ∈ names ∧ types.Lookup scope name = Some o
       ∧ types.Exported o = true ∧ types.Kind o = types.TypeName
       ∧ types.TypeOf o = types.OtherType t).
Proof.
  induction names as [|name names [IH|(name' & o & t & Hin & Hrest)]].
  - left. by intros name o ?%elem_of_nil.
  - destruct (types.Lookup scope name) as [o|] eqn:Ho.
    + assert ((types.Exported o = true → types.Kind o = types.TypeName →
               ∃ n, types.TypeOf o = types.NamedType n)
              ∨ ∃ t, types.Exported o = true ∧ types.Kind o = types.TypeName
                     ∧ types.TypeOf o = types.OtherType t) as [Hgood|Hbad].
      { destruct (types.TypeOf o) as [n|t]; [left; eauto|].
        destruct (types.Exported o); [|left; done].
        destruct (types.Kind o); (right; by eauto) || (left; done). }
      * left. intros name' o' [->|Hin]%elem_of_cons Ho' Hexp' Hk'.
        -- assert (o' = o) as -> by congruence. by apply Hgood.
        -- by apply (IH name' o').
      * destruct Hbad as (t & ? & ? & ?). right. exists name, o, t.
        split; [by left | done].
    + left. intros name' o' [->|Hin]%elem_of_cons Ho' Hexp' Hk'; [congruence|].
      by apply (IH name' o').
  - right. exists name', o, t. split; [by right | done].
Qed.

(** X9.  [FindQueryMethods] never returns an error value; it panics, on
    the assertion of [o.Type()] to [*types.Named], exactly when the scope binds
    an exported type name to a type that is not a [*types.Named], and
    this whatever the catalog entry and whether or not any method would
    match. *)
Theorem X9_scan_panics_on_unnamed_type pkg sql ssa :
  (is_Panic (FindQueryMethods pkg sql ssa) ↔
     ∃ name o t,
       name ∈ types.Names (types.PkgScope sql)
       ∧ types.Lookup (types.PkgScope sql) name = Some o
       ∧ types.Exported o = true ∧ types.Kind o = types.TypeName
       ∧ types.TypeOf o = types.OtherType t)
  ∧ (∀ e, FindQueryMethods pkg sql ssa ≠ Err e).
Proof.
  split; [|intros e; apply scanNames_not_Err].
  unfold FindQueryMethods. split.
  - intros [msg Hpanic].
    destruct (names_named_or_not (types.PkgScope sql)
                (types.Names (types.PkgScope sql))) as [Hnamed|Hbad]; [|done].
    destruct (scanNames_is_Ok pkg (types.PkgScope sql) ssa
                (types.Names (types.PkgScope sql)) []) as [? ?];
      [ | apply Lookup_Names | congruence].
    exact Hnamed.
  - intros (name & o & t & Hin & Ho & Hexp & Hk & Ht).
    destruct (scanNames pkg (types.PkgScope sql) ssa
                (types.Names (types.PkgScope sql)) []) as [ms|e|msg] eqn:E.
    + destruct (scanNames_is_Ok_inv pkg (types.PkgScope sql) ssa
                  (types.Names (types.PkgScope sql)) [] name o) as [n Hn];
        [rewrite E; by eexists | done..|congruence].
    + by apply scanNames_not_Err in E.
    + by eexists.
Qed.

(** ** The helpers of [main] *)

Lemma getImports_elem p path :
  path ∈ getImports p ↔
  ∃ info, info ∈ loader.AllPackages p ∧ loader.Importable info = true
          ∧ types.Path (loader.Pkg info) = path.
Proof.
  unfold getImports.
  assert (∀ (l : list loader.PackageInfo) (acc : gset string),
            path ∈ foldl (λ pkgs pkg,
                            if loader.Importable pkg
                            then {[ types.Path (loader.Pkg pkg) ]} ∪ pkgs
                            else pkgs) acc l
            ↔ path ∈ acc
              ∨ ∃ info, info ∈ l ∧ loader.Importable info = true
                        ∧ types.Path (loader.Pkg info) = path) as Hgen.
  { induction l as [|info l IH]; intros acc; simpl.
    - split; [by left | intros [?|(? & ?%elem_of_nil & _)]; done].
    - rewrite IH. split.
      + intros [Hacc|(info' & ? & ?)].
        * destruct (loader.Importable info) eqn:Himp; [|by left].
          apply elem_of_union in Hacc as [->%elem_of_singleton|?]; [|by left].
          right. exists info. split; [by left | done].
        * right. exists info'. split; [by right | done].
      + intros [?|(info' & [->|?]%elem_of_cons & Himp & Hpath)].
        * left. destruct (loader.Importable info); [|done].
          apply elem_of_union. by right.
        * left. rewrite Himp. apply elem_of_union. left.
          by apply elem_of_singleton.
        * right. eauto. }
  rewrite Hgen. split; [intros [?%elem_of_empty|?]; done | by right].
Qed.

(** X10.  [getImports] holds exactly the paths of the importable
    packages of the program, and nothing else; the order in which the
    range over [AllPackages] visits the packages does not change the
    set. *)
Theorem X10_imports_are_importable_paths p :
  (∀ path, path ∈ getImports p ↔
     ∃ info, info ∈ loader.AllPackages p ∧ loader.Importable info = true
             ∧ types.Path (loader.Pkg info) = path)
  ∧ (∀ p', loader.AllPackages p' ≡ₚ loader.AllPackages p →
       getImports p' = getImports p).
Proof.
  split; [apply getImports_elem|].
  intros p' Hperm. apply set_eq. intros path. rewrite !getImports_elem.
  by setoid_rewrite Hperm.
Qed.

Lemma FindMains_go_spec s ips mains :
  (∀ info, info ∈ ips → is_Some (ssautil.PackageOf s (loader.Pkg info))) →
  FindMains_go s ips mains = Ok (mains ++ omap (mainOf s) ips).
Proof.
  revert mains. induction ips as [|info ips IH]; intros mains Hall.
  - simpl. by rewrite app_nil_r.
  - assert (omap (mainOf s) (info :: ips) =
            match mainOf s info with
            | Some y => y :: omap (mainOf s) ips
            | None => omap (mainOf s) ips
            end) as -> by reflexivity.
    cbn [FindMains_go]. unfold mainOf at 1.
    destruct (Hall info) as [ssaPkg ->]; [by left|].
    assert (∀ info', info' ∈ ips →
              is_Some (ssautil.PackageOf s (loader.Pkg info'))) as Hrest
      by (intros info' ?; apply Hall; by right).
    destruct (ssautil.Func ssaPkg "main").
    + rewrite (IH _ Hrest). by rewrite <- app_assoc.
    + by apply IH.
Qed.

Lemma FindMains_go_Panic s ips mains :
  (∃ info, info ∈ ips ∧ ssautil.PackageOf s (loader.Pkg info) = None) →
  is_Panic (FindMains_go s ips mains).
Proof.
  revert mains. induction ips as [|info ips IH]; intros mains (bad & Hin & Hnone).
  - by apply elem_of_nil in Hin.
  - simpl. destruct (ssautil.PackageOf s (loader.Pkg info)) as [ssaPkg|] eqn:E;
      [|by eexists].
    apply elem_of_cons in Hin as [->|Hin]; [congruence|].
    destruct (ssautil.Func ssaPkg "main"); apply IH; eauto.
Qed.

Lemma initial_packages_built_or_not s (ips : list loader.PackageInfo) :
  (∀ info, info ∈ ips → is_Some (ssautil.PackageOf s (loader.Pkg info)))
  ∨ (∃ info, info ∈ ips ∧ ssautil.PackageOf s (loader.Pkg info) = None).
Proof.
  induction ips as [|info ips [IH|(bad & Hin & Hnone)]].
  - left. by intros info ?%elem_of_nil.
  - destruct (ssautil.PackageOf s (loader.Pkg info)) as [ssaPkg|] eqn:E.
    + left. intros info' [->|?]%elem_of_cons; [by rewrite E | by apply IH].
    + right. exists info. split; [by left | done].
  - right. exists bad. split; [by right | done].
Qed.

(** X11.  [FindMains] returns, in the order of the initial packages, the
    SSA packages of those that have a function [main]; it panics exactly
    when some initial package has no SSA package, wherever in the list it
    stands and whether or not other packages have a [main]. *)
Theorem X11_mains_of_initial_packages p s :
  (is_Panic (FindMains p s) ↔
     ∃ info, info ∈ loader.InitialPackages p
             ∧ ssautil.PackageOf s (loader.Pkg info) = None)
  ∧ (∀ mains, FindMains p s = Ok mains →
       mains = omap (mainOf s) (loader.InitialPackages p))
  ∧ (∀ e, FindMains p s ≠ Err e).
Proof.
  unfold FindMains.
  destruct (initial_packages_built_or_not s (loader.InitialPackages p))
    as [Hall|Hbad].
  - rewrite (FindMains_go_spec s _ [] Hall). simpl. split; [|split].
    + split; [by intros [? ?]|].
      intros (info & Hin & Hnone). destruct (Hall info Hin) as [? ?].
      congruence.
    + by intros mains [= <-].
    + done.
  - destruct (FindMains_go_Panic s _ [] Hbad) as [msg Hmsg]. rewrite Hmsg.
    split; [|split]; [|done..]. split; [done | by eexists].
Qed.

Lemma enableDrivers_spec verbose imports catalog existOne out :
  enableDrivers verbose imports catalog existOne out =
  (enabledEntry imports <$> catalog,
   existOne || existsb (λ pkg, bool_decide (packageName pkg ∈ imports)) catalog,
   out ++ (if verbose
           then EnablingSupport <$>
                  (packageName <$>
                     filter (λ pkg, packageName pkg ∈ imports) catalog)
           else [])).
Proof.
  revert existOne out. induction catalog as [|pkg catalog IH];
    intros existOne out.
  - simpl. rewrite orb_false_r. by destruct verbose; rewrite app_nil_r.
  - cbn [enableDrivers existsb]. rewrite fmap_cons. unfold enabledEntry at 1.
    case_bool_decide as Hin.
    + rewrite IH, filter_cons_True by done. rewrite orb_true_r.
      destruct verbose; [|done].
      by rewrite !fmap_cons, <- app_assoc.
    + rewrite IH, filter_cons_False by done. by rewrite orb_false_l.
Qed.

(** X12.  The enabling loop of [main] keeps the entries of the catalog,
    their order, names and parameter names; an entry is enabled
    afterwards exactly when it was enabled before or the program imports
    its package; [existOne] ends up true exactly when it was true or some
    entry's package is imported; and the flag [-v] changes neither. *)
Theorem X12_enabled_iff_imported verbose imports catalog existOne out :
  Forall2 (λ before after,
             packageName after = packageName before
             ∧ paramNames after = paramNames before
             ∧ (enable after = true ↔
                  enable before = true ∨ packageName before ∈ imports))
    catalog (enableDrivers verbose imports catalog existOne out).1.1
  ∧ ((enableDrivers verbose imports catalog existOne out).1.2 = true ↔
       existOne = true ∨ ∃ pkg, pkg ∈ catalog ∧ packageName pkg ∈ imports)
  ∧ (enableDrivers verbose imports catalog existOne out).1
    = (enableDrivers (negb verbose) imports catalog existOne out).1.
Proof.
  rewrite !enableDrivers_spec. cbn [fst snd]. split; [|split; [|done]].
  - apply Forall2_fmap_r, Forall_Forall2_diag, Forall_forall.
    intros pkg _. unfold compose, enabledEntry.
    destruct (decide (packageName pkg ∈ imports)) as [Hin|Hin];
      [rewrite bool_decide_eq_true_2 by done
      |rewrite bool_decide_eq_false_2 by done]; simpl.
    + split; [done|]. split; [done|]. split; [by right | done].
    + split; [done|]. split; [done|]. split; [by left|].
      by intros [?|?].
  - rewrite orb_true_iff, existsb_exists. split.
    + intros [?|(pkg & Hin & Hdec)]; [by left|]. right. exists pkg.
      split; [by apply list_elem_of_In | by apply bool_decide_eq_true in Hdec].
    + intros [?|(pkg & Hin & Himp)]; [by left|]. right. exists pkg.
      split; [by apply list_elem_of_In | by apply bool_decide_eq_true].
Qed.

Lemma scanMethods_paramNames pkg pkg' ssa ms acc :
  paramNames pkg = paramNames pkg' →
  scanMethods pkg ssa ms acc = scanMethods pkg' ssa ms acc.
Proof.
  intros Hnames. revert acc. induction ms as [|m ms IH]; intros acc; [done|].
  cbn [scanMethods]. unfold FuncHasQuery. rewrite Hnames.
  destruct (negb (types.Func_Exported m)); [apply IH|].
  destruct (FuncHasQuery_from (paramNames pkg') _ 0) as [num [|]]; apply IH.
Qed.

Lemma scanNames_paramNames pkg pkg' scope ssa names acc :
  paramNames pkg = paramNames pkg' →
  scanNames pkg scope ssa names acc = scanNames pkg' scope ssa names acc.
Proof.
  intros Hnames. revert acc. induction names as [|name names IH]; intros acc;
    [done|].
  cbn [scanNames]. destruct (types.Lookup scope name) as [o|]; [|done].
  destruct (negb (types.Exported o)); [apply IH|].
  destruct (types.Kind o); try apply IH.
  destruct (types.TypeOf o); [|done].
  rewrite (scanMethods_paramNames pkg pkg') by done. apply IH.
Qed.

(** X13.  [FindQueryMethods] reads nothing of the catalog entry but its
    parameter names: entries with the same [paramNames] give the same
    result on every package, whatever their package name and [enable]
    flag. *)
Theorem X13_scan_reads_param_names_only pkg pkg' sql ssa :
  paramNames pkg = paramNames pkg' →
  FindQueryMethods pkg sql ssa = FindQueryMethods pkg' sql ssa.
Proof. intros Hnames. by apply scanNames_paramNames. Qed.

Lemma X13_scan_reads_param_names_only_witness :
  FindQueryMethods gormCatalog samplePackage noBodies
  = FindQueryMethods
      {| packageName := "github.com/jackc/pgx/v4"; paramNames := ["sql"; "query"];
         enable := false |} samplePackage noBodies.
Proof.
  apply (X13_scan_reads_param_names_only gormCatalog).
  reflexivity.
Defined.

Lemma collectQueryMethods_elem p s catalog qms out qm :
  collectQueryMethods p s catalog qms = Ok out →
  qm ∈ out ↔
    qm ∈ qms
    ∨ ∃ pkg info found,
        pkg ∈ catalog ∧ enable pkg = true
        ∧ loader.Package p (packageName pkg) = Some info
        ∧ FindQueryMethods pkg (loader.Pkg info) (ssautil.Prog s) = Ok found
        ∧ qm ∈ found.
Proof.
  revert qms out. induction catalog as [|pkg catalog IH]; intros qms out.
  - simpl. intros [= <-]. split; [by left|].
    intros [?|(? & ? & ? & ?%elem_of_nil & _)]; done.
  - cbn [collectQueryMethods]. destruct (enable pkg) eqn:Hen.
    + destruct (loader.Package p (packageName pkg)) as [info|] eqn:Hinfo;
        [|done].
      destruct (FindQueryMethods pkg (loader.Pkg info) (ssautil.Prog s))
        as [found| |] eqn:Hfound; simpl; [|done..].
      intros Hout. rewrite (IH _ _ Hout), elem_of_app. split.
      * intros [[?|?]|(pkg' & info' & found' & ? & ?)].
        -- by left.
        -- right. exists pkg, info, found. split; [by left | done].
        -- right. exists pkg', info', found'. split; [by right | done].
      * intros [?|(pkg' & info' & found' & [->|?]%elem_of_cons & ? & Hi & Hf & ?)].
        -- by left; left.
        -- left; right. congruence.
        -- right. eauto 10.
    + intros Hout. rewrite (IH _ _ Hout). split.
      * intros [?|(pkg' & info' & found' & ? & ?)]; [by left|].
        right. exists pkg', info', found'. split; [by right | done].
      * intros [?|(pkg' & info' & found' & [->|?]%elem_of_cons & ? & ?)].
        -- by left.
        -- congruence.
        -- right. eauto 10.
Qed.

(** X14.  The methods [main] tracks are those [FindQueryMethods] finds in
    the catalog packages the program imports, and no others: after the
    enabling loop on the declared catalog, the gathering loop, when it
    finishes, returns a method exactly when it is found in the loaded
    package of a catalog entry whose package path is among the imports. *)
Theorem X14_tracked_methods_of_imported_drivers verbose p s qms :
  collectQueryMethods p s
    (enableDrivers verbose (getImports p) sqlPackages false []).1.1 []
  = Ok qms →
  ∀ qm, qm ∈ qms ↔
    ∃ pkg info found,
      pkg ∈ sqlPackages ∧ packageName pkg ∈ getImports p
      ∧ loader.Package p (packageName pkg) = Some info
      ∧ FindQueryMethods pkg (loader.Pkg info) (ssautil.Prog s) = Ok found
      ∧ qm ∈ found.
Proof.
  rewrite enableDrivers_spec. cbn [fst snd]. intros Hrun qm.
  rewrite (collectQueryMethods_elem _ _ _ _ _ qm Hrun). split.
  - intros [?%elem_of_nil|(pkg' & info & found & Hin & Hen & Hinfo & Hfound & ?)];
      [done|].
    apply list_elem_of_fmap in Hin as (pkg & -> & Hin).
    unfold enabledEntry in *. case_bool_decide as Himp.
    + exists pkg, info, found. simpl in Hinfo. repeat (split; [done|]).
      split; [|done]. rewrite <- Hfound. by apply scanNames_paramNames.
    + apply list_elem_of_In in Hin. simpl in Hin.
      destruct Hin as [<-|[<-|[<-|[<-|[]]]]]; done.
  - intros (pkg & info & found & Hin & Himp & Hinfo & Hfound & ?). right.
    exists (enabledEntry (getImports p) pkg), info, found.
    split; [apply list_elem_of_fmap; eauto|].
    unfold enabledEntry. rewrite bool_decide_eq_true_2 by done. simpl.
    repeat (split; [done|]). split; [|done].
    rewrite <- Hfound. by apply scanNames_paramNames.
Qed.

Lemma X14_tracked_methods_of_imported_drivers_witness :
  ∃ qms,
    collectQueryMethods sampleProgram sampleBuilt
      (enableDrivers true (getImports sampleProgram) sqlPackages false []).1.1 []
    = Ok qms
    ∧ ∀ qm, qm ∈ qms ↔
        ∃ pkg info found,
          pkg ∈ sqlPackages ∧ packageName pkg ∈ getImports sampleProgram
          ∧ loader.Package sampleProgram (packageName pkg) = Some info
          ∧ FindQueryMethods pkg (loader.Pkg info) (ssautil.Prog sampleBuilt)
            = Ok found
          ∧ qm ∈ found.
Proof.
  eexists. split; [vm_compute; reflexivity|].
  apply (X14_tracked_methods_of_imported_drivers true).
  vm_compute. reflexivity.
Defined.

(** ** [main]: the outcome and the printed lines *)

Lemma reportIssues_spec issues out has :
  reportIssues issues out has =
  (out ++ (statementLine <$> issues),
   has || existsb (λ issue, negb (ignored issue)) issues).
Proof.
  revert out has. induction issues as [|issue issues IH]; intros out has.
  - simpl. by rewrite app_nil_r, orb_false_r.
  - cbn [reportIssues existsb]. rewrite fmap_cons.
    destruct (ignored issue) eqn:Hignored; rewrite IH, <- app_assoc;
      unfold statementLine at 2; rewrite Hignored; simpl.
    + done.
    + by rewrite orb_true_r.
Qed.

Lemma mainExec_sound env verbose quiet pkgs :
  main env verbose quiet pkgs (mainExec env verbose quiet pkgs).
Proof.
  unfold mainExec.
  destruct (mainDetect env verbose quiet pkgs) as [out [o|bad]] eqn:Hdetect.
  - by apply main_stops.
  - eapply main_checks; [done | apply CheckIssues_exec_sound].
Qed.

Lemma linePosition_enabling (names : list string) :
  omap linePosition (EnablingSupport <$> names) = [].
Proof. by induction names. Qed.

Lemma linePosition_driver (qms : list QueryMethod) :
  omap linePosition (DriverFunction <$> qms) = [].
Proof. by induction qms. Qed.

Lemma linePosition_statementLine (issues : list Issue) :
  omap linePosition (statementLine <$> issues) = statement <$> issues.
Proof.
  induction issues as [|issue issues IH]; [done|].
  rewrite !fmap_cons. cbn [omap list_omap]. unfold statementLine at 1.
  destruct (ignored issue); simpl; by rewrite <- IH.
Qed.

(** The steps every proof about [mainDetect] starts with. *)
Ltac detect_cases :=
  unfold mainDetect;
  repeat match goal with
  | |- context [len ?pkgs =? 0] => destruct (len pkgs =? 0)
  | |- context [Load ?env ?pkgs] => destruct (Load env pkgs) as [?p|?err|?msg]
  | |- context [enableDrivers _ _ _ _ _] =>
      rewrite !enableDrivers_spec; cbv beta iota zeta
  | |- context [negb (false || ?b)] => destruct b; cbn [orb negb]
  | |- context [collectQueryMethods ?p ?s ?c ?q] =>
      destruct (collectQueryMethods p s c q) as [?qms|?err|?msg]
  | |- context [FindMains ?p ?s] =>
      destruct (FindMains p s) as [?mains|?err|?msg]
  | |- context [Analyze ?env ?mains] =>
      destruct (Analyze env mains) as [?cg|?err|?msg]
  | |- context [FindNonConstCalls ?D ?cg ?qms] =>
      destruct (FindNonConstCalls D cg qms) as [?bad|?err|?msg]
  end.

Lemma mainDetect_stage env verbose quiet verbose' quiet' pkgs :
  (mainDetect env verbose quiet pkgs).2 = (mainDetect env verbose' quiet' pkgs).2.
Proof. detect_cases; done. Qed.

Lemma mainDetect_no_statement_line env verbose quiet pkgs :
  omap linePosition (mainDetect env verbose quiet pkgs).1 = [].
Proof.
  detect_cases; cbn [fst negb];
    destruct verbose, quiet; cbn [fst];
    rewrite ?omap_app, ?linePosition_enabling, ?linePosition_driver; done.
Qed.

Lemma mainDetect_stop_code env verbose quiet pkgs code :
  (mainDetect env verbose quiet pkgs).2 = Stop (Exited code) →
  code = 0 ∨ code = 2.
Proof. detect_cases; cbn [snd negb]; intros [= <-]; auto. Qed.

Lemma mainReport_outcome verbose out checked :
  (mainReport verbose out checked).2 =
  match checked with
  | Panic msg => Panicked msg
  | Err _ => Exited 2
  | Ok issues =>
    if existsb (λ issue, negb (ignored issue)) issues then Exited 1
    else Exited 0
  end.
Proof.
  destruct checked as [issues| |]; [|done..]. unfold mainReport.
  rewrite reportIssues_spec. simpl.
  by destruct (existsb _ issues).
Qed.

Lemma mainReport_lines verbose out checked :
  omap linePosition (mainReport verbose out checked).1 =
  omap linePosition out
  ++ match checked with Ok issues => statement <$> issues | _ => [] end.
Proof.
  destruct checked as [issues|err|msg]; unfold mainReport.
  - rewrite reportIssues_spec. simpl.
    destruct (existsb _ issues); cbn [fst];
      rewrite omap_app, linePosition_statementLine;
      destruct verbose; by rewrite ?omap_app, ?app_nil_r.
  - cbn [fst]. by rewrite omap_app.
  - cbn [fst]. by rewrite app_nil_r.
Qed.

Lemma mainReport_unsafe verbose out checked p :
  omap linePosition out = [] →
  UnsafeStatement p ∈ (mainReport verbose out checked).1 ↔
    ∃ issues issue,
      checked = Ok issues ∧ issue ∈ issues
      ∧ ignored issue = false ∧ statement issue = p.
Proof.
  intros Hout.
  assert (UnsafeStatement p ∉ out) as Hnot.
  { intros Hin. assert (p ∈ omap linePosition out) as Hp
      by (apply list_elem_of_omap; by exists (UnsafeStatement p)).
    rewrite Hout in Hp. by apply elem_of_nil in Hp. }
  destruct checked as [issues|err|msg]; unfold mainReport.
  - rewrite reportIssues_spec. simpl.
    assert (∀ c c' : Outcome,
      (if existsb (λ issue, negb (ignored issue)) issues
       then ((if verbose then out ++ [Advice] else out)
               ++ (statementLine <$> issues), c)
       else ((if verbose then out ++ [Advice] else out)
               ++ (statementLine <$> issues), c')).1
      = (if verbose then out ++ [Advice] else out)
          ++ (statementLine <$> issues)) as ->
      by (intros; by destruct (existsb _ issues)).
    rewrite elem_of_app, list_elem_of_fmap. split.
    + intros [Hin|(issue & Hline & Hin)].
      * destruct verbose; [|done].
        apply elem_of_app in Hin as [?|Hin]; [done|].
        by apply list_elem_of_singleton in Hin.
      * exists issues, issue. unfold statementLine in Hline.
        destruct (ignored issue); [done|]. by injection Hline as ->.
    + intros (? & issue & [= <-] & Hin & Hignored & <-). right.
      exists issue. split; [|done]. unfold statementLine. by rewrite Hignored.
  - cbn [fst]. split.
    + intros [?|Hin%list_elem_of_singleton]%elem_of_app; done.
    + by intros (? & ? & ? & _).
  - cbn [fst]. split; [done|]. by intros (? & ? & ? & _).
Qed.

(** X15.  The flags [-v] and [-q] change neither how a run ends nor which
    statements it lists: whatever a run with one setting of the flags
    prints and however it ends (exit status or panic, with the same
    result of [CheckIssues]), a run with any other setting ends the same
    way, and the positions of the statement lines it prints, in order,
    are the same. *)
Theorem X15_flags_change_informational_lines_only
    env verbose quiet verbose' quiet' pkgs out o :
  main env verbose quiet pkgs (out, o) →
  ∃ out', main env verbose' quiet' pkgs (out', o)
          ∧ omap linePosition out' = omap linePosition out.
Proof.
  intros Hrun.
  pose proof (mainDetect_stage env verbose quiet verbose' quiet' pkgs) as Hstage.
  pose proof (mainDetect_no_statement_line env verbose quiet pkgs) as Hnone.
  pose proof (mainDetect_no_statement_line env verbose' quiet' pkgs) as Hnone'.
  destruct (mainDetect env verbose' quiet' pkgs) as [out' stage'] eqn:Hdetect'.
  inversion Hrun as [out0 o0 Hdetect Heq|out0 bad checked Hdetect Hchecked Heq].
  - subst. rewrite Hdetect in Hstage, Hnone. simpl in *. subst stage'.
    exists out'. split; [by apply main_stops | congruence].
  - rewrite Hdetect in Hstage, Hnone. simpl in *. subst stage'.
    exists (mainReport verbose' out' checked).1. split.
    + assert (o = (mainReport verbose' out' checked).2) as ->.
      { rewrite mainReport_outcome, <- (mainReport_outcome verbose out0).
        by rewrite Heq. }
      rewrite <- surjective_pairing. by eapply main_checks.
    + assert (out = (mainReport verbose out0 checked).1) as ->
        by (by rewrite Heq).
      rewrite !mainReport_lines. congruence.
Qed.

Lemma X15_flags_change_informational_lines_only_witness :
  ∃ out', main appEnv false true ["example.com/app"] (out', Exited 1)
          ∧ omap linePosition out'
            = omap linePosition
                (mainExec appEnv true false ["example.com/app"]).1.
Proof.
  apply (X15_flags_change_informational_lines_only appEnv true false).
  assert (mainExec appEnv true false ["example.com/app"]
          = ((mainExec appEnv true false ["example.com/app"]).1, Exited 1))
    as Hrun by (vm_compute; reflexivity).
  rewrite <- Hrun. apply mainExec_sound.
Defined.

(** X16.  The command ends with exit status 1 exactly when it has printed
    the line of a statement that is not suppressed; the exit statuses it
    ends with are 0, 1 and 2. *)
Theorem X16_exit_status_one env verbose quiet pkgs out o :
  main env verbose quiet pkgs (out, o) →
  (o = Exited 1 ↔ ∃ p, UnsafeStatement p ∈ out)
  ∧ (∀ code, o = Exited code → code = 0 ∨ code = 1 ∨ code = 2).
Proof.
  intros Hrun.
  pose proof (mainDetect_no_statement_line env verbose quiet pkgs) as Hnone.
  inversion Hrun as [out0 o0 Hdetect Heq|out0 bad checked Hdetect Hchecked Heq].
  - subst. rewrite Hdetect in Hnone. simpl in Hnone.
    pose proof (mainDetect_stop_code env verbose quiet pkgs) as Hcode.
    rewrite Hdetect in Hcode. simpl in Hcode. split; [split|].
    + intros ->. destruct (Hcode 1 eq_refl); done.
    + intros [p Hin].
      assert (p ∈ omap linePosition out) as Hp
        by (apply list_elem_of_omap; by exists (UnsafeStatement p)).
      rewrite Hnone in Hp. by apply elem_of_nil in Hp.
    + intros code ->. destruct (Hcode code eq_refl); auto.
  - rewrite Hdetect in Hnone. simpl in Hnone.
    assert (out = (mainReport verbose out0 checked).1) as ->
      by (by rewrite Heq).
    assert (o = (mainReport verbose out0 checked).2) as ->
      by (by rewrite Heq).
    rewrite mainReport_outcome. split; [split|].
    + intros Hone. destruct checked as [issues|err|msg]; [|done..].
      destruct (existsb _ issues) eqn:Hsome; [|done].
      apply existsb_exists in Hsome as (issue & Hin & Hissue).
      exists (statement issue). apply mainReport_unsafe; [done|].
      exists issues, issue. apply list_elem_of_In in Hin.
      by destruct (ignored issue).
    + intros [p Hin].
      apply mainReport_unsafe in Hin
        as (issues & issue & -> & Hin & Hissue & _); [|done].
      assert (existsb (λ issue, negb (ignored issue)) issues = true) as ->;
        [|done].
      apply existsb_exists. exists issue. apply list_elem_of_In in Hin.
      by rewrite Hissue.
    + intros code. destruct checked as [issues|err|msg].
      * destruct (existsb _ issues); intros [= <-]; auto.
      * intros [= <-]; auto.
      * done.
Qed.

Lemma X16_exit_status_one_witness :
  (Exited 1 = Exited 1 ↔
     ∃ p, UnsafeStatement p
          ∈ (mainExec appEnv true false ["example.com/app"]).1)
  ∧ (∀ code, Exited 1 = Exited code → code = 0 ∨ code = 1 ∨ code = 2).
Proof.
  apply (X16_exit_status_one appEnv true false ["example.com/app"]).
  assert (mainExec appEnv true false ["example.com/app"]
          = ((mainExec appEnv true false ["example.com/app"]).1, Exited 1))
    as Hrun by (vm_compute; reflexivity).
  rewrite <- Hrun. apply mainExec_sound.
Defined.

(** X17.  When the detector has returned call sites and the run ends with
    exit status 0 or 1, the statement lines printed are, up to order, the
    positions of the returned call sites: each returned site is listed,
    as often as it was returned, and nothing else is. *)
Theorem X17_every_returned_site_is_listed
    env verbose quiet pkgs out0 bad out code :
  mainDetect env verbose quiet pkgs = (out0, Check bad) →
  main env verbose quiet pkgs (out, Exited code) →
  code ≠ 2 →
  omap linePosition out ≡ₚ positionsOf bad.
Proof.
  intros Hdetect Hrun Hcode.
  pose proof (mainDetect_no_statement_line env verbose quiet pkgs) as Hnone.
  rewrite Hdetect in Hnone. simpl in Hnone.
  inversion Hrun as [out1 o1 Hdetect1 Heq|out1 bad1 checked Hdetect1 Hchecked Heq].
  - congruence.
  - rewrite Hdetect in Hdetect1. injection Hdetect1 as <- <-.
    assert (out = (mainReport verbose out0 checked).1) as ->
      by (by rewrite Heq).
    assert (Exited code = (mainReport verbose out0 checked).2) as Hend
      by (by rewrite Heq).
    rewrite mainReport_outcome in Hend. rewrite mainReport_lines, Hnone.
    destruct checked as [issues|err|msg].
    + simpl. by apply CheckIssues_statements with (fs := Files env).
    + congruence.
    + done.
Qed.

Lemma X17_every_returned_site_is_listed_witness :
  omap linePosition (mainExec appEnv true false ["example.com/app"]).1
  ≡ₚ positionsOf [callgraph.Site edgeBoxedParam; callgraph.Site edgePlain].
Proof.
  eapply (X17_every_returned_site_is_listed
            appEnv true false ["example.com/app"] _ _ _ 1).
  - vm_compute. reflexivity.
  - assert (mainExec appEnv true false ["example.com/app"]
            = ((mainExec appEnv true false ["example.com/app"]).1, Exited 1))
      as Hrun by (vm_compute; reflexivity).
    rewrite <- Hrun. apply mainExec_sound.
  - done.
Defined.

Lemma no_driver_imported (imports : gset string) (catalog : list sqlPackage) :
  existsb (λ pkg, bool_decide (packageName pkg ∈ imports)) catalog = false ↔
  ∀ pkg, pkg ∈ catalog → packageName pkg ∉ imports.
Proof.
  induction catalog as [|pkg catalog IH]; simpl.
  - split; [|done]. by intros _ ? ?%elem_of_nil.
  - rewrite orb_false_iff, IH, bool_decide_eq_false. split.
    + intros [Hpkg Hrest] pkg' [->|?]%elem_of_cons; auto.
    + intros Hall. split; [apply Hall; by left|].
      intros pkg' ?. apply Hall. by right.
Qed.

Lemma no_driver_filter (imports : gset string) (catalog : list sqlPackage) :
  existsb (λ pkg, bool_decide (packageName pkg ∈ imports)) catalog = false →
  filter (λ pkg, packageName pkg ∈ imports) catalog = [].
Proof.
  induction catalog as [|pkg catalog IH]; [done|]. simpl.
  intros [Hpkg Hrest]%orb_false_iff. apply bool_decide_eq_false in Hpkg.
  rewrite filter_cons_False by done. auto.
Qed.

Lemma mainReport_keeps_notice verbose out checked pkgs :
  NoSupportedDriver pkgs ∈ (mainReport verbose out checked).1 →
  NoSupportedDriver pkgs ∈ out.
Proof.
  destruct checked as [issues|err|msg]; unfold mainReport.
  - rewrite reportIssues_spec. simpl.
    destruct (existsb _ issues); cbn [fst];
      (intros [Hin|(issue & Hline & _)%list_elem_of_fmap]%elem_of_app;
       [destruct verbose; [|done];
        apply elem_of_app in Hin as [?|Hin%list_elem_of_singleton]; done
       |unfold statementLine in Hline; by destruct (ignored issue)]).
  - cbn [fst]. intros [?|Hin%list_elem_of_singleton]%elem_of_app; done.
  - done.
Qed.

(** X18.  A program that imports none of the catalog packages is not
    analysed: the run prints the one line that no package includes a
    supported database driver, whatever the flags, and ends with exit
    status 2.  When the program imports a catalog package that line is
    never printed. *)
Theorem X18_no_supported_driver env verbose quiet pkgs p out o :
  pkgs ≠ [] →
  Load env pkgs = Ok p →
  main env verbose quiet pkgs (out, o) →
  ((∀ pkg, pkg ∈ sqlPackages → (packageName pkg ∉ getImports p)) →
   out = [NoSupportedDriver pkgs] ∧ o = Exited 2)
  ∧ (NoSupportedDriver pkgs ∈ out →
     ∀ pkg, pkg ∈ sqlPackages → packageName pkg ∉ getImports p).
Proof.
  intros Hpkgs Hload Hrun.
  assert ((len pkgs =? 0) = false) as Hlen.
  { apply Z.eqb_neq. unfold len. destruct pkgs; [done|]. simpl. lia. }
  destruct (existsb (λ pkg, bool_decide (packageName pkg ∈ getImports p))
              sqlPackages) eqn:Hsome.
  - assert (¬ ∀ pkg, pkg ∈ sqlPackages → packageName pkg ∉ getImports p)
      as Hnot by (rewrite <- no_driver_imported; congruence).
    split; [done|]. intros Hin. exfalso.
    assert (NoSupportedDriver pkgs ∉ (mainDetect env verbose quiet pkgs).1)
      as Hdetect.
    { unfold mainDetect. rewrite Hlen, Hload, enableDrivers_spec.
      cbv beta iota zeta. rewrite Hsome. cbn [orb negb].
      repeat match goal with
      | |- context [collectQueryMethods ?p ?s ?c ?q] =>
          destruct (collectQueryMethods p s c q) as [?qms|?err|?msg]
      | |- context [FindMains ?p ?s] =>
          destruct (FindMains p s) as [?mains|?err|?msg]
      | |- context [len ?l =? 0] => destruct (len l =? 0)
      | |- context [Analyze ?env ?mains] =>
          destruct (Analyze env mains) as [?cg|?err|?msg]
      | |- context [FindNonConstCalls ?D ?cg ?qms] =>
          destruct (FindNonConstCalls D cg qms) as [?bad|?err|?msg]
      end;
      destruct verbose, quiet; cbn [fst app];
      intros Hmem;
      repeat match type of Hmem with
      | _ ∈ _ ++ _ => apply elem_of_app in Hmem as [Hmem|Hmem]
      | _ ∈ _ :: _ => apply elem_of_cons in Hmem as [Hmem|Hmem]
      | _ ∈ _ <$> _ => apply list_elem_of_fmap in Hmem as [? [Hmem _]]
      | _ ∈ [] => by apply elem_of_nil in Hmem
      end; discriminate Hmem. }
    apply Hdetect.
    inversion Hrun as [out0 o0 Hd Heq|out0 bad checked Hd Hchecked Heq].
    + subst. by rewrite Hd.
    + rewrite Hd. simpl.
      apply (mainReport_keeps_notice verbose out0 checked). by rewrite Heq.
  - assert (mainDetect env verbose quiet pkgs
            = ([NoSupportedDriver pkgs], Stop (Exited 2))) as Hdetect.
    { unfold mainDetect. rewrite Hlen, Hload, enableDrivers_spec.
      cbv beta iota zeta. rewrite Hsome. cbn [orb negb].
      assert (filter (λ pkg, packageName pkg ∈ getImports p) sqlPackages = [])
        as ->; [|by destruct verbose].
      by apply no_driver_filter. }
    split; [|by intros _; apply no_driver_imported].
    intros _.
    inversion Hrun as [out0 o0 Hd Heq|out0 bad checked Hd Hchecked Heq].
    + subst. rewrite Hdetect in Hd. by injection Hd as <- <-.
    + rewrite Hdetect in Hd. done.
Qed.

Lemma X18_no_supported_driver_witness :
  ((∀ pkg, pkg ∈ sqlPackages →
      packageName pkg ∉ getImports
        {| loader.AllPackages := [infoApp];
           loader.InitialPackages := [infoApp];
           loader.Package := λ _, None |}) →
   (mainExec bareEnv true false ["example.com/app"]).1
     = [NoSupportedDriver ["example.com/app"]]
   ∧ Exited 2 = Exited 2)
  ∧ (NoSupportedDriver ["example.com/app"]
       ∈ (mainExec bareEnv true false ["example.com/app"]).1 →
     ∀ pkg, pkg ∈ sqlPackages →
       packageName pkg ∉ getImports
         {| loader.AllPackages := [infoApp];
            loader.InitialPackages := [infoApp];
            loader.Package := λ _, None |}).
Proof.
  apply (X18_no_supported_driver bareEnv true false).
  - done.
  - reflexivity.
  - assert (mainExec bareEnv true false ["example.com/app"]
            = ((mainExec bareEnv true false ["example.com/app"]).1, Exited 2))
      as Hrun by (vm_compute; reflexivity).
    rewrite <- Hrun. apply mainExec_sound.
Defined.

(** ** The marker and the white space around it *)

Lemma string_app_cons c (s1 s2 : string) :
  String c s1 +:+ s2 = String c (s1 +:+ s2).
Proof. reflexivity. Qed.

Lemma string_app_nil_r (s : string) : s +:+ "" = s.
Proof.
  induction s as [|c s IH]; [done|]. by rewrite string_app_cons, IH.
Qed.

Lemma string_app_assoc (s1 s2 s3 : string) :
  (s1 +:+ s2) +:+ s3 = s1 +:+ (s2 +:+ s3).
Proof.
  induction s1 as [|c s1 IH]; [done|]. by rewrite !string_app_cons, IH.
Qed.

Lemma rev_app_spec (s1 s2 : string) :
  String.rev_app s1 s2 = String.rev s1 +:+ s2.
Proof.
  revert s2. induction s1 as [|c s1 IH]; intros s2; [done|].
  unfold String.rev. cbn [String.rev_app].
  rewrite (IH (String c "")), IH. by rewrite string_app_assoc.
Qed.

Lemma rev_cons c (s : string) :
  String.rev (String c s) = String.rev s +:+ String c "".
Proof. unfold String.rev at 1. cbn [String.rev_app]. apply rev_app_spec. Qed.

Lemma rev_append (s1 s2 : string) :
  String.rev (s1 +:+ s2) = String.rev s2 +:+ String.rev s1.
Proof.
  induction s1 as [|c s1 IH].
  - by rewrite string_app_nil_r.
  - by rewrite string_app_cons, !rev_cons, IH, string_app_assoc.
Qed.

Lemma whiteOnly_app (s1 s2 : string) :
  whiteOnly (s1 +:+ s2) = whiteOnly s1 && whiteOnly s2.
Proof.
  induction s1 as [|c s1 IH]; [done|].
  rewrite string_app_cons. cbn [whiteOnly]. by rewrite IH, andb_assoc.
Qed.

Lemma whiteOnly_rev (s : string) : whiteOnly (String.rev s) = whiteOnly s.
Proof.
  induction s as [|c s IH]; [done|].
  rewrite rev_cons, whiteOnly_app, IH. cbn [whiteOnly].
  by rewrite andb_true_r, andb_comm.
Qed.

Lemma trimRunes_white back (ws s : string) :
  whiteOnly ws = true → trimRunes back (ws +:+ s) = trimRunes back s.
Proof.
  induction ws as [|c ws IH]; [done|]. rewrite string_app_cons.
  cbn [whiteOnly trimRunes].
  intros [Hc Hws]%andb_true_iff. rewrite Hc. auto.
Qed.

Lemma trimRunes_whiteOnly back (ws : string) :
  whiteOnly ws = true → trimRunes back ws = "".
Proof.
  intros Hws. rewrite <- (string_app_nil_r ws). by rewrite trimRunes_white.
Qed.

(** An ASCII white space byte is no second or third byte of an encoded
    white space rune. *)
Ltac byte_cases w :=
  destruct w as [[] [] [] [] [] [] [] []]; try done;
  unfold space2, space3;
  repeat match goal with
  | |- context [byte_is ?c ?n] => is_var c; destruct (byte_is c n)
  | |- context [N_of_ascii ?c] => is_var c; generalize (N_of_ascii c); intros ?
  end;
  rewrite ?andb_false_r; try reflexivity.

Lemma space2_ascii c w : asciiSpace w = true → space2 c w = false.
Proof. intros Hw. byte_cases w. Qed.

Lemma space3_ascii_second c w c' : asciiSpace w = true → space3 c w c' = false.
Proof. intros Hw. byte_cases w. Qed.

Lemma space3_ascii_third c c' w : asciiSpace w = true → space3 c c' w = false.
Proof. intros Hw. byte_cases w. Qed.

Lemma trimRunes_trailing (ws : string) :
  whiteOnly ws = true →
  ∀ (n : nat) (s : string), (String.length s ≤ n)%nat →
    trimRunes false (s +:+ ws) =
    match trimRunes false s with
    | EmptyString => EmptyString
    | t => t +:+ ws
    end.
Proof.
  intros Hws. induction n as [|n IH]; intros s Hlen.
  - destruct s; simpl in Hlen; [|lia]. by apply trimRunes_whiteOnly.
  - destruct s as [|c1 r1]; [by apply trimRunes_whiteOnly|].
    rewrite string_app_cons. cbn [trimRunes]. simpl in Hlen.
    destruct (asciiSpace c1) eqn:H1; [apply IH; lia|].
    destruct r1 as [|c2 r2].
    { destruct ws as [|w1 ws]; [done|].
      apply andb_true_iff in Hws as [Hw1 Hws].
      change ("" +:+ String w1 ws) with (String w1 ws). cbv iota.
      rewrite (space2_ascii c1 w1 Hw1).
      destruct ws as [|w2 ws]; [done|].
      by rewrite (space3_ascii_second c1 w1 w2 Hw1). }
    rewrite string_app_cons. simpl in Hlen.
    destruct (space2 c1 c2) eqn:H2; [apply IH; lia|].
    destruct r2 as [|c3 r3].
    { destruct ws as [|w1 ws]; [done|].
      apply andb_true_iff in Hws as [Hw1 Hws].
      change ("" +:+ String w1 ws) with (String w1 ws). cbv iota.
      by rewrite (space3_ascii_third c1 c2 w1 Hw1). }
    rewrite string_app_cons. simpl in Hlen.
    destruct (space3 c1 c2 c3) eqn:H3; [apply IH; lia|done].
Qed.

Lemma TrimSpace_surrounded (before after line : string) :
  whiteOnly before = true → whiteOnly after = true →
  TrimSpace (before +:+ line +:+ after) = TrimSpace line.
Proof.
  intros Hbefore Hafter. unfold TrimSpace.
  rewrite (trimRunes_white false before) by done.
  rewrite (trimRunes_trailing after Hafter (String.length line) line) by done.
  destruct (trimRunes false line) as [|c t] eqn:Ht; [done|].
  rewrite rev_append, trimRunes_white; [done|]. by rewrite whiteOnly_rev.
Qed.

(** X19.  ASCII white space around a line (indentation before it, trailing
    blanks or the carriage return of a CRLF line end after it) changes
    neither whether the line begins with the ignore marker nor whether it
    ends with it. *)
Theorem X19_white_space_around_a_line (before after line : string) :
  whiteOnly before = true →
  whiteOnly after = true →
  BeginsWithComment (before +:+ line +:+ after) = BeginsWithComment line
  ∧ HasIgnoreComment (before +:+ line +:+ after) = HasIgnoreComment line.
Proof.
  intros Hbefore Hafter. unfold BeginsWithComment, HasIgnoreComment.
  by rewrite TrimSpace_surrounded.
Qed.

Lemma X19_white_space_around_a_line_witness :
  BeginsWithComment
    (String "009" "  " +:+ "//nolint:safesql reviewed" +:+ String "013" "")
  = BeginsWithComment "//nolint:safesql reviewed"
  ∧ HasIgnoreComment
      (String "009" "  " +:+ "//nolint:safesql reviewed" +:+ String "013" "")
    = HasIgnoreComment "//nolint:safesql reviewed".
Proof.
  apply (X19_white_space_around_a_line (String "009" "  ")
           (String "013" "")); reflexivity.
Defined.
